(** * Photo-to-player name matching: a shallow embedding

    This development embeds the matching heuristic of
    [photo-mapper/backend/photo_player_mapping.py] and
    [photo-mapper/backend/app.py] ([normalize_name],
    [generate_name_variations], [match_photo_to_player],
    [create_photo_mappings]) and proves properties of it.

    Modelling conventions.
    - A Python [str] is a Rocq [string]; a character is a code point below
      256 (Latin-1), the range on which [str.lower] acts character by
      character.  The classes [\w], [\s] and the whitespace of [str.strip]
      are those of CPython for these code points.
    - A name field of a roster row is a [str] or [None] ([PyValue]).  The
      script loads its roster with pandas, which also yields numbers (the
      float [nan] for a blank cell): module [Cells] holds the matcher on such
      rows, and the two agree on rows of strings.
    - A Python [set] of strings is the duplicate-free list of its elements;
      the order in which a [for] loop visits it is not fixed by the language,
      so every function that iterates over a set takes the iteration order as
      a parameter ([SetOrder]) and the theorems hold for all of them.
    - A dictionary lookup [d[k]] can raise [KeyError]: functions that perform
      one return a [PyResult]. *)

From Stdlib Require Import Bool Arith Lia List String Ascii NArith.
From Stdlib Require Import Permutation Sorted.
Import ListNotations.

Local Open Scope string_scope.
Local Open Scope bool_scope.

(* ================================================================== *)
(** ** Characters *)

Module Chr.

Definition code (c : ascii) : N := N_of_ascii c.

Definition between (lo hi : N) (c : ascii) : bool :=
  (lo <=? code c)%N && (code c <=? hi)%N.

(** [str.isspace] / regex [\s] / the characters removed by [str.strip()]. *)
Definition is_space (c : ascii) : bool :=
  between 9 13 c || between 28 32 c || between 133 133 c
  || between 160 160 c.

(** regex [\w]: alphanumeric code points and the underscore. *)
Definition is_word (c : ascii) : bool :=
  between 48 57 c || between 65 90 c || between 95 95 c
  || between 97 122 c || between 170 170 c || between 178 179 c
  || between 181 181 c || between 185 186 c || between 188 190 c
  || between 192 214 c || between 216 246 c || between 248 255 c.

(** Code points that have a distinct lower-case form. *)
Definition is_upper (c : ascii) : bool :=
  between 65 90 c || between 192 214 c || between 216 222 c.

(** [str.lower] on one character. *)
Definition lower (c : ascii) : ascii :=
  if is_upper c then ascii_of_N (code c + 32) else c.

Definition hyphen : ascii := "-"%char.

(** The class [[^\w\s-]] of the first substitution of [normalize_name]. *)
Definition class_special (c : ascii) : bool :=
  negb (is_word c || is_space c || Ascii.eqb c hyphen).

(** The class [[\s\-]] of the second substitution of [normalize_name]. *)
Definition class_separator (c : ascii) : bool :=
  is_space c || Ascii.eqb c hyphen.

End Chr.

(* ================================================================== *)
(** ** String primitives of the Python runtime used by the matcher *)

Module Str.

(** [s.lower()] *)
Fixpoint lower (s : string) : string :=
  match s with
  | EmptyString => EmptyString
  | String c s' => String (Chr.lower c) (lower s')
  end.

(** [re.sub('[cls]', repl, s)]: every character of the class is a match
    of its own and is replaced by [repl]. *)
Fixpoint re_sub_class (cls : ascii -> bool) (repl s : string) : string :=
  match s with
  | EmptyString => EmptyString
  | String c s' =>
      if cls c then repl ++ re_sub_class cls repl s'
      else String c (re_sub_class cls repl s')
  end.

(** [re.sub('[cls]+', repl, s)]: the matches are the maximal runs of
    characters of the class (leftmost, greedy); [in_run] records that the
    scan is inside a run whose replacement was already emitted. *)
Fixpoint re_sub_runs (cls : ascii -> bool) (repl : string) (in_run : bool)
    (s : string) : string :=
  match s with
  | EmptyString => EmptyString
  | String c s' =>
      if cls c then
        (if in_run then EmptyString else repl)
          ++ re_sub_runs cls repl true s'
      else String c (re_sub_runs cls repl false s')
  end.

Definition re_sub_class_plus (cls : ascii -> bool) (repl s : string)
  : string :=
  re_sub_runs cls repl false s.

(** [s.lstrip()] *)
Fixpoint lstrip (s : string) : string :=
  match s with
  | EmptyString => EmptyString
  | String c s' => if Chr.is_space c then lstrip s' else s
  end.

(** [s.rstrip()] *)
Fixpoint rstrip (s : string) : string :=
  match s with
  | EmptyString => EmptyString
  | String c s' =>
      match rstrip s' with
      | EmptyString =>
          if Chr.is_space c then EmptyString else String c EmptyString
      | r => String c r
      end
  end.

(** [s.strip()] *)
Definition strip (s : string) : string := rstrip (lstrip s).

(** [s.replace(old, new)] for a one-character [old] and [new]. *)
Fixpoint replace (old new : ascii) (s : string) : string :=
  match s with
  | EmptyString => EmptyString
  | String c s' =>
      String (if Ascii.eqb c old then new else c) (replace old new s')
  end.

(** [sub in s] on strings: substring containment. *)
Fixpoint contains (s sub : string) : bool :=
  String.prefix sub s
  || match s with
     | EmptyString => false
     | String _ s' => contains s' sub
     end.

(** [s.rfind(c)] for a one-character [c]: the highest index, if any. *)
Fixpoint rfind (c : ascii) (s : string) : option nat :=
  match s with
  | EmptyString => None
  | String d s' =>
      match rfind c s' with
      | Some i => Some (S i)
      | None => if Ascii.eqb d c then Some 0 else None
      end
  end.

(** [s.split(sep)] for a one-character [sep]. *)
Fixpoint split (sep : ascii) (s : string) : list string :=
  match s with
  | EmptyString => [EmptyString]
  | String c s' =>
      if Ascii.eqb c sep then EmptyString :: split sep s'
      else match split sep s' with
           | [] => [String c EmptyString]
           | w :: ws => String c w :: ws
           end
  end.

End Str.

(* ================================================================== *)
(** ** Python values, truthiness and exceptions *)

(** The value of a name field: a [str] or [None]. *)
Inductive PyValue : Type :=
| PyNone
| PyStr (s : string).

Coercion PyStr : string >-> PyValue.

(** [bool(v)] *)
Definition truthy (v : PyValue) : bool :=
  match v with
  | PyNone => false
  | PyStr EmptyString => false
  | PyStr (String _ _) => true
  end.

(** [str(v)], also what an f-string substitutes for [{v}]. *)
Definition py_str (v : PyValue) : string :=
  match v with
  | PyNone => "None"
  | PyStr s => s
  end.

Inductive PyExc : Type :=
| KeyError (key : string).

Inductive PyResult (A : Type) : Type :=
| Ok (a : A)
| Raise (e : PyExc).

Arguments Ok {A} a.
Arguments Raise {A} e.

Definition bind {A B : Type} (m : PyResult A) (k : A -> PyResult B)
  : PyResult B :=
  match m with
  | Ok a => k a
  | Raise e => Raise e
  end.

Notation "x <- m ;; k" := (bind m (fun x => k))
  (at level 61, m at next level, right associativity).

(* ================================================================== *)
(** ** normalize_name *)

Definition normalize_name (name : PyValue) : string :=
  if negb (truthy name) then ""
  else
    (* Convert to lowercase and remove special characters *)
    let normalized :=
      Str.re_sub_class Chr.class_special "" (Str.lower (py_str name)) in
    (* Replace multiple spaces/dashes with single space *)
    let normalized :=
      Str.strip (Str.re_sub_class_plus Chr.class_separator " " normalized) in
    normalized.

(* ================================================================== *)
(** ** pathlib: [Path(photo_name).stem] (POSIX flavour) *)

(** [Path(p).name]: the last component of the path, where empty components
    and [.] components are dropped by the parser; [''] when none is left. *)
Definition path_name (p : string) : string :=
  last
    (filter (fun part =>
               negb (String.eqb part "") && negb (String.eqb part "."))
            (Str.split "/" p))
    "".

(** [Path(p).stem]: the name without its last suffix; a leading or a
    trailing dot does not start a suffix. *)
Definition path_stem (p : string) : string :=
  let name := path_name p in
  match Str.rfind "." name with
  | Some i =>
      if (0 <? i)%nat && (i <? String.length name - 1)%nat
      then String.substring 0 i name
      else name
  | None => name
  end.

(* ================================================================== *)
(** ** Python sets of strings *)

Definition PySet : Type := list string.

Definition set_empty : PySet := [].

(** [x in s] *)
Definition set_mem (x : string) (s : PySet) : bool :=
  existsb (String.eqb x) s.

(** [s.add(x)] *)
Definition set_add (x : string) (s : PySet) : PySet :=
  if set_mem x s then s else (s ++ [x])%list.

(** A run of [s.add(x)] statements, in program order. *)
Definition set_add_all (xs : list string) (s : PySet) : PySet :=
  fold_left (fun acc x => set_add x acc) xs s.

(** The order in which [for x in s] visits a set: some arrangement of its
    elements, chosen by the runtime. *)
Record SetOrder : Type := {
  set_iter : PySet -> list string;
  set_iter_perm : forall s, Permutation (set_iter s) s
}.

(** Two concrete iteration orders. *)
Definition insertion_order : SetOrder :=
  {| set_iter := fun s => s; set_iter_perm := @Permutation_refl string |}.

Definition reverse_order : SetOrder :=
  {| set_iter := @rev string;
     set_iter_perm := fun s => Permutation_sym (Permutation_rev s) |}.

(* ================================================================== *)
(** ** Roster rows and name variations *)

Record Player : Type := {
  student_id : PyValue;
  first_name : PyValue;
  last_name : PyValue;
  full_name : PyValue;
  parent1_first : PyValue;
  parent1_last : PyValue;
  parent2_first : PyValue;
  parent2_last : PyValue
}.

(** The variations added for one parent. *)
Definition add_parent_variations (variations : PySet)
    (parent : PyValue * PyValue) : PySet :=
  let '(parent_first, parent_last) := parent in
  if truthy parent_first && truthy parent_last then
    set_add_all
      [ py_str parent_first ++ " " ++ py_str parent_last;
        py_str parent_first ++ "_" ++ py_str parent_last;
        py_str parent_last ++ "_" ++ py_str parent_first;
        py_str parent_first;
        py_str parent_last ]
      variations
  else variations.

(** The loop that normalizes the raw variations and drops the empty ones. *)
Definition add_normalized (normalized_variations : PySet) (var : string)
  : PySet :=
  let normalized := normalize_name var in
  if truthy normalized then set_add normalized normalized_variations
  else normalized_variations.

(** The set [variations] that the first part of [generate_name_variations]
    fills, before normalization. *)
Definition raw_name_variations (player : Player) : PySet :=
  let variations := set_empty in
  let first := first_name player in
  let last := last_name player in
  let full := full_name player in
  let variations :=
    if truthy first && truthy last then
      set_add_all
        [ (* Basic combinations *)
          py_str first ++ " " ++ py_str last;
          py_str last ++ " " ++ py_str first;
          py_str first ++ "_" ++ py_str last;
          py_str last ++ "_" ++ py_str first;
          py_str first ++ "." ++ py_str last;
          py_str last ++ "." ++ py_str first;
          py_str first ++ "-" ++ py_str last;
          py_str last ++ "-" ++ py_str first;
          (* Just first name *)
          py_str first;
          (* Just last name *)
          py_str last ]
        variations
    else variations in
  (* Full name variations *)
  let variations :=
    if truthy full then
      set_add_all
        [ py_str full;
          Str.replace " " "_" (py_str full);
          Str.replace " " "." (py_str full);
          Str.replace " " "-" (py_str full) ]
        variations
    else variations in
  (* Parent name variations *)
  fold_left add_parent_variations
    [ (parent1_first player, parent1_last player);
      (parent2_first player, parent2_last player) ]
    variations.

Definition generate_name_variations (o : SetOrder) (player : Player)
  : PySet :=
  let variations := raw_name_variations player in
  (* Remove empty strings and normalize *)
  fold_left add_normalized (set_iter o variations) set_empty.

(* ================================================================== *)
(** ** match_photo_to_player *)

Record Match : Type := {
  player : Player;
  confidence : string;
  match_type : string;
  matched_variation : string
}.

(** The inner loop [for variation in player_variations] with its [break]:
    [variations] is what is left to visit and [matches] the list so far. *)
Fixpoint partial_match_loop (normalized_filename : string) (p : Player)
    (variations : list string) (matches : list Match) : list Match :=
  match variations with
  | [] => matches
  | variation :: rest =>
      (* Avoid matching very short names *)
      if (2 <? String.length variation)%nat then
        if Str.contains normalized_filename variation
           || Str.contains variation normalized_filename
        then
          (matches ++ [ {| player := p;
                           confidence := "medium";
                           match_type := "partial";
                           matched_variation := variation |} ])%list
        else partial_match_loop normalized_filename p rest matches
      else partial_match_loop normalized_filename p rest matches
  end.

(** One turn of the loop [for player in players]. *)
Definition match_player_step (o : SetOrder) (normalized_filename : string)
    (matches : list Match) (p : Player) : list Match :=
  let player_variations := generate_name_variations o p in
  (* Check for exact matches *)
  if set_mem normalized_filename player_variations then
    (matches ++ [ {| player := p;
                     confidence := "high";
                     match_type := "exact";
                     matched_variation := normalized_filename |} ])%list
  else
    (* Check for partial matches *)
    partial_match_loop normalized_filename p
      (set_iter o player_variations) matches.

(** The list [matches] when the loop over the roster ends, before sorting. *)
Definition collect_matches (o : SetOrder) (normalized_filename : string)
    (players : list Player) : list Match :=
  fold_left (match_player_step o normalized_filename) players [].

Definition confidence_order : list (string * nat) :=
  [ ("high", 3); ("medium", 2); ("low", 1) ].

(** [d[k]] *)
Fixpoint dict_get {V : Type} (d : list (string * V)) (k : string)
  : PyResult V :=
  match d with
  | [] => Raise (KeyError k)
  | (k', v) :: d' => if String.eqb k k' then Ok v else dict_get d' k
  end.

(** The key function of the sort:
    [lambda x: confidence_order[x['confidence']]]. *)
Definition confidence_key (x : Match) : PyResult nat :=
  dict_get confidence_order (confidence x).

(** The keys of all elements, computed before any element moves; the first
    failing call aborts the sort. *)
Fixpoint sort_keys {A : Type} (key : A -> PyResult nat) (l : list A)
  : PyResult (list (nat * A)) :=
  match l with
  | [] => Ok []
  | x :: l' =>
      k <- key x ;;
      ks <- sort_keys key l' ;;
      Ok ((k, x) :: ks)
  end.

(** Insertion of an element that stood before all of [l]: it passes the
    elements with a strictly greater key and stops before an equal one. *)
Fixpoint insert_desc {A : Type} (kx : nat * A) (l : list (nat * A))
  : list (nat * A) :=
  match l with
  | [] => [kx]
  | ky :: l' =>
      if (fst kx <? fst ky)%nat then ky :: insert_desc kx l' else kx :: l
  end.

(** [l.sort(key=key, reverse=True)].  The language guarantees that the sort
    is stable, also with [reverse=True]: elements with equal keys keep their
    original order.  A stable sort is determined by that guarantee, so it is
    written here as the insertion sort by decreasing key. *)
Definition list_sort_reverse {A : Type} (key : A -> PyResult nat)
    (l : list A) : PyResult (list A) :=
  ks <- sort_keys key l ;;
  Ok (map snd (fold_right insert_desc [] ks)).

Definition match_photo_to_player (o : SetOrder) (photo_name : string)
    (players : list Player) : PyResult (list Match) :=
  (* Remove file extension and normalize filename *)
  let base_name := path_stem photo_name in
  let normalized_filename := normalize_name base_name in
  let matches := collect_matches o normalized_filename players in
  (* Sort by confidence and return best matches *)
  list_sort_reverse confidence_key matches.

(* ================================================================== *)
(** ** create_photo_mappings (app.py) *)

Module Photo.
Record t : Type := {
  id : string;
  name : string;
  thumbnailLink : string;
  directLink : string
}.
End Photo.

Module Mapping.
Record t : Type := {
  photo_id : string;
  filename : string;
  thumbnail_url : string;
  direct_link : string;
  matched_player : PyValue;
  confidence : string;
  match_type : string;
  matched_variation : string;
  student_id : PyValue;
  alternative_matches : list string
}.
End Mapping.

(** [l[start:stop]] for non-negative bounds. *)
Definition py_slice {A : Type} (start stop : nat) (l : list A) : list A :=
  firstn (stop - start) (skipn start l).

(** [f"{m['player']['full_name']} ({m['confidence']})"] *)
Definition alternative_label (m : Match) : string :=
  py_str (full_name (player m)) ++ " (" ++ confidence m ++ ")".

(** The dictionary built for one photo from its match result. *)
Definition photo_mapping (photo : Photo.t) (matches : list Match)
  : Mapping.t :=
  match matches with
  | best_match :: _ =>
      (* Take the best match *)
      {| Mapping.photo_id := Photo.id photo;
         Mapping.filename := Photo.name photo;
         Mapping.thumbnail_url := Photo.thumbnailLink photo;
         Mapping.direct_link := Photo.directLink photo;
         Mapping.matched_player := full_name (player best_match);
         Mapping.confidence := confidence best_match;
         Mapping.match_type := match_type best_match;
         Mapping.matched_variation := matched_variation best_match;
         Mapping.student_id := student_id (player best_match);
         Mapping.alternative_matches :=
           if (1 <? List.length matches)%nat
           then map alternative_label (py_slice 1 3 matches)
           else [] |}
  | [] =>
      (* No match found *)
      {| Mapping.photo_id := Photo.id photo;
         Mapping.filename := Photo.name photo;
         Mapping.thumbnail_url := Photo.thumbnailLink photo;
         Mapping.direct_link := Photo.directLink photo;
         Mapping.matched_player := "";
         Mapping.confidence := "medium";
         Mapping.match_type := "no_match";
         Mapping.matched_variation := "";
         Mapping.student_id := "";
         Mapping.alternative_matches := [] |}
  end.

(** One turn of the loop [for photo in photos]. *)
Definition create_mapping_step (o : SetOrder) (players : list Player)
    (acc : PyResult (list Mapping.t)) (photo : Photo.t)
  : PyResult (list Mapping.t) :=
  mappings <- acc ;;
  matches <- match_photo_to_player o (Photo.name photo) players ;;
  Ok (mappings ++ [photo_mapping photo matches])%list.

Definition create_photo_mappings (o : SetOrder) (photos : list Photo.t)
    (players : list Player) : PyResult (list Mapping.t) :=
  fold_left (create_mapping_step o players) photos (Ok []).

(* ================================================================== *)
(** ** Vocabulary of the statements *)

(** Every character of [s] satisfies [P]. *)
Fixpoint all_chars (P : ascii -> Prop) (s : string) : Prop :=
  match s with
  | EmptyString => True
  | String c s' => P c /\ all_chars P s'
  end.

(** The characters of [s] that satisfy [keep], in order. *)
Fixpoint str_filter (keep : ascii -> bool) (s : string) : string :=
  match s with
  | EmptyString => EmptyString
  | String c s' =>
      if keep c then String c (str_filter keep s') else str_filter keep s'
  end.

Definition extend_token (c : ascii) (ws : list string) : list string :=
  match ws with
  | w :: ws' => String c w :: ws'
  | [] => [String c EmptyString]
  end.

(** The maximal non-empty runs of characters of [s] outside [sep]. *)
Fixpoint tokens (sep : ascii -> bool) (s : string) : list string :=
  match s with
  | EmptyString => []
  | String c s' =>
      if sep c then tokens sep s'
      else
        match s' with
        | EmptyString => [String c EmptyString]
        | String d _ =>
            if sep d then String c EmptyString :: tokens sep s'
            else extend_token c (tokens sep s')
        end
  end.

(** Letters and digits: the word characters other than the underscore. *)
Definition is_alnum (c : ascii) : bool :=
  Chr.is_word c && negb (Ascii.eqb c "_").

(** The characters that survive normalization: letters, digits, the
    underscore, whitespace and the hyphen. *)
Definition is_kept (c : ascii) : bool :=
  is_alnum c || Ascii.eqb c "_" || Chr.is_space c || Ascii.eqb c "-".

(** The normalizer described in words: lower-case the input, keep the
    characters of [is_kept], cut the rest at whitespace and hyphens, and join
    the pieces with one space.  This definition is written from the
    description, not from the code; [normalize_name] is compared with it. *)
Definition normalize_described (s : string) : string :=
  String.concat " "
    (tokens Chr.class_separator (str_filter is_kept (Str.lower s))).

(** The two kinds of candidate the matcher builds. *)
Definition exact_match (p : Player) (normalized_filename : string) : Match :=
  {| player := p;
     confidence := "high";
     match_type := "exact";
     matched_variation := normalized_filename |}.

Definition partial_match (p : Player) (variation : string) : Match :=
  {| player := p;
     confidence := "medium";
     match_type := "partial";
     matched_variation := variation |}.

(** The test of the inner loop: long enough, and contained in the
    normalized filename or containing it. *)
Definition qualifies (normalized_filename variation : string) : bool :=
  (2 <? String.length variation)%nat
  && (Str.contains normalized_filename variation
      || Str.contains variation normalized_filename).

(** What one roster row appends to [matches]: its turn of the loop run on
    the empty list. *)
Definition player_matches (o : SetOrder) (normalized_filename : string)
    (p : Player) : list Match :=
  match_player_step o normalized_filename [] p.

Definition has_confidence (c : string) (m : Match) : bool :=
  String.eqb (confidence m) c.

(** The sort key of a candidate as a number ([0] when the lookup fails). *)
Definition rank (m : Match) : nat :=
  match confidence_key m with
  | Ok k => k
  | Raise _ => 0
  end.

(** Order and selection on the decorated elements of the sort. *)
Definition key_ge {A : Type} (a b : nat * A) : Prop := fst b <= fst a.

Definition key_is {A : Type} (n : nat) (kx : nat * A) : bool :=
  Nat.eqb (fst kx) n.

(** [l1] is obtained from [l2] by deleting elements. *)
Inductive Subseq {A : Type} : list A -> list A -> Prop :=
| Subseq_nil : Subseq [] []
| Subseq_skip x l1 l2 : Subseq l1 l2 -> Subseq l1 (x :: l2)
| Subseq_take x l1 l2 : Subseq l1 l2 -> Subseq (x :: l1) (x :: l2).

(** The roster rows of the worked scenarios: Jane Doe, with or without a
    full name, and rows with nothing to match on. *)
Definition jane_doe (sid full : PyValue) : Player :=
  {| student_id := sid;
     first_name := "Jane";
     last_name := "Doe";
     full_name := full;
     parent1_first := "";
     parent1_last := "";
     parent2_first := "";
     parent2_last := "" |}.


Definition only_full_name (full : string) : Player :=
  {| student_id := "";
     first_name := "";
     last_name := "";
     full_name := full;
     parent1_first := "";
     parent1_last := "";
     parent2_first := "";
     parent2_last := "" |}.

(** A row that offers nothing to match on: no full name, and no pair of
    first and last name, neither its own nor a parent's ([None] and the empty
    string both count as missing). *)
Definition unmatchable (p : Player) : bool :=
  negb (truthy (first_name p) && truthy (last_name p))
  && negb (truthy (full_name p))
  && negb (truthy (parent1_first p) && truthy (parent1_last p))
  && negb (truthy (parent2_first p) && truthy (parent2_last p)).

(** The elements a slice [l[1:3]] can hold: those at index 1 and 2. *)
Definition at_index {A : Type} (i : nat) (l : list A) : list A :=
  match nth_error l i with
  | Some x => [x]
  | None => []
  end.

(* ================================================================== *)
(** * The other functions of the two files *)

(** ** Exceptions other than [KeyError], lists and multi-character split *)

(** [HttpError] is the exception of the Drive client; [ServiceError]
    stands for whatever else a call to the Drive or Sheets service
    raises. *)
Inductive Exception : Type :=
| ValueError (message : string)
| IndexError
| AttributeError
| ZeroDivisionError
| HttpError (message : string)
| ServiceError (message : string).

(** The outcome of a call that can raise one of them. *)
Inductive Try (A : Type) : Type :=
| Return (a : A)
| Throw (e : Exception).

Arguments Return {A} a.
Arguments Throw {A} e.

Definition try_bind {A B : Type} (m : Try A) (k : A -> Try B) : Try B :=
  match m with
  | Return a => k a
  | Throw e => Throw e
  end.

Notation "'let*' x ':=' m 'in' k" := (try_bind m (fun x => k))
  (at level 10, x name, m at level 100, k at level 200).

(** [l[i]] for a non-negative [i]. *)
Definition list_index {A : Type} (l : list A) (i : nat) : Try A :=
  match nth_error l i with
  | Some x => Return x
  | None => Throw IndexError
  end.

(** The characters of [s] from position [n] on. *)
Fixpoint str_drop (n : nat) (s : string) : string :=
  match n, s with
  | 0, _ => s
  | S n', String _ s' => str_drop n' s'
  | S _, EmptyString => EmptyString
  end.

(** The first occurrence of [sep] in [s]: what stands before it and what
    stands after it, as [s.partition(sep)] finds them. *)
Fixpoint cut (sep s : string) : option (string * string) :=
  if String.prefix sep s then Some (EmptyString, str_drop (String.length sep) s)
  else
    match s with
    | EmptyString => None
    | String c s' =>
        match cut sep s' with
        | Some (before, after) => Some (String c before, after)
        | None => None
        end
    end.

Fixpoint split_fuel (fuel : nat) (sep s : string) : list string :=
  match fuel with
  | 0 => [s]
  | S fuel' =>
      match cut sep s with
      | Some (before, after) => before :: split_fuel fuel' sep after
      | None => [s]
      end
  end.

(** [s.split(sep)] for a non-empty [sep] of any length: the pieces between
    the occurrences of [sep], found from the left without overlap.  Every
    cut removes at least one character, so the length of [s] bounds their
    number. *)
Definition py_split (sep s : string) : list string :=
  split_fuel (String.length s) sep s.

(* ================================================================== *)
(** ** extract_folder_id *)

Definition extract_folder_id (drive_url : string) : Try string :=
  if Str.contains drive_url "folders/" then
    let* after_folders := list_index (py_split "folders/" drive_url) 1 in
    let* before_query := list_index (Str.split "?" after_folders) 0 in
    list_index (Str.split "&" before_query) 0
  else if Str.contains drive_url "/open?id=" then
    let* after_id := list_index (py_split "id=" drive_url) 1 in
    list_index (Str.split "&" after_id) 0
  else
    Throw (ValueError
             ("Could not extract folder ID from URL: " ++ drive_url)).

Definition GOOGLE_DRIVE_URL : string :=
  "https://drive.google.com/drive/folders/1ojyCLPVl_kzpZW8MOkY3wmDG2XQdLcUOAumoNNtjo19KaYkGRdbU_PGLAzufBiAHz_ATafR6?usp=drive_link".

(* ================================================================== *)
(** ** load_roster_from_sheets (app.py) *)

(** [row[i] if len(row) > i else ''] *)
Definition cell_or_empty (row : list string) (i : nat) : Try string :=
  if (i <? List.length row)%nat then list_index row i else Return "".

(** The dictionary [player_info] built from one row of the sheet. *)
Definition player_info_of_row (row : list string) : Try Player :=
  let* sid := cell_or_empty row 1 in
  let* first := cell_or_empty row 2 in
  let* last := cell_or_empty row 3 in
  let* full := cell_or_empty row 4 in
  let* p1_first := cell_or_empty row 18 in
  let* p1_last := cell_or_empty row 19 in
  let* p2_first := cell_or_empty row 22 in
  let* p2_last := cell_or_empty row 23 in
  Return {| student_id := PyStr sid;
            first_name := PyStr first;
            last_name := PyStr last;
            full_name := PyStr full;
            parent1_first := PyStr p1_first;
            parent1_last := PyStr p1_last;
            parent2_first := PyStr p2_first;
            parent2_last := PyStr p2_last |}.

(** One turn of the loop [for row in data_rows]. *)
Definition roster_row_step (players : list Player) (row : list string)
  : Try (list Player) :=
  (* if len(row) > 0 and row[1]: *)
  let* has_id :=
    (if (0 <? List.length row)%nat
     then let* c := list_index row 1 in Return (truthy (PyStr c))
     else Return false) in
  if has_id then
    match player_info_of_row row with                  (* try: *)
    | Return player_info =>
        (* Skip empty rows *)
        if truthy (first_name player_info) && truthy (last_name player_info)
        then Return (players ++ [player_info])%list
        else Return players
    | Throw IndexError => Return players       (* except IndexError: *)
    | Throw e => Throw e
    end
  else Return players.

(** [load_roster_from_sheets], from the value of
    [roster_sheet.get_all_values()] on. *)
Definition load_roster_from_sheets (all_values : list (list string))
  : Try (list Player) :=
  (* Find header row (should be row 1, index 0) *)
  let* headers := list_index all_values 0 in
  (* Get data starting from row 7 (index 6) to skip metadata *)
  let data_rows := skipn 6 all_values in
  fold_left
    (fun acc row => let* players := acc in roster_row_step players row)
    data_rows (Return []).

(** The player a row stands for, and the rows that are kept: those with a
    non-empty cell in the columns 1, 2 and 3. *)
Definition row_player (row : list string) : Player :=
  {| student_id := PyStr (nth 1 row "");
     first_name := PyStr (nth 2 row "");
     last_name := PyStr (nth 3 row "");
     full_name := PyStr (nth 4 row "");
     parent1_first := PyStr (nth 18 row "");
     parent1_last := PyStr (nth 19 row "");
     parent2_first := PyStr (nth 22 row "");
     parent2_last := PyStr (nth 23 row "") |}.

Definition row_kept (row : list string) : bool :=
  truthy (PyStr (nth 1 row "")) && truthy (PyStr (nth 2 row ""))
  && truthy (PyStr (nth 3 row "")).

Definition one_cell (row : list string) : bool :=
  Nat.eqb (List.length row) 1.

(* ================================================================== *)
(** ** The HTTP handlers of app.py *)

(** The text of an error body: a literal of the source, or [str(e)] for the
    exception caught, which is kept as it is rather than spelled out. *)
Inductive ErrorText : Type :=
| Message (text : string)
| StrOf (e : Exception)
| StrOfKeyError (e : PyExc).

(** What a handler returns: [jsonify(body)] (status 200), or
    [jsonify({'error': ...}), status]. *)
Inductive Response (A : Type) : Type :=
| Json (body : A)
| JsonError (error : ErrorText) (status : nat).

Arguments Json {A} body.
Arguments JsonError {A} error status.

(** What [load_data] obtains from the Drive and Sheets services.  Each
    call can raise; [get_all_values] stands for the three calls that end in
    [roster_sheet.get_all_values()]. *)
Record Services : Type := {
  authenticate_drive : Try unit;
  authenticate_sheets : Try unit;
  get_photos_from_folder : string -> Try (list Photo.t);
  get_all_values : Try (list (list string))
}.

Module LoadData.

Record roster_entry : Type := {
  full_name : PyValue;
  first_name : PyValue;
  last_name : PyValue;
  student_id : PyValue
}.

Record stats : Type := {
  total_photos : nat;
  total_players : nat;
  high_confidence_matches : nat;
  medium_confidence_matches : nat
}.

Record response_data : Type := {
  mappings : list Mapping.t;
  roster : list roster_entry;
  stats_of : stats
}.

End LoadData.

(** [len([m for m in mappings if m['confidence'] == c])] *)
Definition count_confidence (c : string) (mappings : list Mapping.t) : nat :=
  List.length (filter (fun m => String.eqb (Mapping.confidence m) c) mappings).

Definition roster_for_frontend (players : list Player)
  : list LoadData.roster_entry :=
  map (fun player =>
         {| LoadData.full_name := full_name player;
            LoadData.first_name := first_name player;
            LoadData.last_name := last_name player;
            LoadData.student_id := student_id player |})
      players.

(** The body of the [try] block of [load_data], up to the first
    exception. *)
Definition load_data_attempt (o : SetOrder) (services : Services)
  : Try (PyResult (Response LoadData.response_data)) :=
  (* Authenticate with Google APIs *)
  let* drive_service := authenticate_drive services in
  let* sheets_client := authenticate_sheets services in
  (* Get photos from Google Drive *)
  let* folder_id := extract_folder_id GOOGLE_DRIVE_URL in
  let* photos := get_photos_from_folder services folder_id in
  match photos with
  | [] =>
      Return (Ok (JsonError
                    (Message "No photos found in the Google Drive folder")
                    404))
  | _ :: _ =>
      (* Load roster from Google Sheets *)
      let* all_values := get_all_values services in
      let* players := load_roster_from_sheets all_values in
      match players with
      | [] =>
          Return (Ok (JsonError
                        (Message "No players found in the roster sheet")
                        404))
      | _ :: _ =>
          (* Create mappings using existing algorithm *)
          Return
            (mappings <- create_photo_mappings o photos players ;;
             Ok (Json
                   {| LoadData.mappings := mappings;
                      LoadData.roster := roster_for_frontend players;
                      LoadData.stats_of :=
                        {| LoadData.total_photos := List.length photos;
                           LoadData.total_players := List.length players;
                           LoadData.high_confidence_matches :=
                             count_confidence "high" mappings;
                           LoadData.medium_confidence_matches :=
                             count_confidence "medium" mappings |} |}))
      end
  end.

(** [load_data]: the [try] block, and [except Exception as e] which turns
    any exception into a status 500. *)
Definition load_data (o : SetOrder) (services : Services)
  : Response LoadData.response_data :=
  match load_data_attempt o services with
  | Return (Ok response) => response
  | Return (Raise e) => JsonError (StrOfKeyError e) 500
  | Throw e => JsonError (StrOf e) 500
  end.

(** Services that answer: the folder holds [photos] and the sheet
    [all_values]. *)
Definition answering (photos : list Photo.t)
    (all_values : list (list string)) : Services :=
  {| authenticate_drive := Return tt;
     authenticate_sheets := Return tt;
     get_photos_from_folder := fun _ => Return photos;
     get_all_values := Return all_values |}.

(** The match result of a photo name, the empty list standing for an
    exception. *)
Definition matches_of (o : SetOrder) (players : list Player)
    (photo_name : string) : list Match :=
  match match_photo_to_player o photo_name players with
  | Ok matches => matches
  | Raise _ => []
  end.

(* ================================================================== *)
(** ** create_photo_mapping and save_results (photo_player_mapping.py) *)

(** The dictionary that [get_photos_from_folder] builds for a file. *)
Module DrivePhoto.
Record t : Type := {
  id : string;
  name : string;
  mimeType : string;
  webViewLink : string;
  webContentLink : string;
  thumbnailLink : string;
  directLink : string
}.
End DrivePhoto.

(** The mapping that the script builds for a matched photo. *)
Module PhotoMapping.
Record t : Type := {
  photo_filename : string;
  photo_id : string;
  direct_link : string;
  web_view_link : string;
  thumbnail_link : string;
  matched_player_name : PyValue;
  matched_first_name : PyValue;
  matched_last_name : PyValue;
  student_id : PyValue;
  confidence : string;
  match_type : string;
  matched_variation : string;
  alternative_matches : list string
}.
End PhotoMapping.

(** The dictionary [mapping] built for a photo from its best match. *)
Definition matched_mapping (photo : DrivePhoto.t) (best_match : Match)
    (matches : list Match) : PhotoMapping.t :=
  {| PhotoMapping.photo_filename := DrivePhoto.name photo;
     PhotoMapping.photo_id := DrivePhoto.id photo;
     PhotoMapping.direct_link := DrivePhoto.directLink photo;
     PhotoMapping.web_view_link := DrivePhoto.webViewLink photo;
     PhotoMapping.thumbnail_link := DrivePhoto.thumbnailLink photo;
     PhotoMapping.matched_player_name := full_name (player best_match);
     PhotoMapping.matched_first_name := first_name (player best_match);
     PhotoMapping.matched_last_name := last_name (player best_match);
     PhotoMapping.student_id := student_id (player best_match);
     PhotoMapping.confidence := confidence best_match;
     PhotoMapping.match_type := match_type best_match;
     PhotoMapping.matched_variation := matched_variation best_match;
     PhotoMapping.alternative_matches :=
       if (1 <? List.length matches)%nat
       then map alternative_label (py_slice 1 3 matches)
       else [] |}.

(** One turn of the loop [for photo in photos]; the state is the pair of
    lists [mappings] and [unmatched_photos]. *)
Definition create_photo_mapping_step (o : SetOrder) (players : list Player)
    (acc : PyResult (list PhotoMapping.t * list DrivePhoto.t))
    (photo : DrivePhoto.t)
  : PyResult (list PhotoMapping.t * list DrivePhoto.t) :=
  state <- acc ;;
  let '(mappings, unmatched_photos) := state in
  matches <- match_photo_to_player o (DrivePhoto.name photo) players ;;
  match matches with
  | best_match :: _ =>
      (* Take the best match *)
      Ok ((mappings ++ [matched_mapping photo best_match matches])%list,
          unmatched_photos)
  | [] => Ok (mappings, (unmatched_photos ++ [photo])%list)
  end.

Definition create_photo_mapping (o : SetOrder) (photos : list DrivePhoto.t)
    (players : list Player)
  : PyResult (list PhotoMapping.t * list DrivePhoto.t) :=
  fold_left (create_photo_mapping_step o players) photos (Ok ([], [])).

Module Summary.
Record t : Type := {
  total_photos : nat;
  matched_photos : nat;
  unmatched_photos : nat;
  total_players : nat;
  matched_players : nat;
  high_confidence_matches : nat;
  medium_confidence_matches : nat
}.
End Summary.

(** [set(m['student_id'] for m in mappings if m['student_id'])] *)
Definition matched_student_ids (mappings : list PhotoMapping.t) : PySet :=
  set_add_all
    (map (fun m => py_str (PhotoMapping.student_id m))
         (filter (fun m => truthy (PhotoMapping.student_id m)) mappings))
    set_empty.

Definition count_mapping_confidence (c : string)
    (mappings : list PhotoMapping.t) : nat :=
  List.length
    (filter (fun m => String.eqb (PhotoMapping.confidence m) c) mappings).

(** [save_results]: the summary it writes (the timestamp left out), or the
    exception of the percentage it prints afterwards.  The files it writes
    are not modelled. *)
Definition save_results (mappings : list PhotoMapping.t)
    (unmatched_photos : list DrivePhoto.t) (players : list Player)
  : Try Summary.t :=
  let summary :=
    {| Summary.total_photos :=
         List.length mappings + List.length unmatched_photos;
       Summary.matched_photos := List.length mappings;
       Summary.unmatched_photos := List.length unmatched_photos;
       Summary.total_players := List.length players;
       Summary.matched_players := List.length (matched_student_ids mappings);
       Summary.high_confidence_matches :=
         count_mapping_confidence "high" mappings;
       Summary.medium_confidence_matches :=
         count_mapping_confidence "medium" mappings |} in
  (* summary['matched_photos']/summary['total_photos']*100 *)
  if Nat.eqb (Summary.total_photos summary) 0 then Throw ZeroDivisionError
  else Return summary.




Definition has_match (o : SetOrder) (players : list Player)
    (photo_name : string) : bool :=
  match matches_of o players photo_name with
  | [] => false
  | _ :: _ => true
  end.

(** The mapping of a photo that has a match, the photos that have one and
    those that have none. *)
Definition mapping_of_photo (o : SetOrder) (players : list Player)
    (photo : DrivePhoto.t) : list PhotoMapping.t :=
  match matches_of o players (DrivePhoto.name photo) with
  | best_match :: rest => [matched_mapping photo best_match (best_match :: rest)]
  | [] => []
  end.

Definition is_matched (o : SetOrder) (players : list Player)
    (photo : DrivePhoto.t) : bool :=
  has_match o players (DrivePhoto.name photo).


(* ================================================================== *)
(** ** export_csv (app.py) *)

(** A JSON object of the request, its values being strings or [null]. *)
Definition JsonObject : Type := list (string * PyValue).

(** [d.get(key, default)] *)
Fixpoint dict_get_default (d : JsonObject) (key : string)
    (default : PyValue) : PyValue :=
  match d with
  | [] => default
  | (k, v) :: d' =>
      if String.eqb key k then v else dict_get_default d' key default
  end.

(** [v.strip()], which [None] does not have. *)
Definition py_strip (v : PyValue) : Try string :=
  match v with
  | PyStr s => Return (Str.strip s)
  | PyNone => Throw AttributeError
  end.

Definition csv_header : list PyValue :=
  [ PyStr "PlayerName"; PyStr "DriveId"; PyStr "Filename";
    PyStr "GoogleDriveLink"; PyStr "DirectImageLink";
    PyStr "ThumbnailLink" ].

(** The row appended for a mapping whose player name is [player_name]. *)
Definition csv_row (mapping : JsonObject) (player_name : string)
  : list PyValue :=
  let drive_id := dict_get_default mapping "driveId" "" in
  let drive_view_link :=
    "https://drive.google.com/file/d/" ++ py_str drive_id ++ "/view" in
  let direct_image_link :=
    "https://drive.google.com/uc?id=" ++ py_str drive_id in
  [ PyStr player_name;
    drive_id;
    dict_get_default mapping "filename" "";
    PyStr drive_view_link;
    PyStr direct_image_link;
    dict_get_default mapping "thumbnailUrl" "" ].

(** One turn of the loop [for mapping in mappings]. *)
Definition export_csv_step (acc : Try (list (list PyValue)))
    (mapping : JsonObject) : Try (list (list PyValue)) :=
  let* csv_rows := acc in
  let* player_name := py_strip (dict_get_default mapping "playerName" "") in
  if truthy (PyStr player_name)
  then Return (csv_rows ++ [csv_row mapping player_name])%list
  else Return csv_rows.

Module CsvExport.
Record t : Type := {
  csvData : list (list PyValue);
  totalMappings : nat
}.
End CsvExport.

(** [export_csv], from the value of [data.get('mappings', [])] on. *)
Definition export_csv (mappings : list JsonObject) : Response CsvExport.t :=
  match mappings with
  | [] => JsonError (Message "No mappings provided") 400
  | _ :: _ =>
      (* Create CSV data *)
      match fold_left export_csv_step mappings (Return [csv_header]) with
      | Return csv_rows =>
          Json {| CsvExport.csvData := csv_rows;
                  (* Subtract header row *)
                  CsvExport.totalMappings := List.length csv_rows - 1 |}
      | Throw e => JsonError (StrOf e) 500
      end
  end.

(** The player name of a mapping once stripped (the empty string when the
    name is [null]), the mappings whose name is [null] and those that give
    a row. *)
Definition stripped_name (mapping : JsonObject) : string :=
  match dict_get_default mapping "playerName" "" with
  | PyStr s => Str.strip s
  | PyNone => ""
  end.

Definition null_name (mapping : JsonObject) : bool :=
  match dict_get_default mapping "playerName" "" with
  | PyStr _ => false
  | PyNone => true
  end.

Definition named (mapping : JsonObject) : bool :=
  truthy (PyStr (stripped_name mapping)).

(* ================================================================== *)
(** ** Vocabulary for the best match *)

(** The roster rows that match a normalized filename exactly, and those
    that have a variation qualifying for a partial match. *)
Definition exact_row (o : SetOrder) (normalized_filename : string)
    (p : Player) : bool :=
  set_mem normalized_filename (generate_name_variations o p).

Definition partial_row (o : SetOrder) (normalized_filename : string)
    (p : Player) : bool :=
  existsb (qualifies normalized_filename) (generate_name_variations o p).

(* ================================================================== *)
(** ** rename_files (app.py) *)

(** [Path(p).suffix]: the last suffix of the name, with its dot; a leading
    or a trailing dot does not start a suffix. *)
Definition path_suffix (p : string) : string :=
  let name := path_name p in
  match Str.rfind "." name with
  | Some i =>
      if (0 <? i)%nat && (i <? String.length name - 1)%nat
      then str_drop i name
      else ""
  | None => ""
  end.

(** The requests that [rename_files] sends to the Drive service. *)
Inductive DriveCall : Type :=
| FilesList (query : string)
| FilesGet (file_id : PyValue)
| FilesCopy (file_id : PyValue) (name : string)
| FilesDelete (file_id : PyValue).

(** The Drive service: what [execute()] returns for a request, given the
    requests made before it, or the exception it raises.  The answers are
    those of the Drive API: the answer to a list request has its ['files'],
    and the answer to a copy its ['id'], which is the value kept here. *)
Definition Drive : Type := list DriveCall -> DriveCall -> Try string.

(** The text of a result: a literal of the source, or a literal followed
    by [str(e)]. *)
Inductive ResultMessage : Type :=
| Literal (text : string)
| WithError (text : string) (e : Exception).

Module RenameResult.
Record t : Type := {
  photo_id : PyValue;
  status : string;
  message : option ResultMessage;
  old_name : option PyValue;
  new_name : option string
}.
End RenameResult.

(** The result of an operation that failed in the Drive service:
    [except HttpError] comes before [except Exception]. *)
Definition drive_failure (photo_id : PyValue) (e : Exception)
  : RenameResult.t :=
  {| RenameResult.photo_id := photo_id;
     RenameResult.status := "error";
     RenameResult.message :=
       Some match e with
            | HttpError _ => WithError "Drive API error: " e
            | _ => WithError "Unexpected error: " e
            end;
     RenameResult.old_name := None;
     RenameResult.new_name := None |}.

(** One turn of the loop [for rename_op in renames]: the result appended
    to [results] and the requests sent, [log] being those sent so far. *)
Definition rename_one (drive : Drive) (log : list DriveCall)
    (rename_op : JsonObject) : RenameResult.t * list DriveCall :=
  let photo_id := dict_get_default rename_op "photo_id" PyNone in
  let current_name := dict_get_default rename_op "current_name" PyNone in
  let new_name := dict_get_default rename_op "new_name" PyNone in
  if negb (truthy photo_id && truthy current_name && truthy new_name) then
    ({| RenameResult.photo_id := photo_id;
        RenameResult.status := "error";
        RenameResult.message := Some (Literal "Missing required fields");
        RenameResult.old_name := None;
        RenameResult.new_name := None |}, log)
  else
    (* Skip if names are the same *)
    let current_stem := path_stem (py_str current_name) in
    if String.eqb (Str.lower current_stem) (Str.lower (py_str new_name)) then
      ({| RenameResult.photo_id := photo_id;
          RenameResult.status := "skipped";
          RenameResult.message := Some (Literal "Names are already the same");
          RenameResult.old_name := None;
          RenameResult.new_name := None |}, log)
    else
      (* Get file extension *)
      let file_extension := path_suffix (py_str current_name) in
      let new_filename := py_str new_name ++ file_extension in
      (* First, get the original file metadata *)
      match drive log (FilesGet photo_id) with
      | Throw e => (drive_failure photo_id e, log ++ [FilesGet photo_id])%list
      | Return original_file =>
          let log := (log ++ [FilesGet photo_id])%list in
          (* Copy the file with the new name *)
          match drive log (FilesCopy photo_id new_filename) with
          | Throw e =>
              (drive_failure photo_id e,
               log ++ [FilesCopy photo_id new_filename])%list
          | Return copied_file_id =>
              let log := (log ++ [FilesCopy photo_id new_filename])%list in
              (* Try to delete the original file *)
              match drive log (FilesDelete photo_id) with
              | Return _ =>
                  ({| RenameResult.photo_id := PyStr copied_file_id;
                      RenameResult.status := "success";
                      RenameResult.message := None;
                      RenameResult.old_name := Some current_name;
                      RenameResult.new_name := Some new_filename |},
                   log ++ [FilesDelete photo_id])%list
              | Throw delete_error =>
                  ({| RenameResult.photo_id := PyStr copied_file_id;
                      RenameResult.status := "partial_success";
                      RenameResult.message :=
                        Some (WithError
                                "File copied with new name, but original remains: "
                                delete_error);
                      RenameResult.old_name := Some current_name;
                      RenameResult.new_name := Some new_filename |},
                   log ++ [FilesDelete photo_id])%list
              end
          end
      end.

Definition rename_step (drive : Drive)
    (state : list RenameResult.t * list DriveCall) (rename_op : JsonObject)
  : list RenameResult.t * list DriveCall :=
  let '(results, log) := state in
  let '(result, log) := rename_one drive log rename_op in
  ((results ++ [result])%list, log).

(** [len([r for r in results if r['status'] == status])] *)
Definition count_status (status : string) (results : list RenameResult.t)
  : nat :=
  List.length
    (filter (fun r => String.eqb (RenameResult.status r) status) results).

Module RenameReport.
Record t : Type := {
  results : list RenameResult.t;
  total : nat;
  successful : nat;
  skipped : nat;
  failed : nat
}.
End RenameReport.

(** The four ways [rename_files] returns: the report (status 200), and
    the errors with status 400, 403 and 500. *)
Inductive RenameResponse : Type :=
| Renamed (report : RenameReport.t)
| NoRenameGiven
| CannotAccessFiles (details : ErrorText)
| RenameFailed (error : ErrorText).

Definition rename_status (response : RenameResponse) : nat :=
  match response with
  | Renamed _ => 200
  | NoRenameGiven => 400
  | CannotAccessFiles _ => 403
  | RenameFailed _ => 500
  end.

Definition RENAME_FOLDER_QUERY : string :=
  "'1ojyCLPVl_kzpZW8MOkY3wmDG2XQdLcUOAumoNNtjo19KaYkGRdbU_PGLAzufBiAHz_ATafR6' in parents".

(** [rename_files], from the value of [data.get('renames', [])] on: the
    answer, and the requests sent to the Drive service. *)
Definition rename_files (authenticate : Try unit) (drive : Drive)
    (renames : list JsonObject) : RenameResponse * list DriveCall :=
  match renames with
  | [] => (NoRenameGiven, [])
  | first :: _ =>
      match authenticate with
      | Throw e => (RenameFailed (StrOf e), [])
      | Return drive_service =>
          (* Try to list files in folder *)
          match drive [] (FilesList RENAME_FOLDER_QUERY) with
          | Throw e =>
              (CannotAccessFiles (StrOf e), [FilesList RENAME_FOLDER_QUERY])
          | Return folder_files =>
              let log := [FilesList RENAME_FOLDER_QUERY] in
              (* Try direct file access *)
              match dict_get first "photo_id" with
              | Raise e => (CannotAccessFiles (StrOfKeyError e), log)
              | Ok test_photo_id =>
                  match drive log (FilesGet test_photo_id) with
                  | Throw e =>
                      (CannotAccessFiles (StrOf e),
                       log ++ [FilesGet test_photo_id])%list
                  | Return file_metadata =>
                      let log := (log ++ [FilesGet test_photo_id])%list in
                      let '(results, log) :=
                        fold_left (rename_step drive) renames ([], log) in
                      (Renamed
                         {| RenameReport.results := results;
                            RenameReport.total := List.length renames;
                            RenameReport.successful :=
                              count_status "success" results;
                            RenameReport.skipped :=
                              count_status "skipped" results;
                            RenameReport.failed :=
                              count_status "error" results |},
                       log)
                  end
              end
          end
      end
  end.

(** A log in which a file is deleted only by the request that follows a
    successful copy of that file. *)
Inductive SafeLog (drive : Drive) : list DriveCall -> Prop :=
| SafeLog_nil : SafeLog drive []
| SafeLog_list log query :
    SafeLog drive log -> SafeLog drive (log ++ [FilesList query])
| SafeLog_get log file_id :
    SafeLog drive log -> SafeLog drive (log ++ [FilesGet file_id])
| SafeLog_copy log file_id name :
    SafeLog drive log -> SafeLog drive (log ++ [FilesCopy file_id name])
| SafeLog_delete log file_id name new_id :
    SafeLog drive (log ++ [FilesCopy file_id name]) ->
    drive log (FilesCopy file_id name) = Return new_id ->
    SafeLog drive ((log ++ [FilesCopy file_id name]) ++ [FilesDelete file_id]).

(** The operations of a request that reach the Drive service: all three
    fields given, and a new name that differs from the current stem. *)
Definition effective (rename_op : JsonObject) : bool :=
  let photo_id := dict_get_default rename_op "photo_id" PyNone in
  let current_name := dict_get_default rename_op "current_name" PyNone in
  let new_name := dict_get_default rename_op "new_name" PyNone in
  truthy photo_id && truthy current_name && truthy new_name
  && negb (String.eqb (Str.lower (path_stem (py_str current_name)))
                      (Str.lower (py_str new_name))).

Definition is_copy (c : DriveCall) : bool :=
  match c with
  | FilesCopy _ _ => true
  | _ => false
  end.

Definition is_delete (c : DriveCall) : bool :=
  match c with
  | FilesDelete _ => true
  | _ => false
  end.

(** The file an operation names and the name its copy is given. *)
Definition rename_photo_id (rename_op : JsonObject) : PyValue :=
  dict_get_default rename_op "photo_id" PyNone.

Definition rename_new_filename (rename_op : JsonObject) : string :=
  py_str (dict_get_default rename_op "new_name" PyNone)
  ++ path_suffix (py_str (dict_get_default rename_op "current_name" PyNone)).

(** The requests that the operations of [renames] account for. *)
Definition requested_by (renames : list JsonObject) (c : DriveCall) : Prop :=
  match c with
  | FilesList _ => True
  | FilesGet _ => True
  | FilesCopy file_id name =>
      exists rename_op,
        In rename_op renames /\ effective rename_op = true /\
        file_id = rename_photo_id rename_op /\
        name = rename_new_filename rename_op
  | FilesDelete file_id =>
      exists rename_op,
        In rename_op renames /\ effective rename_op = true /\
        file_id = rename_photo_id rename_op
  end.

(* ================================================================== *)
(** ** get_photos_from_folder (app.py, photo_player_mapping.py) *)

(** Image MIME types to look for *)
Definition image_mimes : list string :=
  [ "image/jpeg"; "image/jpg"; "image/png"; "image/gif";
    "image/bmp"; "image/webp"; "image/tiff" ].

(** A file of a listing: the fields that the Drive API gives for it, which
    are strings. *)
Definition DriveFile : Type := list (string * string).

(** [file.get(key, default)] *)
Fixpoint file_get (file : DriveFile) (key default : string) : string :=
  match file with
  | [] => default
  | (k, v) :: file' =>
      if String.eqb key k then v else file_get file' key default
  end.

(** The answer to a list request: [results.get('files', [])] and
    [results.get('nextPageToken')]. *)
Module FilesPage.
Record t : Type := {
  files : list DriveFile;
  nextPageToken : PyValue
}.
End FilesPage.

(** The Drive service for list requests: what [execute()] returns for the
    query [q], given the page tokens of the requests made so far, that of
    this request being the last; or the exception it raises. *)
Definition FilesLister : Type := string -> list PyValue -> Try FilesPage.t.

(** How a call of [get_photos_from_folder] ends: it returns the photos, an
    exception of the service leaves it, a [KeyError] of a file leaves it,
    [sys.exit] ends the script, or it is still in its loop after the
    requests that the fuel allows. *)
Inductive Listing : Type :=
| Photos (photos : list DrivePhoto.t)
| ListingRaises (e : Exception)
| ListingKeyError (e : PyExc)
| ListingExit (code : nat)
| ListingRuns.

(** The dictionary appended for a file. *)
Definition photo_of_file (file : DriveFile) : PyResult DrivePhoto.t :=
  id <- dict_get file "id" ;;
  name <- dict_get file "name" ;;
  mimeType <- dict_get file "mimeType" ;;
  Ok {| DrivePhoto.id := id;
        DrivePhoto.name := name;
        DrivePhoto.mimeType := mimeType;
        DrivePhoto.webViewLink := file_get file "webViewLink" "";
        DrivePhoto.webContentLink := file_get file "webContentLink" "";
        DrivePhoto.thumbnailLink := file_get file "thumbnailLink" "";
        DrivePhoto.directLink := "https://drive.google.com/uc?id=" ++ id |}.

(** One turn of [for file in files]. *)
Definition photos_step (photos : PyResult (list DrivePhoto.t))
    (file : DriveFile) : PyResult (list DrivePhoto.t) :=
  photos <- photos ;;
  mimeType <- dict_get file "mimeType" ;;
  (* Filter for image files *)
  if existsb (String.eqb mimeType) image_mimes then
    photo <- photo_of_file file ;;
    Ok (photos ++ [photo])%list
  else Ok photos.

(** The loop [while True], [sent] being the page tokens of the requests
    made before. *)
Fixpoint get_photos_loop (fuel : nat)
    (list_files : list PyValue -> Try FilesPage.t)
    (sent : list PyValue) (page_token : PyValue)
    (photos : list DrivePhoto.t) : Listing :=
  match fuel with
  | 0 => ListingRuns
  | S fuel =>
      let sent := (sent ++ [page_token])%list in
      match list_files sent with
      | Throw e => ListingRaises e
      | Return results =>
          match fold_left photos_step (FilesPage.files results) (Ok photos) with
          | Raise e => ListingKeyError e
          | Ok photos =>
              let page_token := FilesPage.nextPageToken results in
              if negb (truthy page_token) then Photos photos
              else get_photos_loop fuel list_files sent page_token photos
          end
      end
  end.

Definition folder_query (folder_id : string) : string :=
  "'" ++ folder_id ++ "' in parents and trashed=false".

Module App.

(** [except HttpError as error: ... raise] *)
Definition get_photos_from_folder (fuel : nat) (drive_service : FilesLister)
    (folder_id : string) : Listing :=
  get_photos_loop fuel (drive_service (folder_query folder_id)) [] PyNone [].

End App.

Module Script.

(** [except HttpError as error: ... sys.exit(1)] *)
Definition get_photos_from_folder (fuel : nat) (drive_service : FilesLister)
    (folder_id : string) : Listing :=
  match get_photos_loop fuel (drive_service (folder_query folder_id))
                        [] PyNone [] with
  | ListingRaises (HttpError _) => ListingExit 1
  | listing => listing
  end.

End Script.

(** A photo as the listing returns it: its type is an image type and its
    direct link is made of its id. *)
Definition listed_image (photo : DrivePhoto.t) : Prop :=
  In (DrivePhoto.mimeType photo) image_mimes /\
  DrivePhoto.directLink photo
  = "https://drive.google.com/uc?id=" ++ DrivePhoto.id photo.

(** A file that has the three fields read with [file[...]]. *)
Definition has_key (file : DriveFile) (key : string) : bool :=
  existsb (fun entry => String.eqb key (fst entry)) file.

Definition complete (file : DriveFile) : bool :=
  has_key file "id" && has_key file "name" && has_key file "mimeType".

Definition is_image (file : DriveFile) : bool :=
  existsb (String.eqb (file_get file "mimeType" "")) image_mimes.

(** The photo of a complete file. *)
Definition listed_photo (file : DriveFile) : DrivePhoto.t :=
  {| DrivePhoto.id := file_get file "id" "";
     DrivePhoto.name := file_get file "name" "";
     DrivePhoto.mimeType := file_get file "mimeType" "";
     DrivePhoto.webViewLink := file_get file "webViewLink" "";
     DrivePhoto.webContentLink := file_get file "webContentLink" "";
     DrivePhoto.thumbnailLink := file_get file "thumbnailLink" "";
     DrivePhoto.directLink :=
       "https://drive.google.com/uc?id=" ++ file_get file "id" "" |}.

Definition page_photos (page : FilesPage.t) : list DrivePhoto.t :=
  map listed_photo (filter is_image (FilesPage.files page)).

(** How a sequence of answers ends: with a page that has no next page
    token, or with a request that raises. *)
Inductive Ending : Type :=
| LastPage
| Fails (e : Exception).

(** The service answers the requests of the loop, from the request with
    [page_token] on, by [pages] one after the other, each page but the last
    of a listing having a next page token, and then ends with [ending]. *)
Fixpoint serves (list_files : list PyValue -> Try FilesPage.t)
    (sent : list PyValue) (page_token : PyValue)
    (pages : list FilesPage.t) (ending : Ending) : Prop :=
  match pages with
  | [] =>
      match ending with
      | LastPage => False
      | Fails e => list_files (sent ++ [page_token])%list = Throw e
      end
  | page :: rest =>
      list_files (sent ++ [page_token])%list = Return page /\
      match rest, ending with
      | [], LastPage => truthy (FilesPage.nextPageToken page) = false
      | _, _ =>
          truthy (FilesPage.nextPageToken page) = true /\
          serves list_files (sent ++ [page_token])%list
                 (FilesPage.nextPageToken page) rest ending
      end
  end.

(** The files of [pages] all have the three fields. *)
Definition all_complete (pages : list FilesPage.t) : Prop :=
  Forall (fun page =>
            Forall (fun file => complete file = true) (FilesPage.files page))
         pages.

(** A folder of two pages, and a service that lists it. *)
Definition team_page : FilesPage.t :=
  {| FilesPage.files :=
       [ [ ("id", "f1"); ("name", "Jane Doe.jpg"); ("mimeType", "image/jpeg");
           ("thumbnailLink", "https://lh3.googleusercontent.com/f1") ];
         [ ("id", "f2"); ("name", "notes.txt"); ("mimeType", "text/plain") ] ];
     FilesPage.nextPageToken := PyStr "page-2" |}.

Definition last_page : FilesPage.t :=
  {| FilesPage.files :=
       [ [ ("id", "f3"); ("name", "john_smith.png");
           ("mimeType", "image/png") ] ];
     FilesPage.nextPageToken := PyNone |}.

Definition two_pages : FilesLister :=
  fun q sent =>
    match sent with
    | [_] => Return team_page
    | _ => Return last_page
    end.

(** A service whose second request fails. *)
Definition failing_second : FilesLister :=
  fun q sent =>
    match sent with
    | [_] => Return team_page
    | _ => Throw (HttpError "500")
    end.

(** A service that always announces a next page. *)
Definition endless : FilesLister :=
  fun q sent =>
    Return {| FilesPage.files := []; FilesPage.nextPageToken := PyStr "next" |}.

(* ================================================================== *)
(** ** The matcher on the rows that [load_roster_data] passes

    The script reads the roster with pandas, so that a cell of a row need not
    be a [str]: a blank cell is the float [nan], and a column of numbers
    holds numbers.  The functions of this module are [normalize_name],
    [generate_name_variations], [match_photo_to_player] and
    [create_photo_mapping] of [photo_player_mapping.py] once more, on rows
    whose fields hold any such value, where a method call on a value that is
    not a [str] raises [AttributeError]. *)

Module Cells.

(** A value of a row: a [str] or [None], or another value, that is a number
    or a boolean.  Of such a value the functions use [str(v)] and [bool(v)];
    it has no method [replace].  Two of them are the same element of a set
    when they have the same [tag]: the object itself for a [nan], which is
    equal to no float, and the value for the other numbers. *)
Inductive Cell : Type :=
| Text (value : PyValue)
| Other (text : string) (nonzero : bool) (tag : nat).

(** [bool(v)] *)
Definition cell_truthy (v : Cell) : bool :=
  match v with
  | Text value => truthy value
  | Other _ nonzero _ => nonzero
  end.

(** [str(v)], also what an f-string substitutes for [{v}]. *)
Definition cell_str (v : Cell) : string :=
  match v with
  | Text value => py_str value
  | Other text _ _ => text
  end.

(** [v.replace(old, new)]: a method of [str] only. *)
Definition cell_replace (old new : ascii) (v : Cell) : Try string :=
  match v with
  | Text (PyStr s) => Return (Str.replace old new s)
  | _ => Throw AttributeError
  end.

(** The float [nan] that pandas gives for a blank cell. *)
Definition nan (object : nat) : Cell := Other "nan" true object.

(** *** Sets of values *)

(** Two values that are one element of a set. *)
Definition same_element (a b : Cell) : bool :=
  match a, b with
  | Text PyNone, Text PyNone => true
  | Text (PyStr s), Text (PyStr t) => String.eqb s t
  | Other _ _ i, Other _ _ j => Nat.eqb i j
  | _, _ => false
  end.

Definition CellSet : Type := list Cell.

(** [s.add(x)] *)
Definition cell_set_add (x : Cell) (s : CellSet) : CellSet :=
  if existsb (same_element x) s then s else (s ++ [x])%list.

(** A run of [s.add(x)] statements, in program order. *)
Definition cell_set_add_all (xs : list Cell) (s : CellSet) : CellSet :=
  fold_left (fun acc x => cell_set_add x acc) xs s.

(** The order in which [for x in s] visits such a set. *)
Record CellOrder : Type := {
  cell_iter : CellSet -> list Cell;
  cell_iter_perm : forall s, Permutation (cell_iter s) s
}.

Definition insertion_order : CellOrder :=
  {| cell_iter := fun s => s; cell_iter_perm := @Permutation_refl Cell |}.

(** *** normalize_name and generate_name_variations *)

Record Row : Type := {
  student_id : Cell;
  first_name : Cell;
  last_name : Cell;
  full_name : Cell;
  parent1_first : Cell;
  parent1_last : Cell;
  parent2_first : Cell;
  parent2_last : Cell
}.

Definition normalize_name (name : Cell) : string :=
  if negb (cell_truthy name) then ""
  else
    (* Convert to lowercase and remove special characters *)
    let normalized :=
      Str.re_sub_class Chr.class_special "" (Str.lower (cell_str name)) in
    (* Replace multiple spaces/dashes with single space *)
    let normalized :=
      Str.strip (Str.re_sub_class_plus Chr.class_separator " " normalized) in
    normalized.

(** The variations added for one parent. *)
Definition add_parent_variations (variations : CellSet)
    (parent : Cell * Cell) : CellSet :=
  let '(parent_first, parent_last) := parent in
  if cell_truthy parent_first && cell_truthy parent_last then
    cell_set_add_all
      [ Text (cell_str parent_first ++ " " ++ cell_str parent_last);
        Text (cell_str parent_first ++ "_" ++ cell_str parent_last);
        Text (cell_str parent_last ++ "_" ++ cell_str parent_first);
        parent_first;
        parent_last ]
      variations
  else variations.

(** The set [variations] that the first part of [generate_name_variations]
    fills, or the exception of [full.replace]. *)
Definition raw_name_variations (row : Row) : Try CellSet :=
  let variations := [] in
  let first := first_name row in
  let last := last_name row in
  let full := full_name row in
  let variations :=
    if cell_truthy first && cell_truthy last then
      cell_set_add_all
        [ (* Basic combinations *)
          Text (cell_str first ++ " " ++ cell_str last);
          Text (cell_str last ++ " " ++ cell_str first);
          Text (cell_str first ++ "_" ++ cell_str last);
          Text (cell_str last ++ "_" ++ cell_str first);
          Text (cell_str first ++ "." ++ cell_str last);
          Text (cell_str last ++ "." ++ cell_str first);
          Text (cell_str first ++ "-" ++ cell_str last);
          Text (cell_str last ++ "-" ++ cell_str first);
          (* Just first name *)
          first;
          (* Just last name *)
          last ]
        variations
    else variations in
  (* Full name variations *)
  let* variations :=
    if cell_truthy full then
      let* underscores := cell_replace " " "_" full in
      let* periods := cell_replace " " "." full in
      let* hyphens := cell_replace " " "-" full in
      Return (cell_set_add_all
                [ full; Text underscores; Text periods; Text hyphens ]
                variations)
    else Return variations in
  (* Parent name variations *)
  Return (fold_left add_parent_variations
            [ (parent1_first row, parent1_last row);
              (parent2_first row, parent2_last row) ]
            variations).

(** The loop that normalizes the raw variations and drops the empty ones. *)
Definition add_normalized (normalized_variations : PySet) (var : Cell)
  : PySet :=
  let normalized := normalize_name var in
  if truthy normalized then set_add normalized normalized_variations
  else normalized_variations.

(** The raw set is visited in the order [oc]. *)
Definition generate_name_variations (oc : CellOrder) (row : Row)
  : Try PySet :=
  let* variations := raw_name_variations row in
  (* Remove empty strings and normalize *)
  Return (fold_left add_normalized (cell_iter oc variations) set_empty).

(** *** match_photo_to_player *)

Record Match : Type := {
  player : Row;
  confidence : string;
  match_type : string;
  matched_variation : string
}.

(** The inner loop [for variation in player_variations] with its
    [break]. *)
Fixpoint partial_match_loop (normalized_filename : string) (p : Row)
    (variations : list string) (matches : list Match) : list Match :=
  match variations with
  | [] => matches
  | variation :: rest =>
      (* Avoid matching very short names *)
      if (2 <? String.length variation)%nat then
        if Str.contains normalized_filename variation
           || Str.contains variation normalized_filename
        then
          (matches ++ [ {| player := p;
                           confidence := "medium";
                           match_type := "partial";
                           matched_variation := variation |} ])%list
        else partial_match_loop normalized_filename p rest matches
      else partial_match_loop normalized_filename p rest matches
  end.

(** One turn of the loop [for player in players]; the set of normalized
    variations is visited in the order [o]. *)
Definition match_player_step (oc : CellOrder) (o : SetOrder)
    (normalized_filename : string) (matches : list Match) (p : Row)
  : Try (list Match) :=
  let* player_variations := generate_name_variations oc p in
  (* Check for exact matches *)
  if set_mem normalized_filename player_variations then
    Return (matches ++ [ {| player := p;
                            confidence := "high";
                            match_type := "exact";
                            matched_variation := normalized_filename |} ])%list
  else
    (* Check for partial matches *)
    Return (partial_match_loop normalized_filename p
              (set_iter o player_variations) matches).

(** The list [matches] when the loop over the roster ends, or the exception
    that ends the loop. *)
Definition collect_matches (oc : CellOrder) (o : SetOrder)
    (normalized_filename : string) (players : list Row)
  : Try (list Match) :=
  fold_left
    (fun acc p =>
       let* matches := acc in
       match_player_step oc o normalized_filename matches p)
    players (Return []).

Definition confidence_key (x : Match) : PyResult nat :=
  dict_get confidence_order (confidence x).

(** The result is the sorted list, the [KeyError] of the sort key, or the
    exception of the loop. *)
Definition match_photo_to_player (oc : CellOrder) (o : SetOrder)
    (photo_name : string) (players : list Row)
  : Try (PyResult (list Match)) :=
  (* Remove file extension and normalize filename *)
  let base_name := path_stem photo_name in
  let normalized_filename := normalize_name (Text base_name) in
  let* matches := collect_matches oc o normalized_filename players in
  (* Sort by confidence and return best matches *)
  Return (list_sort_reverse confidence_key matches).

(** *** create_photo_mapping *)

Module PhotoMapping.
Record t : Type := {
  photo_filename : string;
  photo_id : string;
  direct_link : string;
  web_view_link : string;
  thumbnail_link : string;
  matched_player_name : Cell;
  matched_first_name : Cell;
  matched_last_name : Cell;
  student_id : Cell;
  confidence : string;
  match_type : string;
  matched_variation : string;
  alternative_matches : list string
}.
End PhotoMapping.

(** The dictionary [mapping] built for a photo from its best match. *)
Definition matched_mapping (photo : DrivePhoto.t) (best_match : Match)
    (matches : list Match) : PhotoMapping.t :=
  {| PhotoMapping.photo_filename := DrivePhoto.name photo;
     PhotoMapping.photo_id := DrivePhoto.id photo;
     PhotoMapping.direct_link := DrivePhoto.directLink photo;
     PhotoMapping.web_view_link := DrivePhoto.webViewLink photo;
     PhotoMapping.thumbnail_link := DrivePhoto.thumbnailLink photo;
     PhotoMapping.matched_player_name := full_name (player best_match);
     PhotoMapping.matched_first_name := first_name (player best_match);
     PhotoMapping.matched_last_name := last_name (player best_match);
     PhotoMapping.student_id := student_id (player best_match);
     PhotoMapping.confidence := confidence best_match;
     PhotoMapping.match_type := match_type best_match;
     PhotoMapping.matched_variation := matched_variation best_match;
     PhotoMapping.alternative_matches :=
       if (1 <? List.length matches)%nat
       then map (fun m =>
                   cell_str (full_name (player m))
                   ++ " (" ++ confidence m ++ ")")
                (py_slice 1 3 matches)
       else [] |}.

(** One turn of the loop [for photo in photos]; the state is the pair of
    lists [mappings] and [unmatched_photos]. *)
Definition create_photo_mapping_step (oc : CellOrder) (o : SetOrder)
    (players : list Row)
    (acc : Try (PyResult (list PhotoMapping.t * list DrivePhoto.t)))
    (photo : DrivePhoto.t)
  : Try (PyResult (list PhotoMapping.t * list DrivePhoto.t)) :=
  let* state := acc in
  match state with
  | Raise e => Return (Raise e)
  | Ok (mappings, unmatched_photos) =>
      let* sorted :=
        match_photo_to_player oc o (DrivePhoto.name photo) players in
      match sorted with
      | Raise e => Return (Raise e)
      | Ok (best_match :: rest) =>
          (* Take the best match *)
          Return
            (Ok ((mappings
                  ++ [matched_mapping photo best_match (best_match :: rest)])
                   %list,
                 unmatched_photos))
      | Ok [] => Return (Ok (mappings, (unmatched_photos ++ [photo])%list))
      end
  end.

Definition create_photo_mapping (oc : CellOrder) (o : SetOrder)
    (photos : list DrivePhoto.t) (players : list Row)
  : Try (PyResult (list PhotoMapping.t * list DrivePhoto.t)) :=
  fold_left (create_photo_mapping_step oc o players) photos
            (Return (Ok ([], []))).

(** *** Vocabulary of the statements *)

(** A full name on which [generate_name_variations] raises: it is truthy,
    so that [full.replace] is called, and it is not a [str]. *)
Definition full_name_fails (row : Row) : bool :=
  match full_name row with
  | Text _ => false
  | Other _ nonzero _ => nonzero
  end.

(** The two kinds of candidate that the loop builds. *)
Definition consistent (m : Match) : Prop :=
  (match_type m = "exact" /\ confidence m = "high") \/
  (match_type m = "partial" /\ confidence m = "medium").

(** The match result of a photo name, the empty list standing for an
    exception. *)
Definition matches_of (oc : CellOrder) (o : SetOrder) (players : list Row)
    (photo_name : string) : list Match :=
  match match_photo_to_player oc o photo_name players with
  | Return (Ok matches) => matches
  | _ => []
  end.

Definition is_matched (oc : CellOrder) (o : SetOrder) (players : list Row)
    (photo : DrivePhoto.t) : bool :=
  match matches_of oc o players (DrivePhoto.name photo) with
  | [] => false
  | _ :: _ => true
  end.

(** The mapping of a photo that has a match. *)
Definition mapping_of_photo (oc : CellOrder) (o : SetOrder)
    (players : list Row) (photo : DrivePhoto.t) : list PhotoMapping.t :=
  match matches_of oc o players (DrivePhoto.name photo) with
  | best_match :: rest =>
      [matched_mapping photo best_match (best_match :: rest)]
  | [] => []
  end.

End Cells.



(** *** Rows of strings

    A player whose fields are strings or [None] is a row; the candidates of
    the two matchers correspond, and an order of visit of the sets of strings
    gives one of the sets of values. *)





(** *** Blank cells

    A cell of a sheet line as pandas gives it: a string, or the [nan] of a
    blank cell. *)
Definition text_or_nan (v : Cells.Cell) : Prop :=
  match v with
  | Cells.Text _ => True
  | Cells.Other text nonzero _ => text = "nan" /\ nonzero = true
  end.

(** The name cells of a row are strings or blank. *)
Definition sheet_row (row : Cells.Row) : Prop :=
  Forall text_or_nan
    [ Cells.first_name row; Cells.last_name row; Cells.full_name row;
      Cells.parent1_first row; Cells.parent1_last row;
      Cells.parent2_first row; Cells.parent2_last row ].

Definition is_nan (v : Cells.Cell) : bool :=
  match v with
  | Cells.Text _ => false
  | Cells.Other text nonzero _ => String.eqb text "nan" && nonzero
  end.

(** The two cells of one of the parents are blank. *)
Definition blank_parent (row : Cells.Row) : bool :=
  (is_nan (Cells.parent1_first row) && is_nan (Cells.parent1_last row))
  || (is_nan (Cells.parent2_first row) && is_nan (Cells.parent2_last row)).

(** A line with a full name and a first parent, the cells of the second
    parent being blank. *)
Definition one_parent_row : Cells.Row :=
  {| Cells.student_id := Cells.Text "1001";
     Cells.first_name := Cells.Text "Jane";
     Cells.last_name := Cells.Text "Doe";
     Cells.full_name := Cells.Text "Jane Doe";
     Cells.parent1_first := Cells.Text "Mary";
     Cells.parent1_last := Cells.Text "Doe";
     Cells.parent2_first := Cells.nan 0;
     Cells.parent2_last := Cells.nan 1 |}.

(* ================================================================== *)
(** * Properties *)

(** ** The model on concrete inputs *)

Example normalize_name_mixed :
  normalize_name "  O'Neil --  Mc.Kay_2 - " = "oneil mckay_2".
Proof. vm_compute. reflexivity. Qed.

Example normalize_name_none : normalize_name PyNone = "".
Proof. reflexivity. Qed.

Example path_stem_examples :
  map path_stem
    ["Jane_Doe.jpg"; "a/b.c.png"; ".hidden"; "trailing."; "dir/"; ""]
  = ["Jane_Doe"; "b.c"; ".hidden"; "trailing."; "dir"; ""].
Proof. vm_compute. reflexivity. Qed.

Example variations_insertion_order :
  generate_name_variations insertion_order (jane_doe "17" "Jane Doe")
  = ["jane doe"; "doe jane"; "jane_doe"; "doe_jane"; "janedoe"; "doejane";
     "jane"; "doe"].
Proof. vm_compute. reflexivity. Qed.

Example variations_reverse_order :
  generate_name_variations reverse_order (jane_doe "17" "Jane Doe")
  = ["doe"; "jane"; "doe jane"; "jane doe"; "doejane"; "janedoe";
     "doe_jane"; "jane_doe"].
Proof. vm_compute. reflexivity. Qed.

Example hyphenated_filename_partial :
  match_photo_to_player insertion_order "jane-doe-action-shot.png"
    [jane_doe "17" ""]
  = Ok [partial_match (jane_doe "17" "") "jane doe"].
Proof. vm_compute. reflexivity. Qed.

Example shared_surname_roster_order :
  match_photo_to_player insertion_order "smith.jpg"
    [only_full_name "John Smith"; only_full_name "Mary Smith-Jones"]
  = Ok [partial_match (only_full_name "John Smith") "john smith";
        partial_match (only_full_name "Mary Smith-Jones") "mary smith jones"].
Proof. vm_compute. reflexivity. Qed.

Example exact_sorted_before_partial :
  match_photo_to_player insertion_order "Doe.jpg"
    [only_full_name "Doe Ray"; only_full_name "Doe"]
  = Ok [exact_match (only_full_name "Doe") "doe";
        partial_match (only_full_name "Doe Ray") "doe ray"].
Proof. vm_compute. reflexivity. Qed.

(** ** Character classes *)

Ltac ascii_cases c :=
  destruct c as [[|] [|] [|] [|] [|] [|] [|] [|]].

Lemma lower_idempotent (c : ascii) : Chr.lower (Chr.lower c) = Chr.lower c.
Proof. ascii_cases c; reflexivity. Qed.

Lemma is_kept_not_special (c : ascii) :
  Chr.class_special c = negb (is_kept c).
Proof. ascii_cases c; reflexivity. Qed.

Lemma space_is_separator (c : ascii) :
  Chr.is_space c = true -> Chr.class_separator c = true.
Proof. unfold Chr.class_separator. intros ->. reflexivity. Qed.

Lemma not_separator_not_space (c : ascii) :
  Chr.class_separator c = false -> Chr.is_space c = false.
Proof.
  unfold Chr.class_separator. intros H.
  apply orb_false_iff in H. tauto.
Qed.

Lemma kept_not_separator_is_word (c : ascii) :
  is_kept c = true -> Chr.class_separator c = false -> Chr.is_word c = true.
Proof. ascii_cases c; cbv; congruence. Qed.

Lemma word_is_kept_not_separator (c : ascii) :
  Chr.is_word c = true ->
  is_kept c = true /\ Chr.class_separator c = false.
Proof. ascii_cases c; cbv; intuition congruence. Qed.

(** ** Strings *)

Lemma all_chars_impl (P Q : ascii -> Prop) (s : string) :
  (forall c, P c -> Q c) -> all_chars P s -> all_chars Q s.
Proof.
  intros HPQ. induction s as [|c s IH]; simpl; [trivial|].
  intros [Hc Hs]. split; auto.
Qed.

Lemma all_chars_app (P : ascii -> Prop) (s t : string) :
  all_chars P (s ++ t) <-> all_chars P s /\ all_chars P t.
Proof.
  induction s as [|c s IH]; simpl; [tauto|]. rewrite IH. tauto.
Qed.

Lemma all_chars_concat (P : ascii -> Prop) (sep : string) (ws : list string) :
  all_chars P sep -> Forall (all_chars P) ws ->
  all_chars P (String.concat sep ws).
Proof.
  intros Hsep Hws. induction Hws as [|w ws Hw Hws IH]; simpl; [trivial|].
  destruct ws as [|y l]; [assumption|].
  apply all_chars_app. split; [assumption|].
  apply all_chars_app. split; assumption.
Qed.

Lemma lower_fixed (s : string) :
  all_chars (fun c => Chr.lower c = c) s -> Str.lower s = s.
Proof.
  induction s as [|c s IH]; simpl; [reflexivity|].
  intros [Hc Hs]. rewrite Hc, IH by assumption. reflexivity.
Qed.

Lemma str_filter_fixed (keep : ascii -> bool) (s : string) :
  all_chars (fun c => keep c = true) s -> str_filter keep s = s.
Proof.
  induction s as [|c s IH]; simpl; [reflexivity|].
  intros [Hc Hs]. rewrite Hc, IH by assumption. reflexivity.
Qed.

Lemma str_filter_lower_chars (s : string) :
  all_chars (fun c => is_kept c = true /\ Chr.lower c = c)
            (str_filter is_kept (Str.lower s)).
Proof.
  induction s as [|c s IH]; simpl; [trivial|].
  destruct (is_kept (Chr.lower c)) eqn:Hk; [|assumption].
  simpl. repeat split; auto using lower_idempotent.
Qed.

(** The first substitution of [normalize_name] deletes exactly the
    characters outside [is_kept]. *)
Lemma re_sub_special_filter (s : string) :
  Str.re_sub_class Chr.class_special "" s = str_filter is_kept s.
Proof.
  induction s as [|c s IH]; simpl; [reflexivity|].
  rewrite is_kept_not_special, IH.
  destruct (is_kept c); reflexivity.
Qed.

(** ** Tokens *)

Lemma concat_cons_char (sep : string) (c : ascii) (w : string)
    (ws : list string) :
  String.concat sep (String c w :: ws) = String c (String.concat sep (w :: ws)).
Proof. destruct ws; reflexivity. Qed.

Lemma tokens_head (sep : ascii -> bool) (d : ascii) (s : string) :
  sep d = false ->
  exists w ws, tokens sep (String d s) = String d w :: ws.
Proof.
  intros Hd. simpl. rewrite Hd.
  destruct s as [|e s']; [eauto|].
  destruct (sep e); [eauto|].
  destruct (tokens sep (String e s')); simpl; eauto.
Qed.

Lemma tokens_chars (sep : ascii -> bool) (P : ascii -> Prop) (s : string) :
  all_chars P s ->
  Forall (fun w => w <> "" /\ all_chars (fun c => sep c = false /\ P c) w)
         (tokens sep s).
Proof.
  induction s as [|c s IH]; intros Hs; [constructor|].
  destruct Hs as [Hc Hs]. specialize (IH Hs).
  cbn [tokens]. destruct (sep c) eqn:Hsc; [assumption|].
  destruct s as [|d s'].
  - constructor; [|constructor]. simpl. split; [discriminate|auto].
  - destruct (sep d) eqn:Hsd.
    + constructor; [|assumption]. simpl. split; [discriminate|auto].
    + destruct (tokens_head sep d s' Hsd) as (w & ws & Hw).
      rewrite Hw in *. simpl.
      inversion IH as [|? ? [_ Hw1] Hws]; subst.
      constructor; [|assumption]. simpl. split; [discriminate|auto].
Qed.

Lemma concat_tokens_nonempty (sep : string) (y : string) (l : list string) :
  y <> "" -> String.concat sep (y :: l) <> "".
Proof.
  intros Hy. destruct y as [|c y]; [congruence|].
  rewrite concat_cons_char. discriminate.
Qed.

Lemma tokens_single (sep : ascii -> bool) (w : string) :
  w <> "" -> all_chars (fun c => sep c = false) w -> tokens sep w = [w].
Proof.
  induction w as [|c w IH]; [congruence|].
  intros _ [Hc Hw]. cbn [tokens]. rewrite Hc.
  destruct w as [|d w']; [reflexivity|].
  destruct Hw as [Hd Hw']. rewrite Hd.
  rewrite IH; [reflexivity|discriminate|split; assumption].
Qed.

Lemma tokens_app_separator (sep : ascii -> bool) (w : string) (d : ascii)
    (s : string) :
  w <> "" -> all_chars (fun c => sep c = false) w -> sep d = true ->
  tokens sep (w ++ String d s) = w :: tokens sep s.
Proof.
  intros Hw Hall Hd. induction w as [|c w IH]; [congruence|].
  destruct Hall as [Hc Hall]. cbn [append tokens]. rewrite Hc.
  destruct w as [|e w'].
  - simpl. rewrite Hd. reflexivity.
  - destruct Hall as [He Hall']. cbn [append]. rewrite He.
    cbn [append] in IH.
    rewrite IH; [reflexivity|discriminate|split; assumption].
Qed.

(** Splitting the single-space join of separator-free words gives the
    words back. *)
Lemma tokens_concat (ws : list string) :
  Forall (fun w => w <> "" /\
                   all_chars (fun c => Chr.class_separator c = false) w) ws ->
  tokens Chr.class_separator (String.concat " " ws) = ws.
Proof.
  induction 1 as [|w ws [Hne Hw] Hws IH]; [reflexivity|].
  destruct ws as [|y l].
  - simpl. apply tokens_single; assumption.
  - change (String.concat " " (w :: y :: l))
      with (w ++ String " " (String.concat " " (y :: l))).
    rewrite tokens_app_separator by (assumption || reflexivity).
    rewrite IH. reflexivity.
Qed.

(** ** The second substitution and the trim *)

Lemma rstrip_cons_visible (c : ascii) (s : string) :
  Chr.is_space c = false -> Str.rstrip (String c s) = String c (Str.rstrip s).
Proof.
  intros Hc. simpl. rewrite Hc. destruct (Str.rstrip s); reflexivity.
Qed.

Lemma lstrip_runs (b : bool) (s : string) :
  Str.lstrip (Str.re_sub_runs Chr.class_separator " " b s)
  = Str.re_sub_runs Chr.class_separator " " true s.
Proof.
  revert b. induction s as [|c s IH]; intros b; [reflexivity|].
  cbn [Str.re_sub_runs].
  destruct (Chr.class_separator c) eqn:Hc.
  - destruct b; simpl; apply IH.
  - simpl. rewrite (not_separator_not_space c Hc). reflexivity.
Qed.

Lemma rstrip_runs (s : string) :
  Str.rstrip (Str.re_sub_runs Chr.class_separator " " true s)
  = String.concat " " (tokens Chr.class_separator s).
Proof.
  induction s as [|c s IH]; [reflexivity|].
  cbn [Str.re_sub_runs tokens].
  destruct (Chr.class_separator c) eqn:Hc; [exact IH|].
  rewrite rstrip_cons_visible by (apply not_separator_not_space; exact Hc).
  destruct s as [|d s']; [reflexivity|].
  cbn [Str.re_sub_runs] in *.
  destruct (Chr.class_separator d) eqn:Hd.
  - cbn [append] in *.
    pose proof (tokens_chars Chr.class_separator (fun _ => True) (String d s'))
      as Htok.
    cbn [Str.rstrip]. rewrite IH.
    destruct (tokens Chr.class_separator (String d s')) as [|y l] eqn:Ht.
    + reflexivity.
    + assert (Hy : y <> "").
      { assert (Hall : all_chars (fun _ => True) (String d s')).
        { clear. generalize (String d s'). induction s; simpl; auto. }
        specialize (Htok Hall). inversion Htok as [|? ? [Hy _] _]. exact Hy. }
      pose proof (concat_tokens_nonempty " " y l Hy) as Hne.
      destruct (String.concat " " (y :: l)) eqn:Hj; [congruence|].
      change (String.concat " " (String c "" :: y :: l))
        with (String c (String " " (String.concat " " (y :: l)))).
      rewrite Hj. reflexivity.
  - rewrite IH.
    destruct (tokens_head Chr.class_separator d s' Hd) as (w & ws & Hw).
    rewrite Hw. simpl extend_token.
    rewrite (concat_cons_char " " c (String d w) ws). reflexivity.
Qed.

(** [normalize_name] computes the normalizer described in words. *)
Lemma normalize_name_described (s : string) :
  normalize_name s = normalize_described s.
Proof.
  destruct s as [|c s]; [reflexivity|].
  unfold normalize_name, normalize_described.
  cbn [truthy negb py_str]. cbv beta iota zeta.
  unfold Str.strip, Str.re_sub_class_plus.
  rewrite lstrip_runs, rstrip_runs, re_sub_special_filter. reflexivity.
Qed.

(** The words of a normalized name are non-empty and made of lower-case
    word characters. *)
Lemma normalized_words (s : string) :
  Forall (fun w => w <> "" /\
            all_chars (fun c => Chr.class_separator c = false /\
                                is_kept c = true /\ Chr.lower c = c) w)
         (tokens Chr.class_separator (str_filter is_kept (Str.lower s))).
Proof. apply tokens_chars, str_filter_lower_chars. Qed.

Lemma normalize_described_idempotent (s : string) :
  normalize_described (normalize_described s) = normalize_described s.
Proof.
  unfold normalize_described.
  pose proof (normalized_words s) as Hws.
  set (ws := tokens Chr.class_separator
               (str_filter is_kept (Str.lower s))) in *.
  assert (Hlow : Str.lower (String.concat " " ws) = String.concat " " ws).
  { apply lower_fixed, all_chars_concat; [simpl; auto|].
    eapply Forall_impl; [|exact Hws]. intros w [_ Hw].
    eapply all_chars_impl; [|exact Hw]. intros c (Ha & Hb & Hc); auto. }
  assert (Hkeep : str_filter is_kept (String.concat " " ws)
                  = String.concat " " ws).
  { apply str_filter_fixed, all_chars_concat; [simpl; auto|].
    eapply Forall_impl; [|exact Hws]. intros w [_ Hw].
    eapply all_chars_impl; [|exact Hw]. intros c (Ha & Hb & Hc); auto. }
  rewrite Hlow, Hkeep, tokens_concat; [reflexivity|].
  eapply Forall_impl; [|exact Hws]. intros w [Hne Hw]. split; [exact Hne|].
  eapply all_chars_impl; [|exact Hw]. intros c (Ha & Hb & Hc); auto.
Qed.

Lemma normalize_name_chars (s : string) :
  all_chars (fun c => c = " "%char \/
                      (Chr.is_word c = true /\ Chr.lower c = c))
            (normalize_name s).
Proof.
  rewrite normalize_name_described. unfold normalize_described.
  apply all_chars_concat; [simpl; auto|].
  eapply Forall_impl; [|apply normalized_words]. intros w [_ Hw].
  eapply all_chars_impl; [|exact Hw].
  intros c (Hsep & Hk & Hl). right. split; [|exact Hl].
  apply kept_not_separator_is_word; assumption.
Qed.

(** ** Main properties of [normalize_name] *)

(** C1 (as stated, refuted): the underscore is a word character, so it is
    neither removed nor turned into a space; ["Jane_Doe"] and ["jane-doe"]
    normalize to different strings. *)
Lemma normalize_name_underscore_differs :
  normalize_name "Jane_Doe" = "jane_doe" /\
  normalize_name "jane-doe" = "jane doe" /\
  normalize_name "Jane_Doe" <> normalize_name "jane-doe".
Proof. repeat split. discriminate. Qed.

(** C1 (amended): [normalize_name] lower-cases its input, removes every
    character that is not a letter, digit, underscore, whitespace or hyphen,
    replaces each run of whitespace and hyphens by one space and trims, so
    its result is the single-space join of the words of the input and holds
    only lower-case word characters and spaces; ["jane-doe"] and
    ["Jane  Doe"] both give ["jane doe"], while ["Jane_Doe"] gives
    ["jane_doe"]. *)
Theorem normalize_name_keeps_underscore :
  (forall s : string, normalize_name s = normalize_described s) /\
  (forall s : string,
      all_chars (fun c => c = " "%char \/
                          (Chr.is_word c = true /\ Chr.lower c = c))
                (normalize_name s)) /\
  normalize_name "jane-doe" = "jane doe" /\
  normalize_name "Jane  Doe" = "jane doe" /\
  normalize_name "Jane_Doe" = "jane_doe".
Proof.
  split; [exact normalize_name_described|].
  split; [exact normalize_name_chars|].
  repeat split.
Qed.

(** C9: [normalize_name] is idempotent: normalizing a normalized name
    returns it unchanged, for every input (a string or [None]). *)
Theorem normalize_name_idempotent (name : PyValue) :
  normalize_name (normalize_name name) = normalize_name name.
Proof.
  destruct name as [|s]; [reflexivity|].
  rewrite !normalize_name_described.
  apply normalize_described_idempotent.
Qed.

(* ================================================================== *)
(** ** Sets and name variations *)

Lemma set_mem_In (x : string) (s : PySet) : set_mem x s = true <-> In x s.
Proof.
  unfold set_mem. rewrite existsb_exists. split.
  - intros (y & Hy & Heq). apply String.eqb_eq in Heq. subst. exact Hy.
  - intros Hx. exists x. split; [exact Hx|apply String.eqb_refl].
Qed.

Lemma set_add_In (x y : string) (s : PySet) :
  In y (set_add x s) <-> y = x \/ In y s.
Proof.
  unfold set_add. destruct (set_mem x s) eqn:Hm.
  - apply set_mem_In in Hm. split; [auto|]. intros [->|H]; assumption.
  - rewrite in_app_iff. simpl. intuition.
Qed.

Lemma add_normalized_In (v : string) (l : list string) (acc : PySet) :
  In v (fold_left add_normalized l acc) <->
  In v acc \/ exists raw, In raw l /\ normalize_name raw = v /\ v <> "".
Proof.
  revert acc. induction l as [|x l IH]; intros acc; simpl.
  - split; [auto|]. intros [H|(raw & [] & _)]. exact H.
  - rewrite IH. unfold add_normalized.
    destruct (normalize_name x) as [|c n] eqn:Hn; cbn [truthy].
    + split.
      * intros [H|(raw & Hraw & Hv)]; [auto|]. right. exists raw. auto.
      * intros [H|(raw & [Hx|Hraw] & Hv & Hne)]; [auto| |].
        -- subst raw. congruence.
        -- right. exists raw. auto.
    + rewrite set_add_In. split.
      * intros [[Hv|H]|(raw & Hraw & Hv)]; [| auto |].
        -- right. exists x. rewrite Hn. subst v. repeat split; auto.
           discriminate.
        -- right. exists raw. tauto.
      * intros [H|(raw & [Hx|Hraw] & Hv & Hne)]; [auto| |].
        -- subst raw. left. left. congruence.
        -- right. exists raw. auto.
Qed.

(** The content of the variation set does not depend on the iteration
    order: it holds the non-empty normalized raw variations. *)
Lemma generate_name_variations_In (o : SetOrder) (p : Player) (v : string) :
  In v (generate_name_variations o p) <->
  exists raw, In raw (raw_name_variations p) /\
              normalize_name raw = v /\ v <> "".
Proof.
  unfold generate_name_variations. rewrite add_normalized_In.
  split.
  - intros [[]|(raw & Hraw & Hv)]. exists raw. split; [|exact Hv].
    eapply Permutation_in; [apply set_iter_perm|exact Hraw].
  - intros (raw & Hraw & Hv). right. exists raw. split; [|exact Hv].
    eapply Permutation_in; [apply Permutation_sym, set_iter_perm|exact Hraw].
Qed.

Lemma generate_name_variations_order (o o' : SetOrder) (p : Player)
    (v : string) :
  In v (generate_name_variations o p) <-> In v (generate_name_variations o' p).
Proof. rewrite !generate_name_variations_In. reflexivity. Qed.

Lemma variations_mem_order (o o' : SetOrder) (p : Player) (v : string) :
  set_mem v (generate_name_variations o p)
  = set_mem v (generate_name_variations o' p).
Proof.
  apply eq_true_iff_eq. rewrite !set_mem_In.
  apply generate_name_variations_order.
Qed.

(* ================================================================== *)
(** ** The loops of the matcher *)

Lemma partial_match_loop_find (nf : string) (p : Player) (vs : list string)
    (matches : list Match) :
  partial_match_loop nf p vs matches =
  (matches ++ match find (qualifies nf) vs with
              | Some v => [partial_match p v]
              | None => []
              end)%list.
Proof.
  induction vs as [|v vs IH]; simpl.
  - rewrite app_nil_r. reflexivity.
  - unfold qualifies at 1.
    destruct (2 <? String.length v)%nat; simpl; [|exact IH].
    destruct (Str.contains nf v || Str.contains v nf); [reflexivity|exact IH].
Qed.

Lemma match_player_step_app (o : SetOrder) (nf : string)
    (matches : list Match) (p : Player) :
  match_player_step o nf matches p = (matches ++ player_matches o nf p)%list.
Proof.
  unfold player_matches, match_player_step.
  destruct (set_mem nf (generate_name_variations o p)); [reflexivity|].
  rewrite !partial_match_loop_find. reflexivity.
Qed.

Lemma fold_match_player_step (o : SetOrder) (nf : string)
    (players : list Player) (matches : list Match) :
  fold_left (match_player_step o nf) players matches
  = (matches ++ flat_map (player_matches o nf) players)%list.
Proof.
  revert matches. induction players as [|p ps IH]; intros matches; simpl.
  - rewrite app_nil_r. reflexivity.
  - rewrite IH, match_player_step_app, app_assoc. reflexivity.
Qed.

Lemma collect_matches_flat_map (o : SetOrder) (nf : string)
    (players : list Player) :
  collect_matches o nf players = flat_map (player_matches o nf) players.
Proof. unfold collect_matches. apply fold_match_player_step. Qed.

Lemma player_matches_exact (o : SetOrder) (nf : string) (p : Player) :
  set_mem nf (generate_name_variations o p) = true ->
  player_matches o nf p = [exact_match p nf].
Proof.
  unfold player_matches, match_player_step. intros ->. reflexivity.
Qed.

Lemma player_matches_partial (o : SetOrder) (nf : string) (p : Player) :
  set_mem nf (generate_name_variations o p) = false ->
  player_matches o nf p =
  match find (qualifies nf) (set_iter o (generate_name_variations o p)) with
  | Some v => [partial_match p v]
  | None => []
  end.
Proof.
  unfold player_matches, match_player_step. intros ->.
  apply partial_match_loop_find.
Qed.

(** A row contributes nothing, one exact candidate or one partial
    candidate. *)
Lemma player_matches_shape (o : SetOrder) (nf : string) (p : Player) :
  player_matches o nf p = [] \/
  player_matches o nf p = [exact_match p nf] \/
  exists v, player_matches o nf p = [partial_match p v] /\
            qualifies nf v = true /\
            In v (generate_name_variations o p).
Proof.
  destruct (set_mem nf (generate_name_variations o p)) eqn:Hm.
  - right. left. apply player_matches_exact, Hm.
  - rewrite (player_matches_partial o nf p Hm).
    destruct (find (qualifies nf) (set_iter o (generate_name_variations o p)))
      as [v|] eqn:Hf; [|left; reflexivity].
    right. right. exists v. apply find_some in Hf. destruct Hf as [Hin Hq].
    repeat split; [exact Hq|].
    eapply Permutation_in; [apply set_iter_perm|exact Hin].
Qed.

Lemma collect_matches_shape (o : SetOrder) (nf : string)
    (players : list Player) (m : Match) :
  In m (collect_matches o nf players) ->
  In (player m) players /\
  (m = exact_match (player m) nf \/
   exists v, m = partial_match (player m) v /\ qualifies nf v = true /\
             In v (generate_name_variations o (player m))).
Proof.
  rewrite collect_matches_flat_map, in_flat_map.
  intros (p & Hp & Hm).
  destruct (player_matches_shape o nf p) as [H|[H|(v & H & Hq & Hv)]];
    rewrite H in Hm; simpl in Hm.
  - contradiction.
  - destruct Hm as [<-|[]]. simpl. auto.
  - destruct Hm as [<-|[]]. simpl. split; [exact Hp|]. right. exists v. auto.
Qed.

(* ================================================================== *)
(** ** The sort *)

Section Sorting.

Context {A : Type}.

Lemma insert_desc_perm (kx : nat * A) (l : list (nat * A)) :
  Permutation (insert_desc kx l) (kx :: l).
Proof.
  induction l as [|ky l IH]; simpl; [reflexivity|].
  destruct (fst kx <? fst ky)%nat; [|reflexivity].
  rewrite IH. apply perm_swap.
Qed.

Lemma insert_desc_sorted (kx : nat * A) (l : list (nat * A)) :
  StronglySorted key_ge l -> StronglySorted key_ge (insert_desc kx l).
Proof.
  induction 1 as [|ky l Hl IH Hky]; simpl.
  - repeat constructor.
  - destruct (fst kx <? fst ky)%nat eqn:Hlt.
    + apply Nat.ltb_lt in Hlt. constructor; [exact IH|].
      eapply Permutation_Forall;
        [apply Permutation_sym, insert_desc_perm|].
      constructor; [unfold key_ge; lia|exact Hky].
    + apply Nat.ltb_ge in Hlt. constructor.
      * constructor; assumption.
      * constructor; [exact Hlt|].
        eapply Forall_impl; [|exact Hky]. unfold key_ge. intros; lia.
Qed.

(** Stability: within one key, insertion keeps the original order. *)
Lemma insert_desc_stable (n : nat) (kx : nat * A) (l : list (nat * A)) :
  filter (key_is n) (insert_desc kx l) = filter (key_is n) (kx :: l).
Proof.
  induction l as [|ky l IH]; [reflexivity|].
  cbn [insert_desc]. destruct (fst kx <? fst ky)%nat eqn:Hlt; [|reflexivity].
  apply Nat.ltb_lt in Hlt. cbn [filter] in *. rewrite IH.
  unfold key_is.
  destruct (fst kx =? n)%nat eqn:Hx, (fst ky =? n)%nat eqn:Hy; try reflexivity.
  apply Nat.eqb_eq in Hx, Hy. lia.
Qed.

Lemma sort_desc_perm (ks : list (nat * A)) :
  Permutation (fold_right insert_desc [] ks) ks.
Proof.
  induction ks as [|kx ks IH]; simpl; [reflexivity|].
  rewrite insert_desc_perm, IH. reflexivity.
Qed.

Lemma sort_desc_sorted (ks : list (nat * A)) :
  StronglySorted key_ge (fold_right insert_desc [] ks).
Proof.
  induction ks as [|kx ks IH]; simpl; [constructor|].
  apply insert_desc_sorted, IH.
Qed.

Lemma sort_desc_stable (n : nat) (ks : list (nat * A)) :
  filter (key_is n) (fold_right insert_desc [] ks) = filter (key_is n) ks.
Proof.
  induction ks as [|kx ks IH]; [reflexivity|].
  cbn [fold_right]. rewrite insert_desc_stable. cbn [filter].
  rewrite IH. reflexivity.
Qed.

Variable key : A -> PyResult nat.
Variable k : A -> nat.

Lemma sort_keys_ok (l : list A) :
  Forall (fun x => key x = Ok (k x)) l ->
  sort_keys key l = Ok (map (fun x => (k x, x)) l).
Proof.
  induction 1 as [|x l Hx Hl IH]; simpl; [reflexivity|].
  rewrite Hx, IH. reflexivity.
Qed.

Lemma keyed_filter (n : nat) (ks : list (nat * A)) :
  Forall (fun kx => fst kx = k (snd kx)) ks ->
  map snd (filter (key_is n) ks)
  = filter (fun x => Nat.eqb (k x) n) (map snd ks).
Proof.
  induction 1 as [|kx ks Hkx Hks IH]; [reflexivity|].
  cbn [filter map]. unfold key_is at 1. rewrite Hkx.
  destruct (Nat.eqb (k (snd kx)) n); cbn [map]; rewrite IH; reflexivity.
Qed.

(** What [l.sort(key=key, reverse=True)] returns when no key lookup
    fails: a rearrangement of [l], by decreasing key, in which the
    elements of each key keep their order. *)
Lemma list_sort_reverse_ok (l : list A) :
  Forall (fun x => key x = Ok (k x)) l ->
  exists l',
    list_sort_reverse key l = Ok l' /\
    Permutation l' l /\
    StronglySorted (fun a b => k b <= k a) l' /\
    forall n, filter (fun x => Nat.eqb (k x) n) l'
              = filter (fun x => Nat.eqb (k x) n) l.
Proof.
  intros Hkeys. unfold list_sort_reverse.
  rewrite (sort_keys_ok l Hkeys). cbn [bind].
  set (ks := map (fun x => (k x, x)) l).
  assert (Hsnd : map snd ks = l).
  { unfold ks. rewrite map_map. apply map_id. }
  assert (Hks : Forall (fun kx => fst kx = k (snd kx)) ks).
  { unfold ks. apply Forall_forall. intros kx Hin.
    apply in_map_iff in Hin. destruct Hin as (x & <- & _). reflexivity. }
  clearbody ks.
  assert (Hsorted : Forall (fun kx => fst kx = k (snd kx))
                           (fold_right insert_desc [] ks)).
  { eapply Permutation_Forall;
      [apply Permutation_sym, sort_desc_perm|exact Hks]. }
  eexists. split; [reflexivity|]. split; [|split].
  - transitivity (map snd ks); [apply Permutation_map, sort_desc_perm|].
    rewrite Hsnd. reflexivity.
  - pose proof (sort_desc_sorted ks) as Hs. revert Hsorted Hs.
    generalize (fold_right insert_desc [] ks). intros s Hfst Hs.
    induction Hs as [|kx s Hs IH Hall]; [constructor|].
    inversion Hfst as [|? ? Hkx Hrest]; subst.
    cbn [map]. constructor; [apply IH, Hrest|].
    apply Forall_forall. intros y Hy. apply in_map_iff in Hy.
    destruct Hy as (ky & <- & Hky).
    rewrite Forall_forall in Hall, Hrest.
    specialize (Hall ky Hky). unfold key_ge in Hall.
    rewrite <- Hkx, <- (Hrest ky Hky). exact Hall.
  - intros n. rewrite <- (keyed_filter n _ Hsorted), sort_desc_stable.
    rewrite (keyed_filter n _ Hks), Hsnd. reflexivity.
Qed.

End Sorting.

(* ================================================================== *)
(** ** The result of the matcher *)

Lemma collect_matches_confidence (o : SetOrder) (nf : string)
    (players : list Player) (m : Match) :
  In m (collect_matches o nf players) ->
  (match_type m = "exact" /\ confidence m = "high") \/
  (match_type m = "partial" /\ confidence m = "medium").
Proof.
  intros Hm. apply collect_matches_shape in Hm.
  destruct Hm as [_ [->|(v & -> & _)]]; simpl; auto.
Qed.

Lemma collect_matches_key (o : SetOrder) (nf : string)
    (players : list Player) :
  Forall (fun m => confidence_key m = Ok (rank m))
         (collect_matches o nf players).
Proof.
  apply Forall_forall. intros m Hm.
  apply collect_matches_confidence in Hm.
  unfold rank, confidence_key.
  destruct Hm as [[_ ->]|[_ ->]]; reflexivity.
Qed.

(** The matcher never fails in the sort: its result is the list collected
    by the loop, rearranged by decreasing rank, each rank in the order of
    collection. *)
Lemma match_photo_to_player_sorted (o : SetOrder) (photo_name : string)
    (players : list Player) :
  exists ms,
    match_photo_to_player o photo_name players = Ok ms /\
    Permutation ms
      (collect_matches o (normalize_name (path_stem photo_name)) players) /\
    StronglySorted (fun a b => rank b <= rank a) ms /\
    forall n,
      filter (fun m => Nat.eqb (rank m) n) ms =
      filter (fun m => Nat.eqb (rank m) n)
        (collect_matches o (normalize_name (path_stem photo_name)) players).
Proof.
  unfold match_photo_to_player. cbv zeta.
  apply list_sort_reverse_ok, collect_matches_key.
Qed.

Lemma unmatchable_matches (o : SetOrder) (nf : string) (p : Player) :
  unmatchable p = true -> player_matches o nf p = [].
Proof.
  unfold unmatchable. intros Hp.
  repeat (apply andb_true_iff in Hp; destruct Hp as [Hp ?]).
  assert (Hraw : raw_name_variations p = []).
  { unfold raw_name_variations. cbn [fold_left add_parent_variations].
    repeat match goal with
           | H : negb ?b = true |- _ =>
               apply negb_true_iff in H; rewrite H
           end.
    reflexivity. }
  assert (Hgen : generate_name_variations o p = []).
  { unfold generate_name_variations. rewrite Hraw.
    rewrite (Permutation_nil (Permutation_sym (set_iter_perm o []))).
    reflexivity. }
  unfold player_matches, match_player_step. rewrite Hgen.
  rewrite (Permutation_nil (Permutation_sym (set_iter_perm o []))).
  reflexivity.
Qed.

Lemma find_split {A : Type} (f : A -> bool) (l : list A) :
  match find f l with
  | Some v =>
      exists before after,
        l = (before ++ v :: after)%list /\
        Forall (fun u => f u = false) before /\ f v = true
  | None => Forall (fun u => f u = false) l
  end.
Proof.
  induction l as [|x l IH]; simpl; [constructor|].
  destruct (f x) eqn:Hx.
  - exists [], l. repeat split; [constructor|exact Hx].
  - destruct (find f l) as [v|].
    + destruct IH as (before & after & -> & Hb & Hv).
      exists (x :: before), after. repeat split; [constructor|]; assumption.
    + constructor; assumption.
Qed.

(** ** Main properties of [match_photo_to_player] *)

(** C3: each roster row contributes at most one candidate.  The result is a
    rearrangement of what the rows contribute one after the other; a row
    whose variation set holds the normalized stem contributes exactly one
    exact candidate (and no partial one); any other row contributes either
    nothing, when no variation qualifies, or one partial candidate, for the
    first qualifying variation in iteration order. *)
Theorem one_candidate_per_player (o : SetOrder) (photo_name : string)
    (players : list Player) :
  let nf := normalize_name (path_stem photo_name) in
  exists ms,
    match_photo_to_player o photo_name players = Ok ms /\
    Permutation ms (flat_map (player_matches o nf) players) /\
    List.length ms <= List.length players /\
    forall p,
      List.length (player_matches o nf p) <= 1 /\
      (set_mem nf (generate_name_variations o p) = true ->
       player_matches o nf p = [exact_match p nf]) /\
      (set_mem nf (generate_name_variations o p) = false ->
       (player_matches o nf p = [] /\
        Forall (fun u => qualifies nf u = false)
               (set_iter o (generate_name_variations o p))) \/
       (exists before v after,
           set_iter o (generate_name_variations o p)
           = (before ++ v :: after)%list /\
           Forall (fun u => qualifies nf u = false) before /\
           qualifies nf v = true /\
           player_matches o nf p = [partial_match p v])).
Proof.
  intros nf.
  destruct (match_photo_to_player_sorted o photo_name players)
    as (ms & Hms & Hperm & _).
  fold nf in Hperm. rewrite collect_matches_flat_map in Hperm.
  assert (Hone : forall p, List.length (player_matches o nf p) <= 1).
  { intros p.
    destruct (player_matches_shape o nf p) as [H|[H|(v & H & _)]];
      rewrite H; simpl; lia. }
  exists ms. split; [exact Hms|]. split; [exact Hperm|]. split.
  - rewrite (Permutation_length Hperm).
    clear -Hone. induction players as [|p ps IH]; simpl; [lia|].
    rewrite length_app. specialize (Hone p). lia.
  - intros p. split; [apply Hone|]. split.
    + apply player_matches_exact.
    + intros Hm. rewrite (player_matches_partial o nf p Hm).
      pose proof (find_split (qualifies nf)
                    (set_iter o (generate_name_variations o p))) as Hf.
      destruct (find (qualifies nf)
                  (set_iter o (generate_name_variations o p))) as [v|].
      * right. destruct Hf as (before & after & Heq & Hb & Hv).
        exists before, v, after. auto.
      * left. auto.
Qed.

(** C4: every candidate, when it is emitted by the loop and in the result,
    is an exact match of confidence ['high'] or a partial match of
    confidence ['medium']; none has the confidence ['low']. *)
Theorem confidence_agrees_with_match_type (o : SetOrder)
    (photo_name : string) (players : list Player) :
  let consistent (m : Match) :=
    (match_type m = "exact" -> confidence m = "high") /\
    (match_type m = "partial" -> confidence m = "medium") /\
    (match_type m = "exact" \/ match_type m = "partial") /\
    confidence m <> "low" in
  Forall consistent
    (collect_matches o (normalize_name (path_stem photo_name)) players) /\
  exists ms,
    match_photo_to_player o photo_name players = Ok ms /\
    Forall consistent ms.
Proof.
  intros consistent.
  assert (Hall : Forall consistent
            (collect_matches o (normalize_name (path_stem photo_name))
               players)).
  { apply Forall_forall. intros m Hm.
    apply collect_matches_confidence in Hm. unfold consistent.
    destruct Hm as [[Ht Hc]|[Ht Hc]]; rewrite Ht, Hc;
      repeat split; auto; discriminate. }
  split; [exact Hall|].
  destruct (match_photo_to_player_sorted o photo_name players)
    as (ms & Hms & Hperm & _).
  exists ms. split; [exact Hms|].
  eapply Permutation_Forall; [apply Permutation_sym, Hperm|exact Hall].
Qed.

(* ================================================================== *)
(** ** The matcher on rows of any values *)

Lemma raw_name_variations_fails (row : Cells.Row) :
  Cells.full_name_fails row = true ->
  Cells.raw_name_variations row = Throw AttributeError.
Proof.
  unfold Cells.full_name_fails, Cells.raw_name_variations. cbv zeta.
  destruct (Cells.full_name row) as [value|text nonzero tag];
    [intros H; discriminate H|].
  intros ->. reflexivity.
Qed.

Lemma raw_name_variations_returns (row : Cells.Row) :
  Cells.full_name_fails row = false ->
  exists variations, Cells.raw_name_variations row = Return variations.
Proof.
  unfold Cells.full_name_fails, Cells.raw_name_variations. cbv zeta.
  destruct (Cells.full_name row) as [[|s]|text nonzero tag].
  - intros _. cbn [Cells.cell_truthy truthy try_bind]. eauto.
  - intros _. destruct s; cbn [Cells.cell_truthy truthy try_bind
                                Cells.cell_replace]; eauto.
  - intros ->. cbn [Cells.cell_truthy try_bind]. eauto.
Qed.

Lemma cells_partial_match_loop (nf : string) (p : Cells.Row)
    (variations : list string) (matches : list Cells.Match) :
  Forall Cells.consistent matches ->
  Forall Cells.consistent
         (Cells.partial_match_loop nf p variations matches).
Proof.
  intros Hm. induction variations as [|v vs IH]; [exact Hm|].
  cbn [Cells.partial_match_loop].
  destruct (2 <? String.length v)%nat; [|exact IH].
  destruct (Str.contains nf v || Str.contains v nf); [|exact IH].
  apply Forall_app. split; [exact Hm|].
  constructor; [|constructor]. right. split; reflexivity.
Qed.

Lemma cells_match_player_step (oc : Cells.CellOrder) (o : SetOrder)
    (nf : string) (matches : list Cells.Match) (p : Cells.Row) :
  Forall Cells.consistent matches ->
  if Cells.full_name_fails p
  then Cells.match_player_step oc o nf matches p = Throw AttributeError
  else exists matches',
      Cells.match_player_step oc o nf matches p = Return matches' /\
      Forall Cells.consistent matches'.
Proof.
  intros Hm. unfold Cells.match_player_step, Cells.generate_name_variations.
  destruct (Cells.full_name_fails p) eqn:Hfails.
  - rewrite (raw_name_variations_fails p Hfails). reflexivity.
  - destruct (raw_name_variations_returns p Hfails) as (variations & ->).
    cbn [try_bind].
    destruct (set_mem nf _).
    + eexists. split; [reflexivity|].
      apply Forall_app. split; [exact Hm|].
      constructor; [|constructor]. left. split; reflexivity.
    + eexists. split; [reflexivity|].
      apply cells_partial_match_loop, Hm.
Qed.

Lemma cells_collect_throw (oc : Cells.CellOrder) (o : SetOrder)
    (nf : string) (rows : list Cells.Row) (e : Exception) :
  fold_left
    (fun acc p =>
       let* matches := acc in Cells.match_player_step oc o nf matches p)
    rows (Throw e)
  = Throw e.
Proof. induction rows as [|p rows IH]; [reflexivity|exact IH]. Qed.

Lemma cells_collect_fold (oc : Cells.CellOrder) (o : SetOrder)
    (nf : string) (rows : list Cells.Row) (matches : list Cells.Match) :
  Forall Cells.consistent matches ->
  if existsb Cells.full_name_fails rows
  then fold_left
         (fun acc p =>
            let* matches := acc in Cells.match_player_step oc o nf matches p)
         rows (Return matches)
       = Throw AttributeError
  else exists matches',
      fold_left
        (fun acc p =>
           let* matches := acc in Cells.match_player_step oc o nf matches p)
        rows (Return matches)
      = Return matches' /\
      Forall Cells.consistent matches'.
Proof.
  revert matches.
  induction rows as [|p rows IH]; intros matches Hm.
  - cbn [existsb fold_left]. eauto.
  - cbn [existsb fold_left try_bind].
    pose proof (cells_match_player_step oc o nf matches p Hm) as Hstep.
    destruct (Cells.full_name_fails p); cbn [orb].
    + rewrite Hstep. apply cells_collect_throw.
    + destruct Hstep as (matches' & -> & Hm'). apply IH, Hm'.
Qed.

Lemma cells_sort_ok (matches : list Cells.Match) :
  Forall Cells.consistent matches ->
  exists sorted,
    list_sort_reverse Cells.confidence_key matches = Ok sorted /\
    Permutation sorted matches.
Proof.
  intros Hm.
  destruct (list_sort_reverse_ok Cells.confidence_key
              (fun m => match Cells.confidence_key m with
                        | Ok k => k
                        | Raise _ => 0
                        end) matches)
    as (sorted & Hsorted & Hperm & _).
  - eapply Forall_impl; [|exact Hm].
    intros m [[_ Hc]|[_ Hc]]; unfold Cells.confidence_key; rewrite Hc;
      reflexivity.
  - eauto.
Qed.

(** The matcher on rows: it raises when a full name fails, and otherwise
    returns candidates that are consistent. *)
Lemma cells_match_photo_to_player (oc : Cells.CellOrder) (o : SetOrder)
    (photo_name : string) (rows : list Cells.Row) :
  if existsb Cells.full_name_fails rows
  then Cells.match_photo_to_player oc o photo_name rows
       = Throw AttributeError
  else exists matches,
      Cells.match_photo_to_player oc o photo_name rows
      = Return (Ok matches) /\
      Forall Cells.consistent matches.
Proof.
  unfold Cells.match_photo_to_player, Cells.collect_matches. cbv zeta.
  pose proof (cells_collect_fold oc o
                (Cells.normalize_name (Cells.Text (path_stem photo_name)))
                rows [] (Forall_nil _)) as Hfold.
  destruct (existsb Cells.full_name_fails rows).
  - rewrite Hfold. reflexivity.
  - destruct Hfold as (matches & -> & Hm). cbn [try_bind].
    destruct (cells_sort_ok matches Hm) as (sorted & -> & Hperm).
    exists sorted. split; [reflexivity|].
    eapply Permutation_Forall; [apply Permutation_sym, Hperm|exact Hm].
Qed.






Lemma StronglySorted_nth {A : Type} (R : A -> A -> Prop) (l : list A) :
  StronglySorted R l ->
  forall i j a b,
    i < j -> nth_error l i = Some a -> nth_error l j = Some b -> R a b.
Proof.
  induction 1 as [|x l Hl IH Hx]; intros i j a b Hij Ha Hb.
  - destruct i; discriminate.
  - destruct j as [|j]; [lia|]. simpl in Hb.
    destruct i as [|i]; simpl in Ha.
    + injection Ha as <-. rewrite Forall_forall in Hx.
      apply Hx. eapply nth_error_In, Hb.
    + apply (IH i j); [lia|assumption|assumption].
Qed.

Lemma filter_flat_map {A B : Type} (f : B -> bool) (g : A -> list B)
    (l : list A) :
  filter f (flat_map g l) = flat_map (fun x => filter f (g x)) l.
Proof.
  induction l as [|x l IH]; simpl; [reflexivity|].
  rewrite filter_app, IH. reflexivity.
Qed.

Lemma has_confidence_as_rank (c : string) :
  exists n, forall m,
    confidence m = "high" \/ confidence m = "medium" ->
    has_confidence c m = Nat.eqb (rank m) n.
Proof.
  unfold has_confidence, rank, confidence_key.
  destruct (string_dec c "high") as [->|Hh].
  { exists 3. intros m [H|H]; rewrite H; reflexivity. }
  destruct (string_dec c "medium") as [->|Hm].
  { exists 2. intros m [H|H]; rewrite H; reflexivity. }
  exists 0. intros m [H|H]; rewrite H;
    (transitivity false; [apply String.eqb_neq; congruence|reflexivity]).
Qed.

Lemma contributions_subseq (g : Player -> list Match) (players : list Player) :
  (forall p, g p = [] \/ exists m, g p = [m] /\ player m = p) ->
  Subseq (map player (flat_map g players)) players.
Proof.
  intros Hg. induction players as [|p ps IH]; simpl; [constructor|].
  destruct (Hg p) as [->|(m & -> & <-)]; simpl.
  - apply Subseq_skip, IH.
  - apply Subseq_take, IH.
Qed.

(** C2: the result is sorted by decreasing confidence, so that every
    ['high'] candidate stands before every ['medium'] one, and the sort is
    stable: for each confidence, the candidates of that confidence are those
    contributed by the roster rows, in roster order, and their players form
    a subsequence of the roster. *)
Theorem result_sorted_by_confidence_stable (o : SetOrder)
    (photo_name : string) (players : list Player) :
  let nf := normalize_name (path_stem photo_name) in
  exists ms,
    match_photo_to_player o photo_name players = Ok ms /\
    StronglySorted (fun a b => rank b <= rank a) ms /\
    (forall i j a b,
        nth_error ms i = Some a -> nth_error ms j = Some b ->
        confidence a = "high" -> confidence b = "medium" -> i < j) /\
    (forall c,
        filter (has_confidence c) ms =
        flat_map (fun p => filter (has_confidence c) (player_matches o nf p))
                 players) /\
    (forall c, Subseq (map player (filter (has_confidence c) ms)) players).
Proof.
  intros nf.
  destruct (match_photo_to_player_sorted o photo_name players)
    as (ms & Hms & Hperm & Hsorted & Hstable).
  fold nf in Hperm, Hstable.
  assert (Hconf : forall l, Permutation l (collect_matches o nf players) ->
            forall m, In m l ->
                 confidence m = "high" \/ confidence m = "medium").
  { intros l Hl m Hm.
    destruct (collect_matches_confidence o nf players m) as [[_ H]|[_ H]];
      [eapply Permutation_in; eassumption| |]; auto. }
  assert (Hfilter : forall c,
            filter (has_confidence c) ms =
            flat_map (fun p => filter (has_confidence c)
                                      (player_matches o nf p)) players).
  { intros c. destruct (has_confidence_as_rank c) as (n & Hn).
    rewrite <- filter_flat_map, <- collect_matches_flat_map.
    rewrite (filter_ext_in (has_confidence c)
               (fun m => Nat.eqb (rank m) n) ms)
      by (intros m Hm; apply Hn, (Hconf ms Hperm m Hm)).
    rewrite (filter_ext_in (has_confidence c)
               (fun m => Nat.eqb (rank m) n) (collect_matches o nf players))
      by (intros m Hm; apply Hn, (Hconf _ (Permutation_refl _) m Hm)).
    apply Hstable. }
  exists ms. split; [exact Hms|]. split; [exact Hsorted|]. split; [|split].
  - intros i j a b Ha Hb Hca Hcb.
    destruct (Nat.lt_trichotomy i j) as [Hlt|[Heq|Hgt]]; [exact Hlt| |].
    + subst j. rewrite Ha in Hb. injection Hb as <-.
      rewrite Hca in Hcb. discriminate.
    + pose proof (StronglySorted_nth _ ms Hsorted j i b a Hgt Hb Ha) as Hle.
      unfold rank, confidence_key in Hle. rewrite Hca, Hcb in Hle.
      simpl in Hle. lia.
  - exact Hfilter.
  - intros c. rewrite Hfilter. apply contributions_subseq.
    intros p.
    destruct (player_matches_shape o nf p) as [H|[H|(v & H & _)]];
      rewrite H; simpl.
    + left. reflexivity.
    + destruct (has_confidence c (exact_match p nf)); [right|left]; eauto.
    + destruct (has_confidence c (partial_match p v)); [right|left]; eauto.
Qed.

(** C6: a variation of two characters or fewer never makes a partial
    match.  If every variation of a player is shorter than three characters,
    no candidate of the result names that player as a partial match, whatever
    the filename contains; and every partial candidate of any result reports
    a variation longer than two characters. *)
Theorem short_variations_never_partial (o : SetOrder) (photo_name : string)
    (players : list Player) (p : Player) :
  (forall v, In v (generate_name_variations o p) -> String.length v < 3) ->
  exists ms,
    match_photo_to_player o photo_name players = Ok ms /\
    (forall m, In m ms -> player m = p -> match_type m <> "partial") /\
    (forall m, In m ms -> match_type m = "partial" ->
               2 < String.length (matched_variation m)).
Proof.
  intros Hshort.
  destruct (match_photo_to_player_sorted o photo_name players)
    as (ms & Hms & Hperm & _).
  exists ms. split; [exact Hms|].
  assert (Hshape : forall m, In m ms ->
            m = exact_match (player m)
                  (normalize_name (path_stem photo_name)) \/
            exists v, m = partial_match (player m) v /\
                      2 < String.length v /\
                      In v (generate_name_variations o (player m))).
  { intros m Hm.
    apply (Permutation_in _ Hperm), collect_matches_shape in Hm.
    destruct Hm as [_ [H|(v & H & Hq & Hv)]]; [left; exact H|].
    right. exists v. split; [exact H|]. split; [|exact Hv].
    unfold qualifies in Hq. apply andb_true_iff in Hq.
    apply Nat.ltb_lt, Hq. }
  split.
  - intros m Hm Hp. destruct (Hshape m Hm) as [->|(v & Heq & Hlen & Hv)].
    + discriminate.
    + rewrite Hp in Hv. specialize (Hshort v Hv). lia.
  - intros m Hm Ht. destruct (Hshape m Hm) as [Heq|(v & -> & Hlen & _)].
    + rewrite Heq in Ht. discriminate.
    + exact Hlen.
Qed.

(** A row whose only variation is ["jo"] and a filename that contains it:
    no candidate comes out. *)
Lemma short_variations_never_partial_witness :
  (forall v,
      In v (generate_name_variations insertion_order (only_full_name "Jo")) ->
      String.length v < 3) /\
  Str.contains (normalize_name (path_stem "jo_photo.jpg")) "jo" = true /\
  exists ms,
    match_photo_to_player insertion_order "jo_photo.jpg"
      [only_full_name "Jo"] = Ok ms /\
    (forall m, In m ms -> player m = only_full_name "Jo" ->
               match_type m <> "partial") /\
    (forall m, In m ms -> match_type m = "partial" ->
               2 < String.length (matched_variation m)).
Proof.
  assert (H : forall v,
             In v (generate_name_variations insertion_order
                     (only_full_name "Jo")) ->
             String.length v < 3).
  { simpl. intros v [<-|[]]. simpl. lia. }
  split; [exact H|]. split; [reflexivity|].
  exact (short_variations_never_partial insertion_order "jo_photo.jpg"
           [only_full_name "Jo"] (only_full_name "Jo") H).
Defined.

(** ** Worked scenarios *)

(** C7: for the roster made of Jane Doe alone (first name, last name and
    full name given, no parent), the filename ["Jane_Doe.jpg"] yields exactly
    one candidate, an exact match of confidence ['high'] for her, whatever
    the iteration order of the sets. *)
Theorem scenario_exact_match (o : SetOrder) (sid : PyValue) :
  match_photo_to_player o "Jane_Doe.jpg" [jane_doe sid "Jane Doe"]
  = Ok [ {| player := jane_doe sid "Jane Doe";
            confidence := "high";
            match_type := "exact";
            matched_variation := "jane_doe" |} ].
Proof.
  unfold match_photo_to_player. cbv zeta.
  replace (normalize_name (path_stem "Jane_Doe.jpg")) with "jane_doe"
    by (vm_compute; reflexivity).
  rewrite collect_matches_flat_map. cbn [flat_map].
  rewrite player_matches_exact; [reflexivity|].
  rewrite (variations_mem_order o insertion_order).
  vm_compute. reflexivity.
Qed.

(** C10: for the roster made of Jane Doe alone (first and last name only),
    the filename ["team_photo_janedoe_2025.png"] yields one partial candidate
    of confidence ['medium'] for her.  The variation ["Jane.Doe"] normalizes
    to ["janedoe"], the period being deleted with no space in its place, and
    that string occurs in the normalized stem; depending on the iteration
    order the variation reported is ["janedoe"], ["jane"] or ["doe"]. *)
Theorem scenario_partial_match (o : SetOrder) (sid : PyValue) :
  let p := jane_doe sid "" in
  let stem := normalize_name (path_stem "team_photo_janedoe_2025.png") in
  stem = "team_photo_janedoe_2025" /\
  normalize_name "Jane.Doe" = "janedoe" /\
  In "janedoe" (generate_name_variations o p) /\
  Str.contains stem "janedoe" = true /\
  exists v,
    match_photo_to_player o "team_photo_janedoe_2025.png" [p]
    = Ok [ {| player := p;
              confidence := "medium";
              match_type := "partial";
              matched_variation := v |} ] /\
    (v = "janedoe" \/ v = "jane" \/ v = "doe").
Proof.
  intros p stem.
  assert (Hstem : stem = "team_photo_janedoe_2025")
    by (vm_compute; reflexivity).
  assert (Hnf : normalize_name (path_stem "team_photo_janedoe_2025.png")
                = "team_photo_janedoe_2025")
    by (vm_compute; reflexivity).
  clearbody stem. subst stem.
  assert (Hlist : generate_name_variations insertion_order p
                  = ["jane doe"; "doe jane"; "jane_doe"; "doe_jane";
                     "janedoe"; "doejane"; "jane"; "doe"])
    by (vm_compute; reflexivity).
  clearbody p.
  assert (Hin : In "janedoe" (generate_name_variations o p)).
  { apply (generate_name_variations_order o insertion_order).
    rewrite Hlist. simpl. tauto. }
  split; [reflexivity|]. split; [vm_compute; reflexivity|].
  split; [exact Hin|]. split; [vm_compute; reflexivity|].
  assert (Hmem : set_mem "team_photo_janedoe_2025"
                   (generate_name_variations o p) = false).
  { rewrite (variations_mem_order o insertion_order), Hlist.
    vm_compute. reflexivity. }
  pose proof (player_matches_partial o _ p Hmem) as Hpm.
  pose proof (find_split (qualifies "team_photo_janedoe_2025")
                (set_iter o (generate_name_variations o p))) as Hf.
  destruct (find (qualifies "team_photo_janedoe_2025")
              (set_iter o (generate_name_variations o p))) as [v|].
  - exists v. split.
    + unfold match_photo_to_player. cbv zeta. rewrite Hnf.
      rewrite collect_matches_flat_map. cbn [flat_map].
      rewrite Hpm. reflexivity.
    + destruct Hf as (before & after & Heq & _ & Hq).
      assert (Hv : In v (generate_name_variations insertion_order p)).
      { apply (generate_name_variations_order o insertion_order).
        eapply Permutation_in; [apply set_iter_perm|].
        rewrite Heq. apply in_elt. }
      rewrite Hlist in Hv. simpl in Hv.
      repeat (destruct Hv as [<-|Hv];
              [first [vm_compute in Hq; discriminate Hq|tauto]|]).
      contradiction.
  - exfalso. rewrite Forall_forall in Hf.
    assert (Hq : qualifies "team_photo_janedoe_2025" "janedoe" = false).
    { apply Hf. eapply Permutation_in;
        [apply Permutation_sym, set_iter_perm|exact Hin]. }
    vm_compute in Hq. discriminate Hq.
Qed.

(** ** Main property of [create_photo_mappings] *)

Lemma slice_alternatives {A B : Type} (f : A -> B) (l : list A) :
  (if (1 <? List.length l)%nat then map f (py_slice 1 3 l) else [])
  = map f (at_index 1 l ++ at_index 2 l)%list.
Proof. destruct l as [|a [|b [|c l]]]; reflexivity. Qed.

(** C8: in the mapping built for a photo, the first element of the match
    result gives the matched player, its confidence and its match type; the
    alternatives are the elements at index 1 and 2 of the result, when
    present, and no other, each shown as the full name of its player followed
    by its confidence in parentheses; a photo with an empty result is reported
    with confidence ['medium'], match type ['no_match'], an empty matched
    player and no alternative.  One mapping is built per photo, in order. *)
Theorem create_photo_mappings_best_match (o : SetOrder)
    (photos : list Photo.t) (players : list Player) :
  exists mappings,
    create_photo_mappings o photos players = Ok mappings /\
    Forall2
      (fun photo mapping =>
         exists matches,
           match_photo_to_player o (Photo.name photo) players = Ok matches /\
           Mapping.photo_id mapping = Photo.id photo /\
           Mapping.filename mapping = Photo.name photo /\
           Mapping.thumbnail_url mapping = Photo.thumbnailLink photo /\
           Mapping.direct_link mapping = Photo.directLink photo /\
           Mapping.alternative_matches mapping
           = map (fun m =>
                    py_str (full_name (player m))
                    ++ " (" ++ confidence m ++ ")")
               (at_index 1 matches ++ at_index 2 matches)%list /\
           match matches with
           | best_match :: _ =>
               Mapping.matched_player mapping
               = full_name (player best_match) /\
               Mapping.student_id mapping
               = student_id (player best_match) /\
               Mapping.confidence mapping = confidence best_match /\
               Mapping.match_type mapping = match_type best_match /\
               Mapping.matched_variation mapping
               = matched_variation best_match
           | [] =>
               Mapping.matched_player mapping = "" /\
               Mapping.student_id mapping = "" /\
               Mapping.confidence mapping = "medium" /\
               Mapping.match_type mapping = "no_match" /\
               Mapping.matched_variation mapping = "" /\
               Mapping.alternative_matches mapping = []
           end)
      photos mappings.
Proof.
  assert (Hgen : forall photos acc,
    exists added,
      fold_left (create_mapping_step o players) photos (Ok acc)
      = Ok (acc ++ added)%list /\
      Forall2
        (fun photo mapping =>
           exists matches,
             match_photo_to_player o (Photo.name photo) players = Ok matches /\
             mapping = photo_mapping photo matches)
        photos added).
  { clear photos. induction photos as [|photo photos IH]; intros acc.
    - exists []. simpl. rewrite app_nil_r. split; [reflexivity|constructor].
    - destruct (match_photo_to_player_sorted o (Photo.name photo) players)
        as (matches & Hms & _).
      destruct (IH (acc ++ [photo_mapping photo matches])%list)
        as (added & Hfold & Hall).
      exists (photo_mapping photo matches :: added). split.
      + cbn [fold_left]. unfold create_mapping_step at 2. cbn [bind].
        rewrite Hms. cbn [bind]. rewrite Hfold, <- app_assoc. reflexivity.
      + constructor; [eauto|exact Hall]. }
  unfold create_photo_mappings.
  destruct (Hgen photos []) as (mappings & Hfold & Hall).
  exists mappings. split; [exact Hfold|].
  eapply Forall2_impl; [|exact Hall].
  intros photo mapping (matches & Hms & ->).
  exists matches. split; [exact Hms|].
  destruct matches as [|best_match rest].
  - simpl. repeat split.
  - cbn [photo_mapping Mapping.photo_id Mapping.filename
         Mapping.thumbnail_url Mapping.direct_link
         Mapping.alternative_matches Mapping.matched_player
         Mapping.student_id Mapping.confidence Mapping.match_type
         Mapping.matched_variation].
    rewrite slice_alternatives. repeat split.
Qed.

(** ** A filename without usable characters *)

Lemma contains_empty (s : string) : Str.contains s "" = true.
Proof. destruct s; reflexivity. Qed.

(** X1: when the stem of the filename normalizes to the empty string (an
    empty filename, or one made of punctuation only), every roster row that
    has a variation longer than two characters is returned as a partial
    match, because the empty string is contained in every variation. *)
Theorem empty_stem_matches_every_row (o : SetOrder) (photo_name : string)
    (players : list Player) :
  normalize_name (path_stem photo_name) = "" ->
  exists ms,
    match_photo_to_player o photo_name players = Ok ms /\
    forall p,
      In p players ->
      (exists v, In v (generate_name_variations o p) /\
                 2 < String.length v) ->
      exists v, In (partial_match p v) ms.
Proof.
  intros Hnf.
  destruct (match_photo_to_player_sorted o photo_name players)
    as (ms & Hms & Hperm & _).
  rewrite Hnf in Hperm. exists ms. split; [exact Hms|].
  intros p Hp (v & Hv & Hlen).
  assert (Hmem : set_mem "" (generate_name_variations o p) = false).
  { apply not_true_is_false. intros Hm. apply set_mem_In in Hm.
    apply generate_name_variations_In in Hm.
    destruct Hm as (raw & _ & _ & Hne). congruence. }
  pose proof (player_matches_partial o "" p Hmem) as Hpm.
  pose proof (find_split (qualifies "")
                (set_iter o (generate_name_variations o p))) as Hf.
  destruct (find (qualifies "")
              (set_iter o (generate_name_variations o p))) as [u|].
  - exists u. eapply Permutation_in; [apply Permutation_sym, Hperm|].
    rewrite collect_matches_flat_map. apply in_flat_map.
    exists p. split; [exact Hp|]. rewrite Hpm. left. reflexivity.
  - exfalso. rewrite Forall_forall in Hf.
    assert (Hq : qualifies "" v = false).
    { apply Hf. eapply Permutation_in;
        [apply Permutation_sym, set_iter_perm|exact Hv]. }
    unfold qualifies in Hq. rewrite contains_empty, orb_true_r in Hq.
    apply Nat.ltb_lt in Hlen. rewrite Hlen in Hq. discriminate Hq.
Qed.

(** The filename ["!!!.png"] against Jane Doe. *)
Lemma empty_stem_matches_every_row_witness :
  normalize_name (path_stem "!!!.png") = "" /\
  exists ms,
    match_photo_to_player insertion_order "!!!.png" [jane_doe "17" ""]
    = Ok ms /\
    forall p,
      In p [jane_doe "17" ""] ->
      (exists v, In v (generate_name_variations insertion_order p) /\
                 2 < String.length v) ->
      exists v, In (partial_match p v) ms.
Proof.
  split; [reflexivity|].
  apply (empty_stem_matches_every_row insertion_order "!!!.png"
           [jane_doe "17" ""]).
  reflexivity.
Defined.

(* ================================================================== *)
(** ** Prefixes, occurrences and splitting *)

Lemma prefix_empty (s : string) : String.prefix "" s = true.
Proof. destruct s; reflexivity. Qed.

Lemma prefix_app_iff (p s : string) :
  String.prefix p s = true <-> exists r, s = p ++ r.
Proof.
  revert s. induction p as [|a p IH]; intros s.
  - rewrite prefix_empty. split; [intros _; exists s|]; reflexivity.
  - destruct s as [|b s]; simpl.
    + split; [discriminate|]. intros (r & Hr). discriminate.
    + destruct (Ascii.ascii_dec a b) as [->|Hab].
      * rewrite IH. split.
        -- intros (r & ->). eauto.
        -- intros (r & Hr). injection Hr as ->. eauto.
      * split; [discriminate|]. intros (r & Hr). congruence.
Qed.

Lemma contains_iff (s sub : string) :
  Str.contains s sub = true <-> exists pre post, s = pre ++ sub ++ post.
Proof.
  induction s as [|c s IH]; cbn [Str.contains].
  - rewrite orb_false_r, prefix_app_iff. split.
    + intros (r & Hr). exists "", r. exact Hr.
    + intros (pre & post & H). destruct pre; [eauto|discriminate].
  - rewrite orb_true_iff, IH, prefix_app_iff. split.
    + intros [(r & Hr)|(pre & post & ->)].
      * exists "", r. exact Hr.
      * exists (String c pre), post. reflexivity.
    + intros (pre & post & H). destruct pre as [|d pre].
      * left. eauto.
      * right. simpl in H. injection H as -> ->. eauto.
Qed.

Lemma contains_false_iff (s sub : string) :
  Str.contains s sub = false <->
  forall pre post, s <> pre ++ sub ++ post.
Proof.
  rewrite <- not_true_iff_false, contains_iff. split.
  - intros H pre post Heq. apply H. eauto.
  - intros H (pre & post & Heq). exact (H pre post Heq).
Qed.

Lemma append_assoc (a b c : string) : (a ++ b) ++ c = a ++ b ++ c.
Proof. induction a as [|x a IH]; simpl; [reflexivity|]. rewrite IH. reflexivity. Qed.

Lemma append_empty_r (a : string) : a ++ "" = a.
Proof. induction a as [|x a IH]; simpl; [reflexivity|]. rewrite IH. reflexivity. Qed.

Lemma length_append (a b : string) :
  String.length (a ++ b) = String.length a + String.length b.
Proof. induction a as [|x a IH]; simpl; [reflexivity|]. rewrite IH. reflexivity. Qed.

Lemma contains_suffix (s a b : string) :
  Str.contains s (a ++ b) = true -> Str.contains s b = true.
Proof.
  rewrite !contains_iff. intros (pre & post & ->).
  exists (pre ++ a), post. rewrite !append_assoc. reflexivity.
Qed.

Lemma str_drop_app (p r : string) : str_drop (String.length p) (p ++ r) = r.
Proof. induction p as [|a p IH]; simpl; [destruct r; reflexivity|exact IH]. Qed.

Lemma cut_some (sep s before after : string) :
  cut sep s = Some (before, after) -> s = before ++ sep ++ after.
Proof.
  revert before after. induction s as [|c s IH]; intros before after;
    cbn [cut].
  - destruct (String.prefix sep "") eqn:Hp; [|discriminate].
    intros H. injection H as <- <-. apply prefix_app_iff in Hp.
    destruct Hp as (r & Hr). destruct sep; [reflexivity|discriminate].
  - destruct (String.prefix sep (String c s)) eqn:Hp.
    + intros H. injection H as <- <-. apply prefix_app_iff in Hp.
      destruct Hp as (r & Hr). rewrite Hr, str_drop_app. reflexivity.
    + destruct (cut sep s) as [[b a]|]; [|discriminate].
      intros H. injection H as <- <-. simpl. rewrite (IH b a eq_refl).
      reflexivity.
Qed.

Lemma cut_none (sep s : string) :
  cut sep s = None <-> Str.contains s sep = false.
Proof.
  induction s as [|c s IH]; cbn [cut Str.contains].
  - rewrite orb_false_r. destruct (String.prefix sep ""); split; congruence.
  - destruct (String.prefix sep (String c s)); cbn [orb].
    + split; discriminate.
    + rewrite <- IH. destruct (cut sep s) as [[b a]|]; split; congruence.
Qed.

Lemma cut_shorter (sep s before after : string) :
  sep <> "" -> cut sep s = Some (before, after) ->
  String.length after < String.length s.
Proof.
  intros Hsep Hcut. apply cut_some in Hcut. subst s.
  rewrite !length_append. destruct sep; [congruence|simpl; lia].
Qed.

(** The piece that follows the first separator: it ends at the next
    separator, or with the string. *)
Lemma split_fuel_head (fuel : nat) (sep s : string) :
  sep <> "" -> String.length s <= fuel ->
  hd_error (split_fuel fuel sep s)
  = Some match cut sep s with
         | Some (before, _) => before
         | None => s
         end.
Proof.
  intros Hsep Hlen. destruct fuel as [|fuel]; simpl.
  - destruct s; [|simpl in Hlen; lia].
    destruct sep; [congruence|reflexivity].
  - destruct (cut sep s) as [[b a]|]; reflexivity.
Qed.

Lemma py_split_second (sep s before after : string) :
  sep <> "" -> cut sep s = Some (before, after) ->
  list_index (py_split sep s) 1
  = Return match cut sep after with
           | Some (piece, _) => piece
           | None => after
           end.
Proof.
  intros Hsep Hcut. unfold py_split, list_index.
  pose proof (cut_shorter sep s before after Hsep Hcut) as Hlen.
  destruct (String.length s) as [|n] eqn:Hn; [lia|].
  cbn [split_fuel]. rewrite Hcut. cbn [nth_error].
  pose proof (split_fuel_head n sep after Hsep ltac:(lia)) as Hhd.
  destruct (split_fuel n sep after) as [|w ws]; [discriminate|].
  simpl in Hhd. injection Hhd as ->. reflexivity.
Qed.

(** The first piece of a one-character split: the longest prefix without
    the separator. *)
Lemma split_first (c : ascii) (s : string) :
  exists w ws r,
    Str.split c s = w :: ws /\ s = w ++ r /\
    all_chars (fun x => x <> c) w /\
    (r = "" \/ exists r', r = String c r').
Proof.
  induction s as [|d s IH]; simpl.
  - exists "", [], "". simpl. auto.
  - destruct (Ascii.eqb d c) eqn:Hdc.
    + apply Ascii.eqb_eq in Hdc. subst d.
      exists "", (Str.split c s), (String c s). simpl.
      repeat split. right. exists s. reflexivity.
    + apply Ascii.eqb_neq in Hdc.
      destruct IH as (w & ws & r & -> & Hs & Hw & Hr).
      exists (String d w), ws, r. simpl. rewrite Hs at 1.
      repeat split; auto.
Qed.

Lemma list_index_split_first (c : ascii) (s : string) :
  exists w r,
    list_index (Str.split c s) 0 = Return w /\ s = w ++ r /\
    all_chars (fun x => x <> c) w /\
    (r = "" \/ exists r', r = String c r').
Proof.
  destruct (split_first c s) as (w & ws & r & Hsplit & H).
  exists w, r. rewrite Hsplit. split; [reflexivity|exact H].
Qed.

Lemma cut_at_separator (sep rest : string) :
  cut sep (sep ++ rest) = Some ("", rest).
Proof.
  assert (Hp : String.prefix sep (sep ++ rest) = true)
    by (apply prefix_app_iff; eauto).
  destruct (sep ++ rest) as [|c s] eqn:Heq; cbn [cut]; rewrite Hp;
    rewrite <- Heq, str_drop_app; reflexivity.
Qed.

(** Where no occurrence of [sep] starts inside [x], the first cut of
    [x ++ y] is the first cut of [y]. *)
Lemma cut_skip (sep x y : string) :
  (forall x1 x2, x = x1 ++ x2 -> x2 <> "" ->
                 String.prefix sep (x2 ++ y) = false) ->
  cut sep (x ++ y)
  = match cut sep y with
    | Some (before, after) => Some (x ++ before, after)
    | None => None
    end.
Proof.
  induction x as [|c x IH]; intros Hx.
  - simpl. destruct (cut sep y) as [[b a]|]; reflexivity.
  - cbn [append cut].
    pose proof (Hx "" (String c x) eq_refl ltac:(discriminate)) as H0.
    cbn [append] in H0. rewrite H0, IH.
    + destruct (cut sep y) as [[b a]|]; reflexivity.
    + intros x1 x2 -> Hne. apply (Hx (String c x1) x2 eq_refl Hne).
Qed.

Lemma prefix_within (d : ascii) (r sep x : string) :
  all_chars (fun c => c <> d) sep ->
  String.prefix sep (x ++ String d r) = true -> String.prefix sep x = true.
Proof.
  revert x. induction sep as [|a sep IH]; intros x Hsep Hp.
  - apply prefix_empty.
  - destruct Hsep as [Ha Hsep]. destruct x as [|b x]; simpl in Hp |- *.
    + destruct (Ascii.ascii_dec a d); [congruence|discriminate].
    + destruct (Ascii.ascii_dec a b); [|discriminate]. apply IH; assumption.
Qed.

(** An occurrence of [sep] cannot start inside [x] and run over a
    character that [sep] holds only in first position, or not at all. *)
Lemma prefix_straddle (a d : ascii) (sep x r : string) :
  x <> "" -> all_chars (fun c => c <> d) sep ->
  String.prefix (String a sep) (x ++ String d r) = true ->
  String.prefix (String a sep) x = true.
Proof.
  intros Hx Hsep Hp. destruct x as [|b x]; [congruence|].
  simpl in Hp |- *. destruct (Ascii.ascii_dec a b); [|discriminate].
  eapply prefix_within; eassumption.
Qed.

Lemma no_occurrence_before (a d : ascii) (sep x r : string) :
  all_chars (fun c => c <> d) sep ->
  Str.contains x (String a sep) = false ->
  forall x1 x2, x = x1 ++ x2 -> x2 <> "" ->
                String.prefix (String a sep) (x2 ++ String d r) = false.
Proof.
  intros Hsep Hx x1 x2 -> Hne. apply not_true_is_false. intros Hp.
  apply prefix_straddle in Hp; [|assumption|assumption].
  apply prefix_app_iff in Hp. destruct Hp as (r' & ->).
  rewrite contains_false_iff in Hx. apply (Hx x1 r'). reflexivity.
Qed.

Lemma no_occurrence_at_end (sep x : string) :
  Str.contains x sep = false ->
  forall x1 x2, x = x1 ++ x2 -> x2 <> "" ->
                String.prefix sep (x2 ++ "") = false.
Proof.
  intros Hx x1 x2 -> Hne. rewrite append_empty_r.
  apply not_true_is_false. intros Hp.
  apply prefix_app_iff in Hp. destruct Hp as (r' & ->).
  rewrite contains_false_iff in Hx. apply (Hx x1 r'). reflexivity.
Qed.

(** The second piece of [(x ++ sep ++ y ++ tail).split(sep)] when [sep]
    occurs neither in [x] nor in [y], does not overlap itself, and [tail]
    is empty or starts with a character foreign to [sep]: it is [y]
    followed by a part of [tail] that starts like [tail]. *)
Lemma py_split_second_piece (a : ascii) (sep x y tail : string) :
  all_chars (fun c => c <> a) sep ->
  Str.contains x (String a sep) = false ->
  Str.contains y (String a sep) = false ->
  (tail = "" \/
   exists d t, tail = String d t /\ d <> a /\
               all_chars (fun c => c <> d) sep) ->
  exists rest,
    list_index (py_split (String a sep) (x ++ String a sep ++ y ++ tail)) 1
    = Return (y ++ rest) /\
    (tail = "" -> rest = "") /\
    (forall d t, tail = String d t -> exists t', rest = String d t').
Proof.
  intros Hsep Hx Hy Htail.
  assert (Hcut : cut (String a sep) (x ++ String a sep ++ y ++ tail)
                 = Some (x, y ++ tail)).
  { change (String a sep ++ y ++ tail)
      with (String a (sep ++ y ++ tail)).
    rewrite cut_skip
      by (apply (no_occurrence_before a a sep x); assumption).
    change (String a (sep ++ y ++ tail))
      with (String a sep ++ y ++ tail).
    rewrite cut_at_separator, append_empty_r. reflexivity. }
  assert (Hne : String a sep <> "") by discriminate.
  rewrite (py_split_second _ _ _ _ Hne Hcut).
  destruct Htail as [->|(d & t & -> & Hd & Hsepd)].
  - exists "". rewrite append_empty_r.
    pose proof (proj2 (cut_none (String a sep) y) Hy) as Hnone.
    rewrite Hnone.
    split; [reflexivity|]. split; [reflexivity|].
    intros d t H. discriminate H.
  - rewrite cut_skip
      by (apply (no_occurrence_before a d sep y); assumption).
    assert (Hhead : String.prefix (String a sep) (String d t) = false).
    { simpl. destruct (Ascii.ascii_dec a d); [congruence|reflexivity]. }
    cbn [cut]. rewrite Hhead.
    destruct (cut (String a sep) t) as [[b after]|].
    + exists (String d b). split; [reflexivity|].
      split; [intros H; discriminate H|].
      intros d' t' H. injection H as <- <-. eauto.
    + exists (String d t). split; [reflexivity|].
      split; [intros H; discriminate H|].
      intros d' t' H. injection H as <- <-. eauto.
Qed.

Lemma split_app_clean (c : ascii) (x y : string) :
  all_chars (fun a => a <> c) x ->
  Str.split c (x ++ y)
  = match Str.split c y with
    | w :: ws => (x ++ w) :: ws
    | [] => [x]
    end.
Proof.
  induction x as [|a x IH]; intros Hx.
  - simpl. destruct (split_first c y) as (w & ws & r & -> & _).
    reflexivity.
  - destruct Hx as [Ha Hx]. cbn [append Str.split].
    apply Ascii.eqb_neq in Ha. rewrite Ha, (IH Hx).
    destruct (Str.split c y); reflexivity.
Qed.

Lemma first_piece_clean (c : ascii) (x : string) :
  all_chars (fun a => a <> c) x ->
  list_index (Str.split c x) 0 = Return x.
Proof.
  intros Hx. rewrite <- (append_empty_r x) at 1.
  rewrite split_app_clean by assumption. simpl.
  rewrite append_empty_r. reflexivity.
Qed.

Lemma first_piece_stop (c : ascii) (x t : string) :
  all_chars (fun a => a <> c) x ->
  list_index (Str.split c (x ++ String c t)) 0 = Return x.
Proof.
  intros Hx. rewrite split_app_clean by assumption.
  cbn [Str.split]. rewrite Ascii.eqb_refl. cbn.
  rewrite append_empty_r. reflexivity.
Qed.

Lemma first_piece_pass (c d : ascii) (x t : string) :
  all_chars (fun a => a <> c) x -> d <> c ->
  exists w, list_index (Str.split c (x ++ String d t)) 0
            = Return (x ++ String d w).
Proof.
  intros Hx Hd. rewrite split_app_clean by assumption.
  cbn [Str.split]. apply Ascii.eqb_neq in Hd. rewrite Hd.
  destruct (Str.split c t) as [|w ws]; cbn; eauto.
Qed.

(* ================================================================== *)
(** ** extract_folder_id *)

Lemma py_split_second_exists (sep s : string) :
  sep <> "" -> Str.contains s sep = true ->
  exists before after piece rest,
    s = before ++ sep ++ after /\ after = piece ++ rest /\
    list_index (py_split sep s) 1 = Return piece.
Proof.
  intros Hsep Hs.
  destruct (cut sep s) as [[before after]|] eqn:Hcut;
    [|apply cut_none in Hcut; congruence].
  rewrite (py_split_second sep s before after Hsep Hcut).
  exists before, after.
  destruct (cut sep after) as [[piece rest]|] eqn:Hcut2.
  - exists piece, (sep ++ rest). split; [apply cut_some, Hcut|].
    split; [apply cut_some, Hcut2|reflexivity].
  - exists after, "". rewrite append_empty_r.
    split; [apply cut_some, Hcut|]. split; reflexivity.
Qed.

(** X2: [extract_folder_id] raises [ValueError] exactly for the URLs that
    hold neither ["folders/"] nor ["/open?id="]; for every other URL it
    returns an id: none of its list indexings goes out of range. *)
Theorem extract_folder_id_errors (drive_url : string) :
  if Str.contains drive_url "folders/" || Str.contains drive_url "/open?id="
  then exists folder_id, extract_folder_id drive_url = Return folder_id
  else extract_folder_id drive_url
       = Throw (ValueError
                  ("Could not extract folder ID from URL: " ++ drive_url)).
Proof.
  unfold extract_folder_id.
  destruct (Str.contains drive_url "folders/") eqn:Hf; cbn [orb].
  - destruct (py_split_second_exists "folders/" drive_url
                ltac:(discriminate) Hf)
      as (before & after & piece & rest & _ & _ & ->).
    cbn [try_bind].
    destruct (list_index_split_first "?" piece) as (w & r & -> & _).
    cbn [try_bind].
    destruct (list_index_split_first "&" w) as (w' & r' & -> & _).
    eauto.
  - destruct (Str.contains drive_url "/open?id=") eqn:Ho; [|reflexivity].
    assert (Hid : Str.contains drive_url "id=" = true)
      by (apply (contains_suffix drive_url "/open?" "id="), Ho).
    destruct (py_split_second_exists "id=" drive_url
                ltac:(discriminate) Hid)
      as (before & after & piece & rest & _ & _ & ->).
    cbn [try_bind].
    destruct (list_index_split_first "&" piece) as (w & r & -> & _).
    eauto.
Qed.

(** X3: an id returned by [extract_folder_id] is a part of the URL that
    holds no ['&']; when the URL holds ["folders/"] it holds no ['?']
    either. *)
Theorem extract_folder_id_clean (drive_url : string) :
  match extract_folder_id drive_url with
  | Return folder_id =>
      all_chars (fun c => c <> "&"%char) folder_id /\
      Str.contains drive_url folder_id = true /\
      (Str.contains drive_url "folders/" = true ->
       all_chars (fun c => c <> "?"%char) folder_id)
  | Throw _ => True
  end.
Proof.
  unfold extract_folder_id.
  destruct (Str.contains drive_url "folders/") eqn:Hf.
  - destruct (py_split_second_exists "folders/" drive_url
                ltac:(discriminate) Hf)
      as (before & after & piece & rest & Hurl & Hafter & ->).
    cbn [try_bind].
    destruct (list_index_split_first "?" piece)
      as (w & r & -> & Hpiece & Hw & _).
    cbn [try_bind].
    destruct (list_index_split_first "&" w)
      as (w' & r' & -> & Hw' & Hclean & _).
    split; [exact Hclean|]. split.
    + apply contains_iff. exists (before ++ "folders/"), (r' ++ r ++ rest).
      rewrite Hurl, Hafter, Hpiece, Hw', !append_assoc. reflexivity.
    + intros _. rewrite Hw' in Hw. apply all_chars_app in Hw. tauto.
  - destruct (Str.contains drive_url "/open?id=") eqn:Ho; [|exact I].
    assert (Hid : Str.contains drive_url "id=" = true)
      by (apply (contains_suffix drive_url "/open?" "id="), Ho).
    destruct (py_split_second_exists "id=" drive_url
                ltac:(discriminate) Hid)
      as (before & after & piece & rest & Hurl & Hafter & ->).
    cbn [try_bind].
    destruct (list_index_split_first "&" piece)
      as (w & r & -> & Hpiece & Hclean & _).
    split; [exact Hclean|]. split; [|discriminate].
    apply contains_iff. exists (before ++ "id="), (r ++ rest).
    rewrite Hurl, Hafter, Hpiece, !append_assoc. reflexivity.
Qed.

(** X4: [extract_folder_id] gives back the id of a folder URL: for a URL
    made of a base without ["folders/"], then ["folders/"], then an id
    without ["folders/"], ['?'] or ['&'], then nothing or a part that
    starts with ['?'] or ['&'], the result is the id. *)
Theorem extract_folder_id_of_folder_url (base folder_id tail : string) :
  Str.contains base "folders/" = false ->
  Str.contains folder_id "folders/" = false ->
  all_chars (fun c => c <> "?"%char /\ c <> "&"%char) folder_id ->
  (tail = "" \/ exists t, tail = String "?" t \/ tail = String "&" t) ->
  extract_folder_id (base ++ "folders/" ++ folder_id ++ tail)
  = Return folder_id.
Proof.
  intros Hbase Hid Hchars Htail.
  assert (Hq : all_chars (fun c => c <> "?"%char) folder_id)
    by (eapply all_chars_impl; [|exact Hchars]; intros c [H1 H2]; assumption).
  assert (Ha : all_chars (fun c => c <> "&"%char) folder_id)
    by (eapply all_chars_impl; [|exact Hchars]; intros c [H1 H2]; assumption).
  unfold extract_folder_id.
  assert (Hin : Str.contains (base ++ "folders/" ++ folder_id ++ tail)
                  "folders/" = true)
    by (apply contains_iff; eauto).
  rewrite Hin.
  destruct (py_split_second_piece "f" "olders/" base folder_id tail)
    as (rest & Hpiece & Hempty & Hstart).
  { simpl. repeat split; discriminate. }
  { exact Hbase. }
  { exact Hid. }
  { destruct Htail as [->|(t & [->| ->])]; [left; reflexivity| |];
      right; eexists _, t; (split; [reflexivity|]);
      simpl; repeat split; discriminate. }
  rewrite Hpiece. cbn [try_bind].
  destruct Htail as [->|(t & [->| ->])].
  - rewrite (Hempty eq_refl), append_empty_r.
    rewrite (first_piece_clean "?" folder_id Hq). cbn [try_bind].
    apply first_piece_clean, Ha.
  - destruct (Hstart _ _ eq_refl) as (t' & ->).
    rewrite (first_piece_stop "?" folder_id t' Hq). cbn [try_bind].
    apply first_piece_clean, Ha.
  - destruct (Hstart _ _ eq_refl) as (t' & ->).
    destruct (first_piece_pass "?" "&" folder_id t' Hq
                ltac:(discriminate)) as (w & ->).
    cbn [try_bind]. apply first_piece_stop, Ha.
Qed.

(** The folder URL of the repository. *)
Lemma extract_folder_id_of_folder_url_witness :
  GOOGLE_DRIVE_URL
  = "https://drive.google.com/drive/" ++ "folders/"
    ++ "1ojyCLPVl_kzpZW8MOkY3wmDG2XQdLcUOAumoNNtjo19KaYkGRdbU_PGLAzufBiAHz_ATafR6"
    ++ "?usp=drive_link" /\
  extract_folder_id
    ("https://drive.google.com/drive/" ++ "folders/"
     ++ "1ojyCLPVl_kzpZW8MOkY3wmDG2XQdLcUOAumoNNtjo19KaYkGRdbU_PGLAzufBiAHz_ATafR6"
     ++ "?usp=drive_link")
  = Return
      "1ojyCLPVl_kzpZW8MOkY3wmDG2XQdLcUOAumoNNtjo19KaYkGRdbU_PGLAzufBiAHz_ATafR6".
Proof.
  split; [reflexivity|].
  apply extract_folder_id_of_folder_url.
  - vm_compute. reflexivity.
  - vm_compute. reflexivity.
  - simpl. repeat split; discriminate.
  - right. exists "usp=drive_link". left. reflexivity.
Defined.

(** X5: [extract_folder_id] gives back the id of an ["open?id="] URL: for
    a URL without ["folders/"], made of a base, then ["/open?id="], then an
    id without ["id="] or ['&'], then nothing or a part that starts with
    ['&'], where ["id="] does not occur before the id, the result is the
    id. *)
Theorem extract_folder_id_of_open_url (base folder_id tail : string) :
  Str.contains (base ++ "/open?id=" ++ folder_id ++ tail) "folders/"
  = false ->
  Str.contains (base ++ "/open?") "id=" = false ->
  Str.contains folder_id "id=" = false ->
  all_chars (fun c => c <> "&"%char) folder_id ->
  (tail = "" \/ exists t, tail = String "&" t) ->
  extract_folder_id (base ++ "/open?id=" ++ folder_id ++ tail)
  = Return folder_id.
Proof.
  intros Hnf Hbase Hid Ha Htail.
  unfold extract_folder_id. rewrite Hnf.
  assert (Hin : Str.contains (base ++ "/open?id=" ++ folder_id ++ tail)
                  "/open?id=" = true)
    by (apply contains_iff; eauto).
  rewrite Hin.
  replace (base ++ "/open?id=" ++ folder_id ++ tail)
    with ((base ++ "/open?") ++ "id=" ++ folder_id ++ tail)
    by (rewrite append_assoc; reflexivity).
  destruct (py_split_second_piece "i" "d=" (base ++ "/open?") folder_id tail)
    as (rest & Hpiece & Hempty & Hstart).
  { simpl. repeat split; discriminate. }
  { exact Hbase. }
  { exact Hid. }
  { destruct Htail as [->|(t & ->)]; [left; reflexivity|].
    right. eexists _, t. split; [reflexivity|].
    simpl. repeat split; discriminate. }
  rewrite Hpiece. cbn [try_bind].
  destruct Htail as [->|(t & ->)].
  - rewrite (Hempty eq_refl), append_empty_r.
    apply first_piece_clean, Ha.
  - destruct (Hstart _ _ eq_refl) as (t' & ->).
    apply first_piece_stop, Ha.
Qed.

Lemma extract_folder_id_of_open_url_witness :
  extract_folder_id
    ("https://drive.google.com" ++ "/open?id=" ++ "1AbC_dEf-9" ++ "&usp=sharing")
  = Return "1AbC_dEf-9".
Proof.
  apply extract_folder_id_of_open_url.
  - vm_compute. reflexivity.
  - vm_compute. reflexivity.
  - vm_compute. reflexivity.
  - simpl. repeat split; discriminate.
  - right. exists "usp=sharing". reflexivity.
Defined.

(* ================================================================== *)
(** ** load_roster_from_sheets *)

Lemma cell_or_empty_nth (row : list string) (i : nat) :
  cell_or_empty row i = Return (nth i row "").
Proof.
  unfold cell_or_empty, list_index.
  destruct (i <? List.length row)%nat eqn:Hi.
  - apply Nat.ltb_lt in Hi.
    rewrite (nth_error_nth' row "" Hi). reflexivity.
  - apply Nat.ltb_ge in Hi. rewrite (nth_overflow row "" Hi). reflexivity.
Qed.

Lemma player_info_of_row_total (row : list string) :
  player_info_of_row row = Return (row_player row).
Proof.
  unfold player_info_of_row. rewrite !cell_or_empty_nth. reflexivity.
Qed.

Lemma roster_row_step_spec (players : list Player) (row : list string) :
  roster_row_step players row
  = if one_cell row then Throw IndexError
    else Return (players ++ if row_kept row then [row_player row] else [])%list.
Proof.
  unfold roster_row_step, one_cell, row_kept.
  rewrite player_info_of_row_total.
  destruct row as [|c0 [|c1 row]]; cbn -[row_player truthy nth].
  - rewrite app_nil_r. reflexivity.
  - reflexivity.
  - cbn [nth]. destruct (truthy c1); cbn [andb].
    + cbn [row_player first_name last_name nth].
      match goal with
      | |- context [if ?b then _ else _] => destruct b
      end; [reflexivity|rewrite app_nil_r; reflexivity].
    + rewrite app_nil_r. reflexivity.
Qed.

Lemma roster_fold_throw (e : Exception) (rows : list (list string)) :
  fold_left
    (fun acc row => let* players := acc in roster_row_step players row)
    rows (Throw e) = Throw e.
Proof. induction rows as [|row rows IH]; simpl; [reflexivity|exact IH]. Qed.

Lemma roster_fold (rows : list (list string)) (players : list Player) :
  fold_left
    (fun acc row => let* players := acc in roster_row_step players row)
    rows (Return players)
  = if existsb one_cell rows then Throw IndexError
    else Return (players ++ map row_player (filter row_kept rows))%list.
Proof.
  revert players. induction rows as [|row rows IH]; intros players.
  - simpl. rewrite app_nil_r. reflexivity.
  - cbn [fold_left try_bind existsb filter]. rewrite roster_row_step_spec.
    destruct (one_cell row); cbn [orb].
    + apply roster_fold_throw.
    + rewrite IH. destruct (existsb one_cell rows); [reflexivity|].
      destruct (row_kept row); cbn [map];
        rewrite <- app_assoc; reflexivity.
Qed.

Lemma load_roster_unfold (headers : list string)
    (rows : list (list string)) :
  load_roster_from_sheets (headers :: rows)
  = if existsb one_cell (skipn 6 (headers :: rows)) then Throw IndexError
    else Return (map row_player
                   (filter row_kept (skipn 6 (headers :: rows)))).
Proof.
  unfold load_roster_from_sheets.
  cbn [list_index nth_error try_bind]. apply roster_fold.
Qed.

(** X6: [load_roster_from_sheets] raises [IndexError] exactly when the
    sheet has no row at all or one of its rows after the sixth has a single
    cell; otherwise it returns the players of the rows after the sixth whose
    columns 1, 2 and 3 (student id, first name, last name) are all
    non-empty, in sheet order, with the missing cells of a short row read
    as empty strings. *)
Theorem load_roster_from_sheets_spec (all_values : list (list string)) :
  load_roster_from_sheets all_values
  = match all_values with
    | [] => Throw IndexError
    | _ :: _ =>
        if existsb one_cell (skipn 6 all_values) then Throw IndexError
        else Return (map row_player
                       (filter row_kept (skipn 6 all_values)))
    end.
Proof.
  destruct all_values as [|headers rows].
  - reflexivity.
  - apply load_roster_unfold.
Qed.

(** X7: every player that [load_roster_from_sheets] returns has a
    non-empty student id, first name and last name, and a string (never
    [None]) as full name, so none of them is a row with nothing to match
    on; and there are at most as many players as rows after the sixth. *)
Theorem loaded_players_have_names (all_values : list (list string)) :
  match load_roster_from_sheets all_values with
  | Return players =>
      Forall (fun p =>
                truthy (student_id p) = true /\
                truthy (first_name p) = true /\
                truthy (last_name p) = true /\
                unmatchable p = false /\
                (exists s, full_name p = PyStr s))
             players /\
      List.length players <= List.length all_values - 6
  | Throw _ => True
  end.
Proof.
  destruct all_values as [|headers rows]; [exact I|].
  rewrite load_roster_unfold.
  destruct (existsb one_cell (skipn 6 (headers :: rows))); [exact I|].
  split.
  - apply Forall_forall. intros p Hp. apply in_map_iff in Hp.
    destruct Hp as (row & <- & Hrow). apply filter_In in Hrow.
    destruct Hrow as [_ Hkept]. unfold row_kept in Hkept.
    apply andb_true_iff in Hkept. destruct Hkept as [Hkept H3].
    apply andb_true_iff in Hkept. destruct Hkept as [H1 H2].
    assert (Hun : unmatchable (row_player row) = false).
    { unfold unmatchable. cbn [row_player first_name last_name].
      rewrite H2, H3. reflexivity. }
    repeat split; try assumption. eexists; reflexivity.
  - rewrite length_map. etransitivity; [apply filter_length_le|].
    rewrite length_skipn. reflexivity.
Qed.

(* ================================================================== *)
(** ** create_photo_mappings and load_data *)

Lemma matches_of_ok (o : SetOrder) (players : list Player)
    (photo_name : string) :
  match_photo_to_player o photo_name players
  = Ok (matches_of o players photo_name).
Proof.
  unfold matches_of.
  destruct (match_photo_to_player_sorted o photo_name players)
    as (ms & -> & _). reflexivity.
Qed.

Lemma matches_of_confidence (o : SetOrder) (players : list Player)
    (photo_name : string) (m : Match) :
  In m (matches_of o players photo_name) ->
  (match_type m = "exact" /\ confidence m = "high") \/
  (match_type m = "partial" /\ confidence m = "medium").
Proof.
  unfold matches_of.
  destruct (match_photo_to_player_sorted o photo_name players)
    as (ms & -> & Hperm & _).
  intros Hm. eapply collect_matches_confidence, Permutation_in; eassumption.
Qed.

Lemma create_mappings_fold (o : SetOrder) (players : list Player)
    (photos : list Photo.t) (acc : list Mapping.t) :
  fold_left (create_mapping_step o players) photos (Ok acc)
  = Ok (acc ++ map (fun photo =>
                      photo_mapping photo
                        (matches_of o players (Photo.name photo)))
                   photos)%list.
Proof.
  revert acc. induction photos as [|photo photos IH]; intros acc.
  - simpl. rewrite app_nil_r. reflexivity.
  - cbn [fold_left map]. unfold create_mapping_step at 2. cbn [bind].
    rewrite matches_of_ok. cbn [bind]. rewrite IH, <- app_assoc.
    reflexivity.
Qed.

(** [create_photo_mappings] never raises and maps each photo on its own. *)
Lemma create_photo_mappings_map (o : SetOrder) (photos : list Photo.t)
    (players : list Player) :
  create_photo_mappings o photos players
  = Ok (map (fun photo =>
               photo_mapping photo (matches_of o players (Photo.name photo)))
            photos).
Proof. unfold create_photo_mappings. apply create_mappings_fold. Qed.

Lemma photo_mapping_confidence (o : SetOrder) (players : list Player)
    (photo : Photo.t) :
  let mapping :=
    photo_mapping photo (matches_of o players (Photo.name photo)) in
  Mapping.confidence mapping = "high" \/
  Mapping.confidence mapping = "medium".
Proof.
  cbv zeta.
  pose proof (matches_of_confidence o players (Photo.name photo)) as Hc.
  destruct (matches_of o players (Photo.name photo)) as [|best rest].
  - right. reflexivity.
  - cbn [photo_mapping Mapping.confidence].
    destruct (Hc best (or_introl eq_refl)) as [[_ H]|[_ H]]; auto.
Qed.

Lemma count_high_medium (mappings : list Mapping.t) :
  Forall (fun m => Mapping.confidence m = "high" \/
                   Mapping.confidence m = "medium") mappings ->
  count_confidence "high" mappings + count_confidence "medium" mappings
  = List.length mappings.
Proof.
  unfold count_confidence.
  induction 1 as [|m l Hm Hl IH]; [reflexivity|].
  cbn [filter]. destruct Hm as [-> | ->]; cbn [String.eqb]; simpl;
    simpl in IH; lia.
Qed.

(** X8: a successful answer of [load_data] holds one mapping per photo and
    one roster entry per player, of which there is at least one each, and
    its two confidence counts add up to the number of photos: a photo
    without any match is counted among the ['medium'] ones.  Any other
    answer has status 404 or 500. *)
Theorem load_data_stats (o : SetOrder) (services : Services) :
  match load_data o services with
  | Json data =>
      let stats := LoadData.stats_of data in
      LoadData.total_photos stats = List.length (LoadData.mappings data) /\
      LoadData.total_players stats = List.length (LoadData.roster data) /\
      0 < LoadData.total_photos stats /\
      0 < LoadData.total_players stats /\
      LoadData.high_confidence_matches stats
      + LoadData.medium_confidence_matches stats
      = LoadData.total_photos stats /\
      List.length
        (filter (fun m => String.eqb (Mapping.match_type m) "no_match")
                (LoadData.mappings data))
      <= LoadData.medium_confidence_matches stats
  | JsonError _ status => status = 404 \/ status = 500
  end.
Proof.
  unfold load_data, load_data_attempt.
  destruct (authenticate_drive services) as [drive|];
    cbn [try_bind]; [|auto].
  destruct (authenticate_sheets services) as [sheets|];
    cbn [try_bind]; [|auto].
  destruct (extract_folder_id GOOGLE_DRIVE_URL) as [folder_id|];
    cbn [try_bind]; [|auto].
  destruct (get_photos_from_folder services folder_id) as [photos|];
    cbn [try_bind]; [|auto].
  destruct photos as [|photo photos]; [auto|].
  destruct (get_all_values services) as [all_values|];
    cbn [try_bind]; [|auto].
  destruct (load_roster_from_sheets all_values) as [players|];
    cbn [try_bind]; [|auto].
  destruct players as [|player players]; [auto|].
  rewrite create_photo_mappings_map. cbn [bind].
  cbn [LoadData.stats_of LoadData.mappings LoadData.roster
       LoadData.total_photos LoadData.total_players
       LoadData.high_confidence_matches LoadData.medium_confidence_matches].
  set (ps := photo :: photos). set (pls := player :: players).
  set (ms := map _ ps).
  assert (Hconf : Forall (fun m => Mapping.confidence m = "high" \/
                                   Mapping.confidence m = "medium") ms).
  { unfold ms. apply Forall_forall. intros m Hm.
    apply in_map_iff in Hm. destruct Hm as (ph & <- & _).
    apply photo_mapping_confidence. }
  repeat split.
  - unfold ms. rewrite length_map. reflexivity.
  - unfold roster_for_frontend. rewrite length_map. reflexivity.
  - unfold ps. simpl. lia.
  - unfold pls. simpl. lia.
  - rewrite (count_high_medium ms Hconf). unfold ms.
    rewrite length_map. reflexivity.
  - unfold count_confidence. clear Hconf.
    assert (Hno : forall m, In m ms ->
              String.eqb (Mapping.match_type m) "no_match" = true ->
              String.eqb (Mapping.confidence m) "medium" = true).
    { intros m Hm. unfold ms in Hm. apply in_map_iff in Hm.
      destruct Hm as (ph & <- & _).
      pose proof (matches_of_confidence o pls (Photo.name ph)) as Hc.
      destruct (matches_of o pls (Photo.name ph)) as [|best rest];
        [reflexivity|].
      cbn [photo_mapping Mapping.match_type Mapping.confidence].
      destruct (Hc best (or_introl eq_refl)) as [[-> _]|[-> _]];
        discriminate. }
    clearbody ms. induction ms as [|m l IH]; [simpl; lia|].
    cbn [filter].
    specialize (IH (fun x Hx => Hno x (or_intror Hx))).
    specialize (Hno m (or_introl eq_refl)).
    destruct (String.eqb (Mapping.match_type m) "no_match").
    + rewrite (Hno eq_refl). simpl. lia.
    + destruct (String.eqb (Mapping.confidence m) "medium"); simpl; lia.
Qed.

(** X9: when the Drive and Sheets services answer, [load_data] replies
    404 for an empty folder; otherwise 500 exactly when the sheet has no
    row or has a one-cell row after the sixth (the [IndexError] of
    [load_roster_from_sheets]); otherwise 404 when no row of the sheet gives
    a player; and a successful answer in every other case: matching the
    photos never fails. *)
Theorem load_data_outcome (o : SetOrder) (photos : list Photo.t)
    (all_values : list (list string)) :
  let response := load_data o (answering photos all_values) in
  match photos with
  | [] =>
      response
      = JsonError (Message "No photos found in the Google Drive folder") 404
  | _ :: _ =>
      if match all_values with
         | [] => true
         | _ :: _ => existsb one_cell (skipn 6 all_values)
         end
      then response = JsonError (StrOf IndexError) 500
      else
        match filter row_kept (skipn 6 all_values) with
        | [] =>
            response
            = JsonError (Message "No players found in the roster sheet") 404
        | _ :: _ => exists data, response = Json data
        end
  end.
Proof.
  cbv zeta. unfold load_data, load_data_attempt, answering.
  cbn [authenticate_drive authenticate_sheets get_photos_from_folder
       get_all_values try_bind].
  replace (extract_folder_id GOOGLE_DRIVE_URL)
    with (Return
            "1ojyCLPVl_kzpZW8MOkY3wmDG2XQdLcUOAumoNNtjo19KaYkGRdbU_PGLAzufBiAHz_ATafR6")
    by (vm_compute; reflexivity).
  cbn [try_bind].
  destruct photos as [|photo photos]; [reflexivity|].
  destruct all_values as [|headers rows]; [reflexivity|].
  rewrite load_roster_unfold.
  destruct (existsb one_cell (skipn 6 (headers :: rows))); [reflexivity|].
  cbn [try_bind].
  destruct (filter row_kept (skipn 6 (headers :: rows))) as [|row kept];
    [reflexivity|].
  cbn [map]. rewrite create_photo_mappings_map. cbn [bind]. eauto.
Qed.

(* ================================================================== *)
(** ** create_photo_mapping and save_results *)

Lemma create_photo_mapping_fold (o : SetOrder) (players : list Player)
    (photos : list DrivePhoto.t) (mappings : list PhotoMapping.t)
    (unmatched : list DrivePhoto.t) :
  fold_left (create_photo_mapping_step o players) photos
            (Ok (mappings, unmatched))
  = Ok ((mappings ++ flat_map (mapping_of_photo o players) photos)%list,
        (unmatched
         ++ filter (fun ph => negb (is_matched o players ph)) photos)%list).
Proof.
  revert mappings unmatched.
  induction photos as [|photo photos IH]; intros mappings unmatched.
  - simpl. rewrite !app_nil_r. reflexivity.
  - cbn [fold_left flat_map filter].
    unfold create_photo_mapping_step at 2. cbn [bind].
    rewrite matches_of_ok. cbn [bind].
    unfold mapping_of_photo at 1, is_matched at 1, has_match.
    destruct (matches_of o players (DrivePhoto.name photo))
      as [|best rest]; cbn [negb]; rewrite IH.
    + rewrite <- app_assoc. reflexivity.
    + rewrite <- app_assoc. reflexivity.
Qed.

Lemma create_photo_mapping_spec (o : SetOrder) (photos : list DrivePhoto.t)
    (players : list Player) :
  create_photo_mapping o photos players
  = Ok (flat_map (mapping_of_photo o players) photos,
        filter (fun ph => negb (is_matched o players ph)) photos).
Proof. unfold create_photo_mapping. apply create_photo_mapping_fold. Qed.

Lemma mapping_of_photo_cases (o : SetOrder) (players : list Player)
    (photo : DrivePhoto.t) :
  if is_matched o players photo
  then exists best rest,
      matches_of o players (DrivePhoto.name photo) = best :: rest /\
      mapping_of_photo o players photo
      = [matched_mapping photo best (best :: rest)]
  else matches_of o players (DrivePhoto.name photo) = [] /\
       mapping_of_photo o players photo = [].
Proof.
  unfold is_matched, has_match, mapping_of_photo.
  destruct (matches_of o players (DrivePhoto.name photo)) as [|best rest];
    eauto.
Qed.

Lemma mappings_length (o : SetOrder) (players : list Player)
    (photos : list DrivePhoto.t) :
  List.length (flat_map (mapping_of_photo o players) photos)
  + List.length (filter (fun ph => negb (is_matched o players ph)) photos)
  = List.length photos.
Proof.
  induction photos as [|photo photos IH]; [reflexivity|].
  cbn [flat_map filter]. rewrite length_app.
  pose proof (mapping_of_photo_cases o players photo) as Hc.
  destruct (is_matched o players photo); cbn [negb].
  - destruct Hc as (best & rest & _ & ->). simpl. lia.
  - destruct Hc as [_ ->]. simpl. lia.
Qed.

Lemma cells_create_throw (oc : Cells.CellOrder) (o : SetOrder)
    (rows : list Cells.Row) (photos : list DrivePhoto.t) (e : Exception) :
  fold_left (Cells.create_photo_mapping_step oc o rows) photos (Throw e)
  = Throw e.
Proof. induction photos as [|photo photos IH]; [reflexivity|exact IH]. Qed.

Lemma cells_matches_of (oc : Cells.CellOrder) (o : SetOrder)
    (rows : list Cells.Row) (photo_name : string) :
  existsb Cells.full_name_fails rows = false ->
  Cells.match_photo_to_player oc o photo_name rows
  = Return (Ok (Cells.matches_of oc o rows photo_name)) /\
  Forall Cells.consistent (Cells.matches_of oc o rows photo_name).
Proof.
  intros Hrows.
  pose proof (cells_match_photo_to_player oc o photo_name rows) as H.
  rewrite Hrows in H. destruct H as (matches & H & Hm).
  unfold Cells.matches_of. rewrite H. split; [reflexivity|exact Hm].
Qed.

Lemma cells_create_fold (oc : Cells.CellOrder) (o : SetOrder)
    (rows : list Cells.Row) (photos : list DrivePhoto.t)
    (mappings : list Cells.PhotoMapping.t)
    (unmatched : list DrivePhoto.t) :
  existsb Cells.full_name_fails rows = false ->
  fold_left (Cells.create_photo_mapping_step oc o rows) photos
            (Return (Ok (mappings, unmatched)))
  = Return
      (Ok ((mappings ++ flat_map (Cells.mapping_of_photo oc o rows) photos)
             %list,
           (unmatched
            ++ filter (fun photo => negb (Cells.is_matched oc o rows photo))
                      photos)%list)).
Proof.
  intros Hrows. revert mappings unmatched.
  induction photos as [|photo photos IH]; intros mappings unmatched.
  - cbn [fold_left flat_map filter]. rewrite !app_nil_r. reflexivity.
  - cbn [fold_left flat_map filter].
    unfold Cells.create_photo_mapping_step at 2. cbn [try_bind].
    destruct (cells_matches_of oc o rows (DrivePhoto.name photo) Hrows)
      as [-> _].
    cbn [try_bind].
    unfold Cells.mapping_of_photo at 1, Cells.is_matched at 1.
    destruct (Cells.matches_of oc o rows (DrivePhoto.name photo))
      as [|best rest]; cbn [negb]; rewrite IH, <- !app_assoc; reflexivity.
Qed.

(** X10: [create_photo_mapping] raises [AttributeError] exactly when there
    is a photo and the full name of some roster row is a value that counts as
    true and is not a string, such as the [nan] of a blank cell.  Otherwise
    it returns and splits the photos in two: [unmatched_photos] holds, in
    order, the photos whose match result is empty, and [mappings] holds one
    mapping for each of the others, in order.  Such a mapping takes its
    filename, id and links from the photo, its player names, student id,
    confidence, match type and variation from the first element of the match
    result, which is an exact match of confidence ['high'] or a partial match
    of confidence ['medium'], and its alternatives from the elements at index
    1 and 2, each shown as the full name followed by the confidence in
    parentheses.  The two lists together count the photos. *)
Theorem create_photo_mapping_partition (oc : Cells.CellOrder) (o : SetOrder)
    (photos : list DrivePhoto.t) (rows : list Cells.Row) :
  if existsb Cells.full_name_fails rows
     && negb (Nat.eqb (List.length photos) 0)
  then Cells.create_photo_mapping oc o photos rows = Throw AttributeError
  else
    exists mappings unmatched_photos,
      Cells.create_photo_mapping oc o photos rows
      = Return (Ok (mappings, unmatched_photos)) /\
      Forall
        (fun photo =>
           Cells.match_photo_to_player oc o (DrivePhoto.name photo) rows
           = Return (Ok (Cells.matches_of oc o rows (DrivePhoto.name photo))))
        photos /\
      unmatched_photos
      = filter (fun photo => negb (Cells.is_matched oc o rows photo)) photos /\
      Forall2
        (fun photo mapping =>
           exists best_match rest,
             Cells.matches_of oc o rows (DrivePhoto.name photo)
             = best_match :: rest /\
             Cells.consistent best_match /\
             Cells.PhotoMapping.photo_filename mapping
             = DrivePhoto.name photo /\
             Cells.PhotoMapping.photo_id mapping = DrivePhoto.id photo /\
             Cells.PhotoMapping.direct_link mapping
             = DrivePhoto.directLink photo /\
             Cells.PhotoMapping.web_view_link mapping
             = DrivePhoto.webViewLink photo /\
             Cells.PhotoMapping.thumbnail_link mapping
             = DrivePhoto.thumbnailLink photo /\
             Cells.PhotoMapping.matched_player_name mapping
             = Cells.full_name (Cells.player best_match) /\
             Cells.PhotoMapping.matched_first_name mapping
             = Cells.first_name (Cells.player best_match) /\
             Cells.PhotoMapping.matched_last_name mapping
             = Cells.last_name (Cells.player best_match) /\
             Cells.PhotoMapping.student_id mapping
             = Cells.student_id (Cells.player best_match) /\
             Cells.PhotoMapping.confidence mapping
             = Cells.confidence best_match /\
             Cells.PhotoMapping.match_type mapping
             = Cells.match_type best_match /\
             Cells.PhotoMapping.matched_variation mapping
             = Cells.matched_variation best_match /\
             Cells.PhotoMapping.alternative_matches mapping
             = map (fun m =>
                      Cells.cell_str (Cells.full_name (Cells.player m))
                      ++ " (" ++ Cells.confidence m ++ ")")
                   (at_index 1 (best_match :: rest)
                    ++ at_index 2 (best_match :: rest))%list)
        (filter (Cells.is_matched oc o rows) photos) mappings /\
      List.length mappings + List.length unmatched_photos
      = List.length photos.
Proof.
  unfold Cells.create_photo_mapping.
  destruct (existsb Cells.full_name_fails rows) eqn:Hrows.
  - destruct photos as [|photo photos]; cbn [andb negb List.length Nat.eqb].
    + exists [], []. repeat split; constructor.
    + cbn [fold_left]. unfold Cells.create_photo_mapping_step at 2.
      cbn [try_bind].
      pose proof (cells_match_photo_to_player oc o (DrivePhoto.name photo)
                    rows) as H.
      rewrite Hrows in H. rewrite H. apply cells_create_throw.
  - cbn [andb]. rewrite (cells_create_fold oc o rows photos [] [] Hrows).
    cbn [app]. eexists _, _. split; [reflexivity|].
    split; [|split; [reflexivity|split]].
    + apply Forall_forall. intros photo _.
      apply (cells_matches_of oc o rows (DrivePhoto.name photo) Hrows).
    + induction photos as [|photo photos IH]; [constructor|].
      cbn [flat_map filter].
      unfold Cells.mapping_of_photo at 1, Cells.is_matched at 1.
      pose proof (cells_matches_of oc o rows (DrivePhoto.name photo) Hrows)
        as [_ Hconsistent].
      destruct (Cells.matches_of oc o rows (DrivePhoto.name photo))
        as [|best rest] eqn:Hmatches; [exact IH|].
      cbn [app]. constructor; [|exact IH].
      exists best, rest. rewrite Hmatches.
      split; [reflexivity|].
      split; [inversion Hconsistent; assumption|].
      unfold Cells.matched_mapping.
      cbn [Cells.PhotoMapping.photo_filename Cells.PhotoMapping.photo_id
           Cells.PhotoMapping.direct_link Cells.PhotoMapping.web_view_link
           Cells.PhotoMapping.thumbnail_link
           Cells.PhotoMapping.matched_player_name
           Cells.PhotoMapping.matched_first_name
           Cells.PhotoMapping.matched_last_name
           Cells.PhotoMapping.student_id Cells.PhotoMapping.confidence
           Cells.PhotoMapping.match_type
           Cells.PhotoMapping.matched_variation
           Cells.PhotoMapping.alternative_matches].
      rewrite slice_alternatives. repeat split.
    + induction photos as [|photo photos IH]; [reflexivity|].
      cbn [flat_map filter]. rewrite length_app.
      unfold Cells.mapping_of_photo at 1, Cells.is_matched at 1.
      destruct (Cells.matches_of oc o rows (DrivePhoto.name photo));
        cbn [negb List.length] in *; lia.
Qed.


Lemma set_add_NoDup (x : string) (s : PySet) : NoDup s -> NoDup (set_add x s).
Proof.
  intros Hs. unfold set_add. destruct (set_mem x s) eqn:Hm; [exact Hs|].
  apply NoDup_app; [exact Hs|repeat constructor; intros []|].
  intros y Hy [<-|[]]. apply set_mem_In in Hy. congruence.
Qed.

Lemma set_add_length (x : string) (s : PySet) :
  List.length (set_add x s) <= S (List.length s).
Proof.
  unfold set_add. destruct (set_mem x s); [lia|].
  rewrite length_app. simpl. lia.
Qed.

Lemma set_add_all_facts (xs : list string) (s : PySet) :
  NoDup s ->
  NoDup (set_add_all xs s) /\
  List.length (set_add_all xs s) <= List.length s + List.length xs /\
  forall y, In y (set_add_all xs s) <-> In y s \/ In y xs.
Proof.
  unfold set_add_all. revert s.
  induction xs as [|x xs IH]; intros s Hs; cbn [fold_left].
  - split; [exact Hs|]. split; [simpl; lia|]. intros y. simpl. tauto.
  - destruct (IH (set_add x s) (set_add_NoDup x s Hs)) as (Hnd & Hlen & Hin).
    split; [exact Hnd|]. split.
    + pose proof (set_add_length x s). simpl. lia.
    + intros y. rewrite Hin, set_add_In. simpl. intuition.
Qed.

Lemma matches_of_player (o : SetOrder) (players : list Player)
    (photo_name : string) (m : Match) :
  In m (matches_of o players photo_name) -> In (player m) players.
Proof.
  unfold matches_of.
  destruct (match_photo_to_player_sorted o photo_name players)
    as (ms & -> & Hperm & _).
  intros Hm. eapply collect_matches_shape, Permutation_in; eassumption.
Qed.

Lemma count_mapping_high_medium (mappings : list PhotoMapping.t) :
  Forall (fun m => PhotoMapping.confidence m = "high" \/
                   PhotoMapping.confidence m = "medium") mappings ->
  count_mapping_confidence "high" mappings
  + count_mapping_confidence "medium" mappings
  = List.length mappings.
Proof.
  unfold count_mapping_confidence.
  induction 1 as [|m l Hm Hl IH]; [reflexivity|].
  cbn [filter]. destruct Hm as [-> | ->]; simpl; simpl in IH; lia.
Qed.

(** X12: the summary that [save_results] writes for the result of
    [create_photo_mapping].  Its total is the number of photos, matched
    and unmatched photos add up to it, the ['high'] and ['medium'] counts
    add up to the matched photos, and the number of matched players (the
    distinct non-empty student ids) exceeds neither the matched photos nor
    the players of the roster.  With no photo at all, the percentage that
    [save_results] prints divides by zero and it raises
    [ZeroDivisionError]; with at least one photo it never raises. *)
Theorem save_results_summary (o : SetOrder) (photos : list DrivePhoto.t)
    (players : list Player) :
  exists mappings unmatched_photos,
    create_photo_mapping o photos players = Ok (mappings, unmatched_photos) /\
    match save_results mappings unmatched_photos players with
    | Return summary =>
        photos <> [] /\
        Summary.total_photos summary = List.length photos /\
        Summary.matched_photos summary + Summary.unmatched_photos summary
        = Summary.total_photos summary /\
        Summary.high_confidence_matches summary
        + Summary.medium_confidence_matches summary
        = Summary.matched_photos summary /\
        Summary.matched_players summary <= Summary.matched_photos summary /\
        Summary.matched_players summary <= Summary.total_players summary
    | Throw e => e = ZeroDivisionError /\ photos = []
    end.
Proof.
  rewrite create_photo_mapping_spec. eexists _, _. split; [reflexivity|].
  unfold save_results. cbv zeta. cbn [Summary.total_photos].
  rewrite mappings_length.
  destruct photos as [|photo photos]; [split; reflexivity|].
  cbn [List.length Nat.eqb].
  cbn [Summary.total_photos Summary.matched_photos Summary.unmatched_photos
       Summary.high_confidence_matches Summary.medium_confidence_matches
       Summary.matched_players Summary.total_players].
  set (ps := photo :: photos).
  set (mappings := flat_map (mapping_of_photo o players) ps).
  assert (Hfrom : forall m, In m mappings ->
            exists ph best rest,
              matches_of o players (DrivePhoto.name ph) = best :: rest /\
              m = matched_mapping ph best (best :: rest)).
  { intros m Hm. apply in_flat_map in Hm. destruct Hm as (ph & _ & Hm).
    pose proof (mapping_of_photo_cases o players ph) as Hc.
    destruct (is_matched o players ph).
    - destruct Hc as (best & rest & Hms & Heq). rewrite Heq in Hm.
      destruct Hm as [<-|[]]. eauto.
    - destruct Hc as [_ Heq]. rewrite Heq in Hm. contradiction. }
  destruct (set_add_all_facts
              (map (fun m => py_str (PhotoMapping.student_id m))
                   (filter (fun m => truthy (PhotoMapping.student_id m))
                           mappings))
              set_empty (NoDup_nil _)) as (Hnd & Hlen & Hin).
  fold (matched_student_ids mappings) in Hnd, Hlen, Hin.
  split; [discriminate|]. split; [reflexivity|].
  split; [apply mappings_length|]. split; [|split].
  - apply count_mapping_high_medium, Forall_forall. intros m Hm.
    destruct (Hfrom m Hm) as (ph & best & rest & Hms & ->).
    cbn [matched_mapping PhotoMapping.confidence].
    destruct (matches_of_confidence o players (DrivePhoto.name ph) best)
      as [[_ H]|[_ H]]; [rewrite Hms; left; reflexivity| |]; auto.
  - rewrite length_map in Hlen. simpl in Hlen.
    etransitivity; [exact Hlen|]. apply filter_length_le.
  - rewrite <- (length_map (fun p => py_str (student_id p)) players).
    apply NoDup_incl_length; [exact Hnd|].
    intros y Hy. apply Hin in Hy. destruct Hy as [[]|Hy].
    apply in_map_iff in Hy. destruct Hy as (m & <- & Hm).
    apply filter_In in Hm. destruct Hm as [Hm _].
    destruct (Hfrom m Hm) as (ph & best & rest & Hms & ->).
    cbn [matched_mapping PhotoMapping.student_id].
    apply (in_map (fun p => py_str (student_id p)) players (player best)).
    apply (matches_of_player o players (DrivePhoto.name ph)).
    rewrite Hms. left. reflexivity.
Qed.

(* ================================================================== *)
(** ** export_csv *)

Lemma export_fold_throw (e : Exception) (mappings : list JsonObject) :
  fold_left export_csv_step mappings (Throw e) = Throw e.
Proof.
  induction mappings as [|m l IH]; simpl; [reflexivity|exact IH].
Qed.

Lemma export_fold (mappings : list JsonObject)
    (csv_rows : list (list PyValue)) :
  fold_left export_csv_step mappings (Return csv_rows)
  = if existsb null_name mappings then Throw AttributeError
    else Return (csv_rows
                 ++ map (fun m => csv_row m (stripped_name m))
                        (filter named mappings))%list.
Proof.
  revert csv_rows. induction mappings as [|m l IH]; intros csv_rows.
  - simpl. rewrite app_nil_r. reflexivity.
  - cbn [fold_left existsb filter]. unfold export_csv_step at 2.
    cbn [try_bind]. unfold null_name at 1, named at 1.
    destruct (dict_get_default m "playerName" "") as [|s] eqn:Hname;
      cbn [py_strip try_bind orb].
    + apply export_fold_throw.
    + assert (Hs : stripped_name m = Str.strip s)
        by (unfold stripped_name; rewrite Hname; reflexivity).
      rewrite Hs.
      destruct (truthy (Str.strip s)); rewrite IH;
        destruct (existsb null_name l); try reflexivity.
      cbn [map]. rewrite Hs, <- app_assoc. reflexivity.
Qed.

Lemma lstrip_clean (s : string) :
  match Str.lstrip s with
  | EmptyString => True
  | String c _ => Chr.is_space c = false
  end.
Proof.
  induction s as [|c s IH]; simpl; [exact I|].
  destruct (Chr.is_space c) eqn:Hc; [exact IH|exact Hc].
Qed.

Lemma rstrip_idempotent (s : string) :
  Str.rstrip (Str.rstrip s) = Str.rstrip s.
Proof.
  induction s as [|c s IH]; simpl; [reflexivity|].
  destruct (Str.rstrip s) as [|d r] eqn:Hr.
  - destruct (Chr.is_space c) eqn:Hc; simpl; [reflexivity|].
    rewrite Hc. reflexivity.
  - cbn [Str.rstrip] in *. rewrite IH. reflexivity.
Qed.

(** A stripped string has no whitespace at either end: stripping it again
    changes nothing. *)
Lemma strip_idempotent (s : string) :
  Str.strip (Str.strip s) = Str.strip s.
Proof.
  unfold Str.strip. pose proof (lstrip_clean s) as Hl.
  destruct (Str.lstrip s) as [|c t]; [reflexivity|].
  rewrite rstrip_cons_visible by exact Hl.
  cbn [Str.lstrip]. rewrite Hl.
  rewrite rstrip_cons_visible by exact Hl.
  rewrite rstrip_idempotent. reflexivity.
Qed.

Lemma export_csv_unfold (m : JsonObject) (l : list JsonObject) :
  export_csv (m :: l)
  = if existsb null_name (m :: l)
    then JsonError (StrOf AttributeError) 500
    else
      Json {| CsvExport.csvData :=
                csv_header
                :: map (fun m => csv_row m (stripped_name m))
                       (filter named (m :: l));
              CsvExport.totalMappings :=
                List.length (filter named (m :: l)) |}.
Proof.
  unfold export_csv. rewrite export_fold.
  destruct (existsb null_name (m :: l)); [reflexivity|].
  cbn [app].
  assert (Hlen : forall (h : list PyValue) rows,
             List.length (h :: rows) - 1 = List.length rows)
    by (intros; simpl; lia).
  rewrite Hlen, length_map. reflexivity.
Qed.

(** X13: [export_csv] replies 400 when no mapping is given, and 500
    whenever the player name of some mapping is [null], whose [strip]
    raises.  When at least one mapping is given and every player name is a
    string, it succeeds: [csvData] is the header row followed, for each
    mapping whose stripped player name is not empty, in order, by the row of
    that name, the drive id, the filename, the two Drive links built from the
    drive id, and the thumbnail URL; [totalMappings] is the number of these
    rows. *)
Theorem export_csv_spec (mappings : list JsonObject) :
  (mappings = [] ->
   export_csv mappings = JsonError (Message "No mappings provided") 400) /\
  (Exists (fun m => dict_get_default m "playerName" "" = PyNone) mappings ->
   export_csv mappings = JsonError (StrOf AttributeError) 500) /\
  (mappings <> [] ->
   Forall (fun m =>
             exists name, dict_get_default m "playerName" "" = PyStr name)
          mappings ->
   export_csv mappings
   = Json {| CsvExport.csvData :=
               [ PyStr "PlayerName"; PyStr "DriveId"; PyStr "Filename";
                 PyStr "GoogleDriveLink"; PyStr "DirectImageLink";
                 PyStr "ThumbnailLink" ]
               :: map (fun m =>
                         [ PyStr (stripped_name m);
                           dict_get_default m "driveId" "";
                           dict_get_default m "filename" "";
                           PyStr ("https://drive.google.com/file/d/"
                                  ++ py_str (dict_get_default m "driveId" "")
                                  ++ "/view");
                           PyStr ("https://drive.google.com/uc?id="
                                  ++ py_str (dict_get_default m "driveId" ""));
                           dict_get_default m "thumbnailUrl" "" ])
                      (filter (fun m =>
                                 negb (String.eqb (stripped_name m) ""))
                              mappings);
             CsvExport.totalMappings :=
               List.length
                 (filter (fun m => negb (String.eqb (stripped_name m) ""))
                         mappings) |}).
Proof.
  assert (Hnamed : forall l,
             filter (fun m => negb (String.eqb (stripped_name m) "")) l
             = filter named l).
  { intros l. apply filter_ext. intros m. unfold named.
    destruct (stripped_name m); reflexivity. }
  split; [|split].
  - intros ->. reflexivity.
  - intros Hnull. destruct mappings as [|m l]; [inversion Hnull|].
    rewrite export_csv_unfold.
    replace (existsb null_name (m :: l)) with true; [reflexivity|].
    symmetry. apply existsb_exists. apply Exists_exists in Hnull.
    destruct Hnull as (x & Hin & Hx). exists x. split; [exact Hin|].
    unfold null_name. rewrite Hx. reflexivity.
  - intros Hne Hall. destruct mappings as [|m l]; [contradiction|].
    rewrite export_csv_unfold.
    replace (existsb null_name (m :: l)) with false.
    + rewrite Hnamed. reflexivity.
    + symmetry. apply not_true_is_false. intros Hex.
      apply existsb_exists in Hex. destruct Hex as (x & Hin & Hx).
      rewrite Forall_forall in Hall. destruct (Hall x Hin) as (name & Hname).
      unfold null_name in Hx. rewrite Hname in Hx. discriminate Hx.
Qed.

Lemma export_csv_spec_witness :
  export_csv [ [ ("playerName", PyStr " Jane Doe "); ("driveId", PyStr "f1") ];
               [ ("playerName", PyStr "  ") ] ]
  = Json {| CsvExport.csvData :=
              [ [ PyStr "PlayerName"; PyStr "DriveId"; PyStr "Filename";
                  PyStr "GoogleDriveLink"; PyStr "DirectImageLink";
                  PyStr "ThumbnailLink" ];
                [ PyStr "Jane Doe"; PyStr "f1"; PyStr "";
                  PyStr "https://drive.google.com/file/d/f1/view";
                  PyStr "https://drive.google.com/uc?id=f1"; PyStr "" ] ];
            CsvExport.totalMappings := 1 |}.
Proof.
  apply (export_csv_spec
           [ [ ("playerName", PyStr " Jane Doe "); ("driveId", PyStr "f1") ];
             [ ("playerName", PyStr "  ") ] ]).
  - intros H. discriminate H.
  - repeat constructor; eexists; reflexivity.
Defined.

(** X14: in a successful answer of [export_csv], [csvData] is never
    empty and starts with the header; [totalMappings] counts the rows after
    it and is at most the number of mappings given; and every such row has
    six cells, the first of which is a non-empty player name without
    whitespace at either end, the fourth and fifth being the two Drive links
    built from the second. *)
Theorem export_csv_rows (mappings : list JsonObject) :
  match export_csv mappings with
  | Json export =>
      exists rows,
        CsvExport.csvData export = csv_header :: rows /\
        CsvExport.totalMappings export = List.length rows /\
        List.length rows <= List.length mappings /\
        Forall (fun row =>
                  exists name drive_id filename thumbnail,
                    row = [ PyStr name; drive_id; filename;
                            PyStr ("https://drive.google.com/file/d/"
                                   ++ py_str drive_id ++ "/view");
                            PyStr ("https://drive.google.com/uc?id="
                                   ++ py_str drive_id);
                            thumbnail ] /\
                    name <> "" /\ Str.strip name = name)
               rows
  | JsonError _ status => status = 400 \/ status = 500
  end.
Proof.
  destruct mappings as [|m l]; [simpl; auto|].
  rewrite export_csv_unfold.
  destruct (existsb null_name (m :: l)); [auto|].
  eexists. split; [reflexivity|].
  cbn [CsvExport.totalMappings]. rewrite length_map.
  split; [reflexivity|]. split; [apply filter_length_le|].
  apply Forall_forall. intros row Hrow. apply in_map_iff in Hrow.
  destruct Hrow as (mapping & <- & Hm). apply filter_In in Hm.
  destruct Hm as [_ Hnamed]. unfold csv_row. cbv zeta.
  eexists _, _, _, _. split; [reflexivity|]. split.
  - unfold named in Hnamed.
    destruct (stripped_name mapping); [discriminate|discriminate].
  - unfold stripped_name.
    destruct (dict_get_default mapping "playerName" "");
      [reflexivity|apply strip_idempotent].
Qed.

(* ================================================================== *)
(** ** The variation set and the best match *)

Lemma set_add_all_length (xs : list string) (s : PySet) :
  List.length (set_add_all xs s) <= List.length s + List.length xs.
Proof.
  unfold set_add_all. revert s.
  induction xs as [|x xs IH]; intros s; cbn [fold_left]; [simpl; lia|].
  specialize (IH (set_add x s)). pose proof (set_add_length x s).
  simpl. lia.
Qed.

Lemma add_parent_variations_length (s : PySet) (parent : PyValue * PyValue) :
  List.length (add_parent_variations s parent) <= List.length s + 5.
Proof.
  unfold add_parent_variations. destruct parent as [pf pl].
  destruct (truthy pf && truthy pl); [|lia].
  etransitivity; [apply set_add_all_length|]. simpl. lia.
Qed.

Lemma raw_name_variations_length (p : Player) :
  List.length (raw_name_variations p) <= 24.
Proof.
  unfold raw_name_variations. cbv zeta. cbn [fold_left].
  match goal with
  | |- List.length
         (add_parent_variations (add_parent_variations ?full ?p1) ?p2) <= _ =>
      pose proof (add_parent_variations_length
                    (add_parent_variations full p1) p2) as H2;
      pose proof (add_parent_variations_length full p1) as H1;
      assert (Hfull : List.length full <= 14); [|lia]
  end.
  match goal with
  | |- List.length (if _ then set_add_all ?xs ?names else _) <= _ =>
      pose proof (set_add_all_length xs names) as H4;
      assert (Hnames : List.length names <= 10)
  end.
  { destruct (truthy (first_name p) && truthy (last_name p));
      [|simpl; lia].
    etransitivity; [apply set_add_all_length|]. simpl. lia. }
  destruct (truthy (full_name p)); [cbn [List.length] in H4; lia|lia].
Qed.

Lemma add_normalized_facts (l : list string) (acc : PySet) :
  NoDup acc ->
  NoDup (fold_left add_normalized l acc) /\
  List.length (fold_left add_normalized l acc)
  <= List.length acc + List.length l.
Proof.
  revert acc. induction l as [|x l IH]; intros acc Hacc; cbn [fold_left].
  - split; [exact Hacc|simpl; lia].
  - assert (Hstep : NoDup (add_normalized acc x) /\
                    List.length (add_normalized acc x)
                    <= S (List.length acc)).
    { unfold add_normalized. destruct (truthy (normalize_name x)).
      - split; [apply set_add_NoDup, Hacc|apply set_add_length].
      - split; [exact Hacc|lia]. }
    destruct Hstep as [Hnd Hlen]. destruct (IH _ Hnd) as [Hnd' Hlen'].
    split; [exact Hnd'|]. simpl. lia.
Qed.

(** X15: the set that [generate_name_variations] returns holds at most 24
    strings, without repetition, each of them non-empty and already
    normalized; and the iteration order of the sets changes the order of
    its elements only, never the elements. *)
Theorem generate_name_variations_invariants (o : SetOrder) (p : Player) :
  NoDup (generate_name_variations o p) /\
  List.length (generate_name_variations o p) <= 24 /\
  Forall (fun v => v <> "" /\ normalize_name v = v)
         (generate_name_variations o p) /\
  forall o', Permutation (generate_name_variations o p)
                         (generate_name_variations o' p).
Proof.
  assert (Hfacts : forall o'',
            NoDup (generate_name_variations o'' p) /\
            List.length (generate_name_variations o'' p) <= 24).
  { intros o''. unfold generate_name_variations.
    destruct (add_normalized_facts
                (set_iter o'' (raw_name_variations p)) set_empty
                (NoDup_nil _)) as [Hnd Hlen].
    split; [exact Hnd|].
    rewrite (Permutation_length (set_iter_perm o'' _)) in Hlen.
    pose proof (raw_name_variations_length p). simpl in Hlen. lia. }
  split; [apply Hfacts|]. split; [apply Hfacts|]. split.
  - apply Forall_forall. intros v Hv.
    apply generate_name_variations_In in Hv.
    destruct Hv as (raw & _ & <- & Hne). split; [exact Hne|].
    rewrite !normalize_name_described.
    apply normalize_described_idempotent.
  - intros o'. apply NoDup_Permutation; [apply Hfacts|apply Hfacts|].
    intros v. apply generate_name_variations_order.
Qed.

Lemma sorted_two_ranks (ms : list Match) :
  StronglySorted (fun a b => rank b <= rank a) ms ->
  Forall (fun m => rank m = 3 \/ rank m = 2) ms ->
  ms = (filter (fun m => Nat.eqb (rank m) 3) ms
        ++ filter (fun m => Nat.eqb (rank m) 2) ms)%list.
Proof.
  induction 1 as [|m l Hl IH Hm]; intros Hranks; [reflexivity|].
  inversion Hranks as [|? ? Hrm Hrl]; subst.
  cbn [filter]. destruct Hrm as [Hr|Hr]; rewrite Hr; cbn [Nat.eqb app].
  - f_equal. apply IH, Hrl.
  - assert (Hall : Forall (fun x => rank x = 2) l).
    { rewrite Forall_forall in Hm, Hrl |- *. intros x Hx.
      specialize (Hm x Hx). destruct (Hrl x Hx); lia. }
    replace (filter (fun x => Nat.eqb (rank x) 3) l) with (@nil Match).
    + cbn [app]. f_equal. symmetry. apply forallb_filter_id.
      apply forallb_forall. rewrite Forall_forall in Hall.
      intros x Hx. rewrite (Hall x Hx). reflexivity.
    + symmetry. clear -Hall. induction Hall as [|x l Hx Hl IH];
        [reflexivity|]. cbn [filter]. rewrite Hx. exact IH.
Qed.

Lemma hd_flat_map {A B : Type} (g : A -> list B) (l : list A) :
  hd_error (flat_map g l)
  = match find (fun x => match g x with [] => false | _ :: _ => true end) l
    with
    | Some x => hd_error (g x)
    | None => None
    end.
Proof.
  induction l as [|x l IH]; [reflexivity|].
  cbn [flat_map find]. destruct (g x) as [|y ys] eqn:Hg; [exact IH|].
  rewrite Hg. reflexivity.
Qed.

Lemma find_ext_in {A : Type} (f g : A -> bool) (l : list A) :
  (forall x, In x l -> f x = g x) -> find f l = find g l.
Proof.
  induction l as [|x l IH]; intros H; [reflexivity|].
  cbn [find]. rewrite (H x (or_introl eq_refl)).
  rewrite IH; [reflexivity|]. intros y Hy. apply H. right. exact Hy.
Qed.

Lemma find_qualifies_order (o : SetOrder) (nf : string) (s : PySet) :
  match find (qualifies nf) (set_iter o s) with
  | Some _ => true
  | None => false
  end = existsb (qualifies nf) s.
Proof.
  apply eq_true_iff_eq. rewrite existsb_exists. split.
  - destruct (find (qualifies nf) (set_iter o s)) as [v|] eqn:Hf;
      [|discriminate].
    intros _. apply find_some in Hf. destruct Hf as [Hin Hq].
    exists v. split; [|exact Hq].
    eapply Permutation_in; [apply set_iter_perm|exact Hin].
  - intros (v & Hin & Hq).
    destruct (find (qualifies nf) (set_iter o s)) as [u|] eqn:Hf;
      [reflexivity|].
    eapply find_none in Hf;
      [|eapply Permutation_in;
        [apply Permutation_sym, set_iter_perm|exact Hin]].
    congruence.
Qed.

(** X16: the best match, that is the first element of the result of
    [match_photo_to_player].  It is the exact match of the first roster row
    whose variation set holds the normalized stem, when there is such a row;
    otherwise it is the partial match of the first roster row that has a
    qualifying variation, for the first one in iteration order; and the
    result is empty when there is no such row either. *)
Theorem best_match_selection (o : SetOrder) (photo_name : string)
    (players : list Player) :
  let nf := normalize_name (path_stem photo_name) in
  exists ms,
    match_photo_to_player o photo_name players = Ok ms /\
    hd_error ms
    = match find (exact_row o nf) players with
      | Some p => Some (exact_match p nf)
      | None =>
          match find (partial_row o nf) players with
          | Some p =>
              option_map (partial_match p)
                (find (qualifies nf)
                      (set_iter o (generate_name_variations o p)))
          | None => None
          end
      end.
Proof.
  intros nf.
  destruct (match_photo_to_player_sorted o photo_name players)
    as (ms & Hms & Hperm & Hsorted & Hstable).
  fold nf in Hperm, Hstable. exists ms. split; [exact Hms|].
  assert (Hranks : Forall (fun m => rank m = 3 \/ rank m = 2) ms).
  { apply Forall_forall. intros m Hm.
    apply (Permutation_in _ Hperm), collect_matches_confidence in Hm.
    unfold rank, confidence_key.
    destruct Hm as [[_ ->]|[_ ->]]; [left|right]; reflexivity. }
  rewrite (sorted_two_ranks ms Hsorted Hranks), !Hstable.
  rewrite collect_matches_flat_map, !filter_flat_map.
  assert (Hhigh : forall p,
            filter (fun m => Nat.eqb (rank m) 3) (player_matches o nf p)
            = if exact_row o nf p then [exact_match p nf] else []).
  { intros p. unfold exact_row.
    destruct (set_mem nf (generate_name_variations o p)) eqn:Hm.
    - rewrite (player_matches_exact o nf p Hm). reflexivity.
    - rewrite (player_matches_partial o nf p Hm).
      destruct (find _ _); reflexivity. }
  assert (Hmedium : forall p,
            filter (fun m => Nat.eqb (rank m) 2) (player_matches o nf p)
            = if exact_row o nf p then []
              else match find (qualifies nf)
                           (set_iter o (generate_name_variations o p)) with
                   | Some v => [partial_match p v]
                   | None => []
                   end).
  { intros p. unfold exact_row.
    destruct (set_mem nf (generate_name_variations o p)) eqn:Hm.
    - rewrite (player_matches_exact o nf p Hm). reflexivity.
    - rewrite (player_matches_partial o nf p Hm).
      destruct (find _ _); reflexivity. }
  rewrite (flat_map_ext _ _ Hhigh), (flat_map_ext _ _ Hmedium).
  clear Hms Hperm Hsorted Hstable Hranks Hhigh Hmedium ms.
  set (high := flat_map _ players). set (medium := flat_map _ players).
  assert (Hhd : hd_error (high ++ medium)
                = match hd_error high with
                  | Some m => Some m
                  | None => hd_error medium
                  end)
    by (destruct high; reflexivity).
  rewrite Hhd. unfold high, medium. rewrite !hd_flat_map.
  rewrite (find_ext_in _ (exact_row o nf) players)
    by (intros p _; destruct (exact_row o nf p); reflexivity).
  destruct (find (exact_row o nf) players) as [p|] eqn:Hexact.
  - apply find_some in Hexact. destruct Hexact as [_ ->]. reflexivity.
  - rewrite (find_ext_in _ (partial_row o nf) players).
    + destruct (find (partial_row o nf) players) as [p|] eqn:Hpartial;
        [|reflexivity].
      apply find_some in Hpartial. destruct Hpartial as [Hin _].
      rewrite (find_none _ _ Hexact p Hin).
      destruct (find (qualifies nf)
                  (set_iter o (generate_name_variations o p)));
        reflexivity.
    + intros p Hin. rewrite (find_none _ _ Hexact p Hin).
      unfold partial_row.
      rewrite <- (find_qualifies_order o nf (generate_name_variations o p)).
      destruct (find (qualifies nf)
                  (set_iter o (generate_name_variations o p)));
        reflexivity.
Qed.

(* ================================================================== *)
(** ** rename_files *)

(** What one operation sends to the Drive service and what it reports. *)
Lemma rename_one_cases (drive : Drive) (log : list DriveCall)
    (rename_op : JsonObject) :
  let photo_id := dict_get_default rename_op "photo_id" PyNone in
  let new_filename :=
    py_str (dict_get_default rename_op "new_name" PyNone)
    ++ path_suffix (py_str (dict_get_default rename_op "current_name" PyNone))
  in
  let result := fst (rename_one drive log rename_op) in
  let log' := snd (rename_one drive log rename_op) in
  (effective rename_op = false /\ log' = log /\
   (RenameResult.status result = "skipped" \/
    RenameResult.status result = "error")) \/
  (effective rename_op = true /\
   ((log' = (log ++ [FilesGet photo_id])%list /\
     RenameResult.status result = "error") \/
    (log' = ((log ++ [FilesGet photo_id])
             ++ [FilesCopy photo_id new_filename])%list /\
     RenameResult.status result = "error") \/
    (log' = (((log ++ [FilesGet photo_id])
              ++ [FilesCopy photo_id new_filename])
             ++ [FilesDelete photo_id])%list /\
     (exists new_id,
         drive (log ++ [FilesGet photo_id])%list
               (FilesCopy photo_id new_filename) = Return new_id) /\
     (RenameResult.status result = "success" \/
      RenameResult.status result = "partial_success")))).
Proof.
  cbv zeta. unfold rename_one, effective. cbv zeta.
  destruct (truthy (dict_get_default rename_op "photo_id" PyNone)
            && truthy (dict_get_default rename_op "current_name" PyNone)
            && truthy (dict_get_default rename_op "new_name" PyNone));
    cbn [negb andb]; [|left; auto].
  destruct (String.eqb _ _); cbn [negb]; [left; auto|].
  right. split; [reflexivity|].
  destruct (drive log _) as [original|e]; [|left; auto].
  destruct (drive _ (FilesCopy _ _)) as [new_id|e] eqn:Hcopy;
    [|right; left; auto].
  right. right.
  destruct (drive _ (FilesDelete _)) as [deleted|e]; cbn [fst snd];
    (split; [reflexivity|split; [eauto|auto]]).
Qed.

(** The effect of one operation, in numbers. *)
Lemma rename_one_effect (drive : Drive) (log : list DriveCall)
    (rename_op : JsonObject) :
  SafeLog drive log ->
  let result := fst (rename_one drive log rename_op) in
  exists calls,
    snd (rename_one drive log rename_op) = (log ++ calls)%list /\
    SafeLog drive (log ++ calls) /\
    count_status "success" [result] + count_status "skipped" [result]
    + count_status "error" [result]
    + count_status "partial_success" [result] = 1 /\
    List.length (filter is_delete calls)
    = count_status "success" [result]
      + count_status "partial_success" [result] /\
    List.length (filter is_copy calls)
    <= (if effective rename_op then 1 else 0) /\
    (effective rename_op = false -> calls = []) /\
    (effective rename_op = true -> calls <> []).
Proof.
  intros Hsafe. cbv zeta.
  pose proof (rename_one_cases drive log rename_op) as Hcases.
  cbv zeta in Hcases. unfold count_status. cbn [filter].
  set (id := dict_get_default rename_op "photo_id" PyNone) in *.
  set (name := py_str (dict_get_default rename_op "new_name" PyNone)
               ++ path_suffix
                    (py_str (dict_get_default rename_op "current_name"
                               PyNone))) in *.
  destruct Hcases
    as [(Heff & Hlog & Hst)
       |(Heff & [(Hlog & Hst)|[(Hlog & Hst)|(Hlog & (new_id & Hnew) & Hst)]])];
    rewrite Heff, Hlog.
  - exists []. rewrite app_nil_r.
    split; [reflexivity|]. split; [exact Hsafe|].
    destruct Hst as [-> | ->]; cbn; repeat split; auto; discriminate.
  - exists [FilesGet id]. split; [reflexivity|].
    split; [apply SafeLog_get, Hsafe|].
    rewrite Hst. cbn. repeat split; auto; discriminate.
  - exists [FilesGet id; FilesCopy id name].
    assert (Heq : ((log ++ [FilesGet id]) ++ [FilesCopy id name])%list
                  = (log ++ [FilesGet id; FilesCopy id name])%list)
      by (rewrite <- app_assoc; reflexivity).
    split; [exact Heq|].
    split; [rewrite <- Heq; apply SafeLog_copy, SafeLog_get, Hsafe|].
    rewrite Hst. cbn. repeat split; auto; discriminate.
  - exists [FilesGet id; FilesCopy id name; FilesDelete id].
    assert (Heq : (((log ++ [FilesGet id]) ++ [FilesCopy id name])
                   ++ [FilesDelete id])%list
                  = (log ++ [FilesGet id; FilesCopy id name;
                             FilesDelete id])%list)
      by (rewrite <- !app_assoc; reflexivity).
    split; [exact Heq|]. split.
    { rewrite <- Heq. eapply SafeLog_delete; [|exact Hnew].
      apply SafeLog_copy, SafeLog_get, Hsafe. }
    destruct Hst as [-> | ->]; cbn; repeat split; auto; discriminate.
Qed.

Lemma rename_fold_snoc (drive : Drive) (renames : list JsonObject)
    (rename_op : JsonObject) (state : list RenameResult.t * list DriveCall) :
  fold_left (rename_step drive) (renames ++ [rename_op]) state
  = rename_step drive (fold_left (rename_step drive) renames state)
                rename_op.
Proof. rewrite fold_left_app. reflexivity. Qed.

Lemma rename_step_eq (drive : Drive)
    (state : list RenameResult.t * list DriveCall) (rename_op : JsonObject) :
  rename_step drive state rename_op
  = ((fst state ++ [fst (rename_one drive (snd state) rename_op)])%list,
     snd (rename_one drive (snd state) rename_op)).
Proof.
  unfold rename_step. destruct state as [results log]. cbn [fst snd].
  destruct (rename_one drive log rename_op). reflexivity.
Qed.

Lemma count_status_app (status : string) (l1 l2 : list RenameResult.t) :
  count_status status (l1 ++ l2)
  = count_status status l1 + count_status status l2.
Proof. unfold count_status. rewrite filter_app, length_app. reflexivity. Qed.

(** The loop keeps one result per operation and a safe log. *)
Lemma rename_fold_invariant (drive : Drive) (renames : list JsonObject)
    (log0 : list DriveCall) :
  SafeLog drive log0 ->
  let results := fst (fold_left (rename_step drive) renames ([], log0)) in
  let log := snd (fold_left (rename_step drive) renames ([], log0)) in
  List.length results = List.length renames /\
  count_status "success" results + count_status "skipped" results
  + count_status "error" results + count_status "partial_success" results
  = List.length renames /\
  List.length (filter is_delete log)
  = List.length (filter is_delete log0)
    + count_status "success" results
    + count_status "partial_success" results /\
  List.length (filter is_copy log)
  <= List.length (filter is_copy log0)
     + List.length (filter effective renames) /\
  (filter effective renames = [] -> log = log0) /\
  SafeLog drive log.
Proof.
  intros Hsafe. cbv zeta.
  induction renames as [|rename_op renames IH] using rev_ind.
  - cbn. repeat split; try lia; auto.
  - rewrite rename_fold_snoc, rename_step_eq. cbn [fst snd].
    destruct IH as (Hlen & Hcount & Hdel & Hcopy & Hnone & Hlog).
    set (state := fold_left (rename_step drive) renames ([], log0)) in *.
    destruct (rename_one_effect drive (snd state) rename_op Hlog)
      as (calls & Hcalls & Hsafe' & Hone & Hdel' & Hcopy' & Hno & Hyes).
    cbv zeta in Hone, Hdel'. rewrite Hcalls.
    set (result := fst (rename_one drive (snd state) rename_op)) in *.
    rewrite !length_app, !count_status_app, !filter_app, !length_app.
    cbn [List.length filter].
    split; [lia|]. split; [lia|]. split; [lia|]. split; [|split].
    + destruct (effective rename_op); cbn [List.length]; lia.
    + destruct (effective rename_op) eqn:Heff.
      * intros H. apply app_eq_nil in H. destruct H as [_ H].
        discriminate H.
      * rewrite app_nil_r. intros H.
        rewrite (Hno eq_refl), app_nil_r. apply Hnone, H.
    + exact Hsafe'.
Qed.


(** X18: what [rename_files] asks of the Drive service.  A file is
    deleted only by the request that directly follows a successful copy of
    that same file; when the answer is the 400 or the 403 error, nothing was
    copied or deleted; in a report there are as many deletions as successes
    and partial successes; there are at most as many copies as there are
    operations with all three fields and a new name that differs, letter case
    aside, from the current stem; and when a report is given for a request
    that holds no such operation, only the two requests of the access test
    were sent.  Nothing is stated of the requests that precede a 500
    error. *)
Theorem rename_files_requests (authenticate : Try unit) (drive : Drive)
    (renames : list JsonObject) :
  let response := fst (rename_files authenticate drive renames) in
  let log := snd (rename_files authenticate drive renames) in
  SafeLog drive log /\
  List.length (filter is_copy log)
  <= List.length (filter effective renames) /\
  match response with
  | Renamed report =>
      List.length (filter is_delete log)
      = RenameReport.successful report
        + count_status "partial_success" (RenameReport.results report) /\
      (filter effective renames = [] -> List.length log = 2)
  | NoRenameGiven | CannotAccessFiles _ =>
      filter is_copy log = [] /\ filter is_delete log = []
  | RenameFailed _ => True
  end.
Proof.
  cbv zeta. unfold rename_files.
  destruct renames as [|first rest].
  { cbn. repeat split; auto. constructor. }
  destruct authenticate as [service|e].
  2:{ cbn [fst snd filter List.length]. repeat split; [constructor|lia]. }
  destruct (drive [] _) as [files|e].
  2:{ cbn [fst snd filter is_copy is_delete List.length].
      repeat split; [apply (SafeLog_list _ []); constructor|lia]. }
  destruct (dict_get first "photo_id") as [test_id|e].
  2:{ cbn [fst snd filter is_copy is_delete List.length].
      repeat split; [apply (SafeLog_list _ []); constructor|lia]. }
  assert (Htest : SafeLog drive
                    ([FilesList RENAME_FOLDER_QUERY] ++ [FilesGet test_id]))
    by (apply SafeLog_get, (SafeLog_list _ []); constructor).
  destruct (drive _ (FilesGet test_id)) as [metadata|e].
  2:{ cbn [fst snd app filter is_copy is_delete List.length].
      repeat split; [exact Htest|lia]. }
  pose proof (rename_fold_invariant drive (first :: rest) _ Htest) as Hinv.
  cbv zeta in Hinv.
  destruct (fold_left (rename_step drive) (first :: rest) _)
    as [results log].
  cbn [fst snd] in *.
  destruct Hinv as (_ & _ & Hdel & Hcopy & Hnone & Hsafe).
  change (List.length
            (filter is_delete
               ([FilesList RENAME_FOLDER_QUERY] ++ [FilesGet test_id])))
    with 0 in Hdel.
  change (List.length
            (filter is_copy
               ([FilesList RENAME_FOLDER_QUERY] ++ [FilesGet test_id])))
    with 0 in Hcopy.
  cbn [RenameReport.results RenameReport.successful].
  split; [exact Hsafe|]. split; [lia|]. split; [lia|].
  intros H. rewrite (Hnone H). reflexivity.
Qed.

Lemma rename_fold_calls (drive : Drive) (all_renames : list JsonObject)
    (renames : list JsonObject) (log0 : list DriveCall) :
  incl renames all_renames ->
  Forall (requested_by all_renames) log0 ->
  Forall (requested_by all_renames)
         (snd (fold_left (rename_step drive) renames ([], log0))).
Proof.
  intros Hincl Hlog0.
  induction renames as [|rename_op renames IH] using rev_ind;
    [exact Hlog0|].
  rewrite rename_fold_snoc, rename_step_eq. cbn [fst snd].
  assert (IH' := IH (fun x Hx => Hincl x (in_or_app _ _ x (or_introl Hx)))).
  assert (Hop : In rename_op all_renames)
    by (apply Hincl, in_or_app; right; left; reflexivity).
  set (state := fold_left (rename_step drive) renames ([], log0)) in *.
  pose proof (rename_one_cases drive (snd state) rename_op) as Hcases.
  cbv zeta in Hcases.
  destruct Hcases
    as [(Heff & -> & _)
       |(Heff & [(-> & _)|[(-> & _)|(-> & _ & _)]])].
  - exact IH'.
  - apply Forall_app. split; [exact IH'|]. repeat constructor.
  - rewrite !Forall_app. repeat split; [exact IH'| |];
      repeat constructor.
    exists rename_op. repeat split; assumption.
  - rewrite !Forall_app. repeat split; [exact IH'| | |];
      repeat constructor.
    + exists rename_op. repeat split; assumption.
    + exists rename_op. repeat split; assumption.
Qed.

(** X19: every copy that [rename_files] requests is the copy of the file
    of an operation of the request that has its three fields and a new name
    differing from the current stem, and it is named by the new name
    followed by the extension of the current name; every deletion is that of
    the file of such an operation. *)
Theorem rename_files_copy_names (authenticate : Try unit) (drive : Drive)
    (renames : list JsonObject) :
  Forall (requested_by renames)
         (snd (rename_files authenticate drive renames)).
Proof.
  unfold rename_files.
  destruct renames as [|first rest]; [constructor|].
  destruct authenticate as [service|e]; [|constructor].
  destruct (drive [] _) as [files|e]; [|repeat constructor].
  destruct (dict_get first "photo_id") as [test_id|e];
    [|repeat constructor].
  destruct (drive _ (FilesGet test_id)) as [metadata|e];
    [|repeat constructor].
  pose proof (rename_fold_calls drive (first :: rest) (first :: rest)
                ([FilesList RENAME_FOLDER_QUERY] ++ [FilesGet test_id])
                (incl_refl _)) as Hcalls.
  destruct (fold_left (rename_step drive) (first :: rest) _)
    as [results log].
  cbn [snd] in *. apply Hcalls. repeat constructor.
Qed.

Lemma file_get_dict_get (file : DriveFile) (key : string) :
  has_key file key = true ->
  dict_get file key = Ok (file_get file key "").
Proof.
  induction file as [|[k v] file IH]; cbn [has_key existsb fst];
    [intros H; discriminate H|].
  cbn [dict_get file_get]. destruct (String.eqb key k); [reflexivity|].
  exact IH.
Qed.

Lemma photo_of_file_complete (file : DriveFile) :
  complete file = true -> photo_of_file file = Ok (listed_photo file).
Proof.
  unfold complete. rewrite !andb_true_iff. intros [[Hid Hname] Hmime].
  unfold photo_of_file.
  rewrite (file_get_dict_get _ _ Hid), (file_get_dict_get _ _ Hname),
    (file_get_dict_get _ _ Hmime).
  reflexivity.
Qed.

Lemma photos_fold_raise (files : list DriveFile) (e : PyExc) :
  fold_left photos_step files (Raise e) = Raise e.
Proof. induction files as [|file files IH]; [reflexivity|exact IH]. Qed.

(** The loop over the files of a page, all complete: the photos of the
    image files are appended in order. *)
Lemma photos_fold_complete (files : list DriveFile)
    (photos : list DrivePhoto.t) :
  Forall (fun file => complete file = true) files ->
  fold_left photos_step files (Ok photos)
  = Ok (photos ++ map listed_photo (filter is_image files))%list.
Proof.
  intros Hall. revert photos.
  induction Hall as [|file files Hfile _ IH]; intros photos.
  - cbn [fold_left filter map]. rewrite app_nil_r. reflexivity.
  - cbn [fold_left filter].
    assert (Hstep : photos_step (Ok photos) file
                    = Ok (if is_image file
                          then (photos ++ [listed_photo file])%list
                          else photos)).
    { unfold photos_step. cbn [bind].
      assert (Hmime : has_key file "mimeType" = true).
      { unfold complete in Hfile. rewrite !andb_true_iff in Hfile.
        apply Hfile. }
      rewrite (file_get_dict_get _ _ Hmime). cbn [bind].
      fold (is_image file). destruct (is_image file); [|reflexivity].
      rewrite (photo_of_file_complete _ Hfile). reflexivity. }
    rewrite Hstep, IH. destruct (is_image file); [|reflexivity].
    cbn [map]. rewrite <- app_assoc. reflexivity.
Qed.

(** The loop over the files of a page keeps the photos that it has and
    appends only images. *)
Lemma photos_fold_images (files : list DriveFile)
    (photos : PyResult (list DrivePhoto.t)) :
  match photos with
  | Ok photos => Forall listed_image photos
  | Raise _ => True
  end ->
  match fold_left photos_step files photos with
  | Ok photos => Forall listed_image photos
  | Raise _ => True
  end.
Proof.
  revert photos.
  induction files as [|file files IH]; intros photos Hphotos;
    [exact Hphotos|].
  cbn [fold_left]. apply IH.
  destruct photos as [photos|e]; [|exact I].
  unfold photos_step. cbn [bind].
  destruct (dict_get file "mimeType") as [mime|e] eqn:Hmime; [|exact I].
  cbn [bind].
  destruct (existsb (String.eqb mime) image_mimes) eqn:Himage;
    [|exact Hphotos].
  unfold photo_of_file.
  destruct (dict_get file "id") as [id|e]; [|exact I].
  destruct (dict_get file "name") as [name|e]; [|exact I].
  rewrite Hmime. cbn [bind].
  apply Forall_app. split; [exact Hphotos|].
  constructor; [|constructor].
  split; [|reflexivity]. cbn [DrivePhoto.mimeType].
  apply existsb_exists in Himage. destruct Himage as (m & Hin & Heq).
  apply String.eqb_eq in Heq. subst m. exact Hin.
Qed.

Lemma get_photos_loop_images (fuel : nat)
    (list_files : list PyValue -> Try FilesPage.t) (sent : list PyValue)
    (page_token : PyValue) (photos : list DrivePhoto.t) :
  Forall listed_image photos ->
  match get_photos_loop fuel list_files sent page_token photos with
  | Photos photos => Forall listed_image photos
  | _ => True
  end.
Proof.
  revert sent page_token photos.
  induction fuel as [|fuel IH]; intros sent page_token photos Hphotos;
    [exact I|].
  cbn [get_photos_loop].
  destruct (list_files _) as [results|e]; [|exact I].
  pose proof (photos_fold_images (FilesPage.files results) (Ok photos)
                Hphotos) as Hfold.
  destruct (fold_left photos_step _ _) as [photos'|e]; [|exact I].
  destruct (negb (truthy (FilesPage.nextPageToken results)));
    [exact Hfold|].
  apply IH. exact Hfold.
Qed.

(** X20: whatever the Drive service answers, the photos that
    [get_photos_from_folder] returns, in the application and in the script,
    all have an image MIME type of the list, and their direct link is the
    download address of their id. *)
Theorem listed_photos_are_images (fuel : nat) (drive_service : FilesLister)
    (folder_id : string) :
  match App.get_photos_from_folder fuel drive_service folder_id with
  | Photos photos => Forall listed_image photos
  | _ => True
  end /\
  match Script.get_photos_from_folder fuel drive_service folder_id with
  | Photos photos => Forall listed_image photos
  | _ => True
  end.
Proof.
  unfold App.get_photos_from_folder, Script.get_photos_from_folder.
  pose proof (get_photos_loop_images fuel
                (drive_service (folder_query folder_id)) [] PyNone []
                (Forall_nil _)) as Hloop.
  destruct (get_photos_loop _ _ _ _ _) as [photos|e|e|code|];
    try (split; exact I).
  - split; exact Hloop.
  - destruct e; split; exact I.
Qed.

(** The loop on a service that serves [pages]. *)
Lemma get_photos_loop_serves (list_files : list PyValue -> Try FilesPage.t)
    (pages : list FilesPage.t) (ending : Ending) :
  all_complete pages ->
  forall (fuel : nat) (sent : list PyValue) (page_token : PyValue)
         (photos : list DrivePhoto.t),
  serves list_files sent page_token pages ending ->
  get_photos_loop fuel list_files sent page_token photos
  = match ending with
    | LastPage =>
        if (List.length pages <=? fuel)%nat
        then Photos (photos ++ flat_map page_photos pages)%list
        else ListingRuns
    | Fails e =>
        if (List.length pages <? fuel)%nat
        then ListingRaises e
        else ListingRuns
    end.
Proof.
  intros Hall.
  induction Hall as [|page rest Hpage Hrest IH];
    intros fuel sent page_token photos Hserves.
  - cbn [serves] in Hserves. destruct ending as [|e]; [contradiction|].
    destruct fuel as [|fuel]; [reflexivity|].
    cbn [get_photos_loop]. rewrite Hserves. reflexivity.
  - cbn [serves] in Hserves. destruct Hserves as [Hanswer Hnext].
    destruct fuel as [|fuel];
      [destruct ending; reflexivity|].
    cbn [get_photos_loop]. rewrite Hanswer.
    rewrite (photos_fold_complete _ photos Hpage).
    fold (page_photos page).
    assert (Hcontinue :
              truthy (FilesPage.nextPageToken page) = true /\
              serves list_files (sent ++ [page_token])%list
                     (FilesPage.nextPageToken page) rest ending ->
              (if negb (truthy (FilesPage.nextPageToken page))
               then Photos (photos ++ page_photos page)%list
               else get_photos_loop fuel list_files
                      (sent ++ [page_token])%list
                      (FilesPage.nextPageToken page)
                      (photos ++ page_photos page)%list)
              = match ending with
                | LastPage =>
                    if (List.length (page :: rest) <=? S fuel)%nat
                    then Photos
                           (photos ++ flat_map page_photos (page :: rest))%list
                    else ListingRuns
                | Fails e =>
                    if (List.length (page :: rest) <? S fuel)%nat
                    then ListingRaises e
                    else ListingRuns
                end).
    { intros [Htoken Hserves]. rewrite Htoken. cbn [negb].
      rewrite (IH fuel _ _ _ Hserves).
      cbn [List.length flat_map]. rewrite <- app_assoc.
      destruct ending; reflexivity. }
    destruct rest as [|page' rest'].
    + destruct ending as [|e]; [|exact (Hcontinue Hnext)].
      rewrite Hnext. cbn [negb List.length flat_map].
      rewrite app_nil_r. reflexivity.
    + destruct ending; exact (Hcontinue Hnext).
Qed.

(** X21: when the Drive service answers the requests of the loop by a
    sequence of pages, each announcing the next but the last, and every file
    has its id, name and MIME type, [get_photos_from_folder] returns, after
    as many requests as there are pages, the image files of all the pages, in
    the order of the pages and of the files within a page; it makes one
    request per page, so that it is still in its loop after fewer
    requests. *)
Theorem get_photos_from_folder_pages (drive_service : FilesLister)
    (folder_id : string) (pages : list FilesPage.t)
    (Hserves : serves (drive_service (folder_query folder_id)) [] PyNone
                      pages LastPage)
    (Hcomplete : all_complete pages) :
  forall fuel : nat,
    (List.length pages <= fuel ->
     App.get_photos_from_folder fuel drive_service folder_id
     = Photos (flat_map page_photos pages) /\
     Script.get_photos_from_folder fuel drive_service folder_id
     = Photos (flat_map page_photos pages)) /\
    (fuel < List.length pages ->
     App.get_photos_from_folder fuel drive_service folder_id = ListingRuns /\
     Script.get_photos_from_folder fuel drive_service folder_id
     = ListingRuns).
Proof.
  intros fuel.
  unfold App.get_photos_from_folder, Script.get_photos_from_folder.
  rewrite (get_photos_loop_serves _ pages LastPage Hcomplete fuel [] PyNone
             [] Hserves).
  cbn [app]. split; intros Hfuel.
  - apply Nat.leb_le in Hfuel. rewrite Hfuel. split; reflexivity.
  - apply Nat.leb_gt in Hfuel. rewrite Hfuel. split; reflexivity.
Qed.

Lemma get_photos_from_folder_pages_witness :
  App.get_photos_from_folder 2 two_pages "folder"
  = Photos (flat_map page_photos [team_page; last_page]).
Proof.
  apply (get_photos_from_folder_pages two_pages "folder"
           [team_page; last_page]).
  - cbn. repeat split.
  - repeat constructor.
  - cbn. lia.
Defined.

(** X22: when a request of the loop raises after the service has answered
    some pages, [get_photos_from_folder] returns no photo at all: in the
    application the exception leaves the function, and in the script an
    [HttpError] ends the process with exit code 1, any other exception
    leaving the function. *)
Theorem get_photos_from_folder_failure (drive_service : FilesLister)
    (folder_id : string) (pages : list FilesPage.t) (e : Exception)
    (Hserves : serves (drive_service (folder_query folder_id)) [] PyNone
                      pages (Fails e))
    (Hcomplete : all_complete pages) :
  forall fuel : nat,
    List.length pages < fuel ->
    App.get_photos_from_folder fuel drive_service folder_id
    = ListingRaises e /\
    Script.get_photos_from_folder fuel drive_service folder_id
    = match e with
      | HttpError _ => ListingExit 1
      | _ => ListingRaises e
      end.
Proof.
  intros fuel Hfuel.
  unfold App.get_photos_from_folder, Script.get_photos_from_folder.
  rewrite (get_photos_loop_serves _ pages (Fails e) Hcomplete fuel [] PyNone
             [] Hserves).
  apply Nat.ltb_lt in Hfuel. rewrite Hfuel.
  split; [reflexivity|]. destruct e; reflexivity.
Qed.

Lemma get_photos_from_folder_failure_witness :
  App.get_photos_from_folder 2 failing_second "folder"
  = ListingRaises (HttpError "500") /\
  Script.get_photos_from_folder 2 failing_second "folder" = ListingExit 1.
Proof.
  apply (get_photos_from_folder_failure failing_second "folder" [team_page]
           (HttpError "500")).
  - cbn. repeat split.
  - repeat constructor.
  - cbn. lia.
Defined.

Lemma get_photos_loop_endless (list_files : list PyValue -> Try FilesPage.t) :
  (forall sent : list PyValue,
      exists page : FilesPage.t,
        list_files sent = Return page /\
        truthy (FilesPage.nextPageToken page) = true /\
        Forall (fun file => complete file = true) (FilesPage.files page)) ->
  forall (fuel : nat) (sent : list PyValue) (page_token : PyValue)
         (photos : list DrivePhoto.t),
    get_photos_loop fuel list_files sent page_token photos = ListingRuns.
Proof.
  intros Hnext fuel.
  induction fuel as [|fuel IH]; intros sent page_token photos;
    [reflexivity|].
  cbn [get_photos_loop].
  destruct (Hnext (sent ++ [page_token])%list)
    as (page & -> & Htoken & Hfiles).
  rewrite (photos_fold_complete _ photos Hfiles), Htoken. cbn [negb].
  apply IH.
Qed.

(** X23: the loop of [get_photos_from_folder] has no bound of its own: on a
    service that announces a next page in every answer it never returns,
    however many requests it is allowed. *)
Theorem get_photos_from_folder_endless (drive_service : FilesLister)
    (folder_id : string)
    (Hnext : forall sent : list PyValue,
        exists page : FilesPage.t,
          drive_service (folder_query folder_id) sent = Return page /\
          truthy (FilesPage.nextPageToken page) = true /\
          Forall (fun file => complete file = true)
                 (FilesPage.files page)) :
  forall fuel : nat,
    App.get_photos_from_folder fuel drive_service folder_id = ListingRuns /\
    Script.get_photos_from_folder fuel drive_service folder_id = ListingRuns.
Proof.
  intros fuel.
  unfold App.get_photos_from_folder, Script.get_photos_from_folder.
  rewrite (get_photos_loop_endless _ Hnext). split; reflexivity.
Qed.

Lemma get_photos_from_folder_endless_witness :
  App.get_photos_from_folder 1000 endless "folder" = ListingRuns /\
  Script.get_photos_from_folder 1000 endless "folder" = ListingRuns.
Proof.
  apply (get_photos_from_folder_endless endless "folder").
  intros sent. eexists. split; [reflexivity|]. split; [reflexivity|].
  constructor.
Defined.

(* ================================================================== *)
(** ** Rows of strings: the two matchers agree *)





















(* ================================================================== *)
(** ** Blank parent cells *)

Lemma same_element_refl (x : Cells.Cell) : Cells.same_element x x = true.
Proof.
  destruct x as [[|s]|text nonzero tag]; cbn [Cells.same_element];
    [reflexivity|apply String.eqb_refl|apply Nat.eqb_refl].
Qed.

Lemma cell_set_add_keeps (x y : Cells.Cell) (s : Cells.CellSet) :
  In y s -> In y (Cells.cell_set_add x s).
Proof.
  unfold Cells.cell_set_add. intros Hy.
  destruct (existsb _ s); [exact Hy|]. apply in_or_app. left. exact Hy.
Qed.

Lemma cell_set_add_has (x : Cells.Cell) (s : Cells.CellSet) :
  exists y, In y (Cells.cell_set_add x s) /\ Cells.same_element x y = true.
Proof.
  unfold Cells.cell_set_add.
  destruct (existsb (Cells.same_element x) s) eqn:Hmem.
  - apply existsb_exists in Hmem. exact Hmem.
  - exists x. split; [apply in_or_app; right; left; reflexivity|].
    apply same_element_refl.
Qed.

Lemma cell_set_add_from (x y : Cells.Cell) (s : Cells.CellSet) :
  In y (Cells.cell_set_add x s) -> In y s \/ y = x.
Proof.
  unfold Cells.cell_set_add. destruct (existsb _ s); [auto|].
  intros Hy. apply in_app_or in Hy. destruct Hy as [Hy|[<-|[]]]; auto.
Qed.

Lemma cell_set_add_all_keeps (xs : list Cells.Cell) (y : Cells.Cell)
    (s : Cells.CellSet) :
  In y s -> In y (Cells.cell_set_add_all xs s).
Proof.
  unfold Cells.cell_set_add_all. revert s.
  induction xs as [|x xs IH]; intros s Hy; [exact Hy|].
  cbn [fold_left]. apply IH, cell_set_add_keeps, Hy.
Qed.

Lemma cell_set_add_all_has (xs : list Cells.Cell) (x : Cells.Cell)
    (s : Cells.CellSet) :
  In x xs ->
  exists y,
    In y (Cells.cell_set_add_all xs s) /\ Cells.same_element x y = true.
Proof.
  unfold Cells.cell_set_add_all. revert s.
  induction xs as [|x' xs IH]; intros s Hx; [contradiction|].
  cbn [fold_left]. destruct Hx as [->|Hx]; [|apply IH, Hx].
  destruct (cell_set_add_has x s) as (y & Hy & Hsame).
  exists y. split; [|exact Hsame].
  apply (cell_set_add_all_keeps xs), Hy.
Qed.

Lemma cell_set_add_all_from (P : Cells.Cell -> Prop) (xs : list Cells.Cell)
    (s : Cells.CellSet) :
  Forall P xs -> Forall P s -> Forall P (Cells.cell_set_add_all xs s).
Proof.
  unfold Cells.cell_set_add_all. intros Hxs. revert s.
  induction Hxs as [|x xs Hx _ IH]; intros s Hs; [exact Hs|].
  cbn [fold_left]. apply IH. apply Forall_forall. intros y Hy.
  apply cell_set_add_from in Hy. rewrite Forall_forall in Hs.
  destruct Hy as [Hy| ->]; [apply Hs, Hy|exact Hx].
Qed.

Lemma add_parent_variations_from (s : Cells.CellSet)
    (parent : Cells.Cell * Cells.Cell) :
  text_or_nan (fst parent) -> text_or_nan (snd parent) ->
  Forall text_or_nan s ->
  Forall text_or_nan (Cells.add_parent_variations s parent).
Proof.
  destruct parent as [parent_first parent_last]. cbn [fst snd].
  intros Hf Hl Hs. unfold Cells.add_parent_variations.
  destruct (_ && _); [|exact Hs].
  apply cell_set_add_all_from; [|exact Hs].
  repeat constructor; assumption.
Qed.

Lemma add_parent_variations_keeps (s : Cells.CellSet)
    (parent : Cells.Cell * Cells.Cell) (y : Cells.Cell) :
  In y s -> In y (Cells.add_parent_variations s parent).
Proof.
  destruct parent as [parent_first parent_last].
  unfold Cells.add_parent_variations. intros Hy.
  destruct (_ && _); [|exact Hy]. apply cell_set_add_all_keeps, Hy.
Qed.

Lemma is_nan_spec (v : Cells.Cell) :
  is_nan v = true -> exists tag, v = Cells.nan tag.
Proof.
  destruct v as [value|text nonzero tag]; cbn [is_nan];
    [intros H; discriminate H|].
  intros H. apply andb_true_iff in H. destruct H as [Ht ->].
  apply String.eqb_eq in Ht. subst text. exists tag. reflexivity.
Qed.

Lemma add_parent_variations_nan (s : Cells.CellSet)
    (parent_first parent_last : Cells.Cell) :
  is_nan parent_first = true -> is_nan parent_last = true ->
  exists y tag,
    In y (Cells.add_parent_variations s (parent_first, parent_last)) /\
    Cells.same_element (Cells.nan tag) y = true.
Proof.
  intros Hf Hl.
  destruct (is_nan_spec _ Hf) as (i & ->).
  destruct (is_nan_spec _ Hl) as (j & ->).
  unfold Cells.add_parent_variations.
  cbn [Cells.nan Cells.cell_truthy andb].
  destruct (cell_set_add_all_has
              [ Cells.Text (Cells.cell_str (Cells.nan i) ++ " "
                            ++ Cells.cell_str (Cells.nan j));
                Cells.Text (Cells.cell_str (Cells.nan i) ++ "_"
                            ++ Cells.cell_str (Cells.nan j));
                Cells.Text (Cells.cell_str (Cells.nan j) ++ "_"
                            ++ Cells.cell_str (Cells.nan i));
                Cells.nan i; Cells.nan j ]
              (Cells.nan i) s) as (y & Hy & Hsame).
  { right. right. right. left. reflexivity. }
  exists y, i. split; [exact Hy|exact Hsame].
Qed.

(** The raw set of a sheet row with a blank parent holds a [nan]. *)
Lemma raw_name_variations_nan (row : Cells.Row) :
  sheet_row row -> blank_parent row = true ->
  Cells.full_name_fails row = false ->
  exists variations y,
    Cells.raw_name_variations row = Return variations /\
    In y variations /\ Cells.normalize_name y = "nan".
Proof.
  intros Hrow Hblank Hfull. unfold sheet_row in Hrow.
  inversion Hrow as [|? ? Hfirst Hrow1]; subst. clear Hrow.
  inversion Hrow1 as [|? ? Hlast Hrow2]; subst. clear Hrow1.
  inversion Hrow2 as [|? ? Hfulln Hrow3]; subst. clear Hrow2.
  inversion Hrow3 as [|? ? Hp1f Hrow4]; subst. clear Hrow3.
  inversion Hrow4 as [|? ? Hp1l Hrow5]; subst. clear Hrow4.
  inversion Hrow5 as [|? ? Hp2f Hrow6]; subst. clear Hrow5.
  inversion Hrow6 as [|? ? Hp2l _]; subst. clear Hrow6.
  unfold Cells.raw_name_variations. cbv zeta.
  set (named := if Cells.cell_truthy (Cells.first_name row)
                   && Cells.cell_truthy (Cells.last_name row)
                then _ else _).
  assert (Hnamed : Forall text_or_nan named).
  { unfold named. destruct (_ && _); [|constructor].
    apply cell_set_add_all_from; [|constructor].
    repeat constructor; assumption. }
  clearbody named.
  assert (Hwith : exists with_full,
             (if Cells.cell_truthy (Cells.full_name row)
              then
                let* underscores :=
                  Cells.cell_replace " " "_" (Cells.full_name row) in
                let* periods :=
                  Cells.cell_replace " " "." (Cells.full_name row) in
                let* hyphens :=
                  Cells.cell_replace " " "-" (Cells.full_name row) in
                Return
                  (Cells.cell_set_add_all
                     [ Cells.full_name row; Cells.Text underscores;
                       Cells.Text periods; Cells.Text hyphens ]
                     named)
              else Return named)
             = Return with_full /\
             Forall text_or_nan with_full).
  { unfold Cells.full_name_fails in Hfull.
    destruct (Cells.full_name row) as [[|full]|text nonzero tag].
    - exists named. split; [reflexivity|exact Hnamed].
    - cbn [Cells.cell_truthy Cells.cell_replace try_bind].
      destruct (truthy full);
        [|exists named; split; [reflexivity|exact Hnamed]].
      eexists. split; [reflexivity|].
      apply cell_set_add_all_from; [|exact Hnamed].
      repeat constructor.
    - subst nonzero. cbn [Cells.cell_truthy].
      exists named. split; [reflexivity|exact Hnamed]. }
  destruct Hwith as (with_full & Hwith & Hall).
  match goal with
  | |- context [try_bind ?m _] => replace m with (Return with_full)
  end.
  cbn [try_bind fold_left].
  eexists.
  assert (Hraw : Forall text_or_nan
                   (Cells.add_parent_variations
                      (Cells.add_parent_variations with_full
                         (Cells.parent1_first row, Cells.parent1_last row))
                      (Cells.parent2_first row, Cells.parent2_last row))).
  { apply add_parent_variations_from; [assumption|assumption|].
    apply add_parent_variations_from; assumption. }
  assert (Hnan : exists y tag,
             In y (Cells.add_parent_variations
                     (Cells.add_parent_variations with_full
                        (Cells.parent1_first row, Cells.parent1_last row))
                     (Cells.parent2_first row, Cells.parent2_last row)) /\
             Cells.same_element (Cells.nan tag) y = true).
  { unfold blank_parent in Hblank. apply orb_true_iff in Hblank.
    destruct Hblank as [H|H]; apply andb_true_iff in H; destruct H as [Ha Hb].
    - destruct (add_parent_variations_nan with_full _ _ Ha Hb)
        as (y & tag & Hy & Hsame).
      exists y, tag. split; [|exact Hsame].
      apply add_parent_variations_keeps, Hy.
    - apply add_parent_variations_nan; assumption. }
  destruct Hnan as (y & tag & Hy & Hsame).
  exists y. split; [reflexivity|]. split; [exact Hy|].
  rewrite Forall_forall in Hraw. specialize (Hraw y Hy).
  destruct y as [[|s]|text nonzero tag']; cbn [Cells.same_element Cells.nan]
    in Hsame; try discriminate Hsame.
  destruct Hraw as [-> ->]. vm_compute. reflexivity.
Qed.

Lemma cells_add_normalized_keeps (l : list Cells.Cell) (acc : PySet)
    (v : string) :
  In v acc -> In v (fold_left Cells.add_normalized l acc).
Proof.
  revert acc. induction l as [|x l IH]; intros acc Hv; [exact Hv|].
  cbn [fold_left]. apply IH. unfold Cells.add_normalized.
  destruct (truthy (Cells.normalize_name x)); [|exact Hv].
  apply set_add_In. right. exact Hv.
Qed.

Lemma cells_add_normalized_has (l : list Cells.Cell) (acc : PySet)
    (x : Cells.Cell) :
  In x l -> Cells.normalize_name x <> "" ->
  In (Cells.normalize_name x) (fold_left Cells.add_normalized l acc).
Proof.
  revert acc. induction l as [|x' l IH]; intros acc Hx Hne; [contradiction|].
  cbn [fold_left]. destruct Hx as [->|Hx]; [|apply IH; assumption].
  apply cells_add_normalized_keeps. unfold Cells.add_normalized.
  destruct (Cells.normalize_name x) as [|c n] eqn:Hn; [congruence|].
  cbn [truthy]. apply set_add_In. left. reflexivity.
Qed.

Lemma generate_name_variations_nan (oc : Cells.CellOrder)
    (row : Cells.Row) :
  sheet_row row -> blank_parent row = true ->
  Cells.full_name_fails row = false ->
  exists variations,
    Cells.generate_name_variations oc row = Return variations /\
    In "nan" variations.
Proof.
  intros Hrow Hblank Hfull.
  destruct (raw_name_variations_nan row Hrow Hblank Hfull)
    as (raw & y & Hraw & Hy & Hnan).
  unfold Cells.generate_name_variations. rewrite Hraw. cbn [try_bind].
  eexists. split; [reflexivity|]. rewrite <- Hnan.
  apply cells_add_normalized_has.
  - eapply Permutation_in;
      [apply Permutation_sym, Cells.cell_iter_perm|exact Hy].
  - rewrite Hnan. discriminate.
Qed.

Lemma cells_partial_match_loop_hit (nf : string) (p : Cells.Row)
    (variations : list string) (matches : list Cells.Match) :
  (exists v, In v variations /\ qualifies nf v = true) ->
  exists m,
    Cells.partial_match_loop nf p variations matches
    = (matches ++ [m])%list /\
    Cells.player m = p /\ Cells.match_type m = "partial" /\
    Cells.confidence m = "medium" /\
    In (Cells.matched_variation m) variations /\
    qualifies nf (Cells.matched_variation m) = true.
Proof.
  induction variations as [|v vs IH]; intros (w & Hw & Hq);
    [contradiction|].
  cbn [Cells.partial_match_loop].
  destruct (qualifies nf v) eqn:Hv.
  - unfold qualifies in Hv. apply andb_true_iff in Hv.
    destruct Hv as [Hlen Hsub]. rewrite Hlen, Hsub.
    eexists. split; [reflexivity|].
    cbn [Cells.player Cells.match_type Cells.confidence
         Cells.matched_variation].
    repeat split; [left; reflexivity|].
    unfold qualifies. rewrite Hlen, Hsub. reflexivity.
  - destruct Hw as [->|Hw]; [congruence|].
    destruct (IH (ex_intro _ w (conj Hw Hq)))
      as (m & Hm & Hp & Ht & Hc & Hin & Hqm).
    exists m. split.
    + unfold qualifies in Hv.
      destruct (2 <? String.length v)%nat; [|exact Hm].
      cbn [andb] in Hv. rewrite Hv. exact Hm.
    + repeat split; try assumption. right. exact Hin.
Qed.

(** The turn of a sheet row with a blank parent, for a filename that
    [nan] qualifies for. *)
Lemma cells_match_player_step_nan (oc : Cells.CellOrder) (o : SetOrder)
    (nf : string) (matches : list Cells.Match) (row : Cells.Row) :
  sheet_row row -> blank_parent row = true ->
  Cells.full_name_fails row = false ->
  qualifies nf "nan" = true ->
  exists m,
    Cells.match_player_step oc o nf matches row
    = Return (matches ++ [m])%list /\
    Cells.player m = row /\ Cells.consistent m.
Proof.
  intros Hrow Hblank Hfull Hq.
  destruct (generate_name_variations_nan oc row Hrow Hblank Hfull)
    as (variations & Hgen & Hnan).
  unfold Cells.match_player_step. rewrite Hgen. cbn [try_bind].
  destruct (set_mem nf variations).
  - eexists. split; [reflexivity|]. split; [reflexivity|].
    left. split; reflexivity.
  - destruct (cells_partial_match_loop_hit nf row (set_iter o variations)
                matches) as (m & Hm & Hp & Ht & Hc & _).
    { exists "nan". split; [|exact Hq].
      eapply Permutation_in;
        [apply Permutation_sym, set_iter_perm|exact Hnan]. }
    exists m. rewrite Hm. split; [reflexivity|]. split; [exact Hp|].
    right. split; assumption.
Qed.

Lemma cells_collect_keeps (oc : Cells.CellOrder) (o : SetOrder)
    (nf : string) (rows : list Cells.Row) (matches : list Cells.Match)
    (m : Cells.Match) :
  existsb Cells.full_name_fails rows = false ->
  In m matches ->
  exists matches',
    fold_left
      (fun acc p =>
         let* matches := acc in Cells.match_player_step oc o nf matches p)
      rows (Return matches)
    = Return matches' /\
    In m matches'.
Proof.
  revert matches.
  induction rows as [|p rows IH]; intros matches Hrows Hm;
    [exists matches; split; [reflexivity|exact Hm]|].
  cbn [existsb] in Hrows. apply orb_false_iff in Hrows.
  destruct Hrows as [Hp Hrows].
  cbn [fold_left try_bind].
  unfold Cells.match_player_step at 2, Cells.generate_name_variations.
  destruct (raw_name_variations_returns p Hp) as (variations & ->).
  cbn [try_bind].
  destruct (set_mem nf _).
  - apply IH; [exact Hrows|]. apply in_or_app. left. exact Hm.
  - apply IH; [exact Hrows|].
    clear IH. generalize (set_iter o
      (fold_left Cells.add_normalized (Cells.cell_iter oc variations)
         set_empty)).
    intros vs. induction vs as [|v vs IHvs]; [exact Hm|].
    cbn [Cells.partial_match_loop].
    destruct (2 <? String.length v)%nat; [|exact IHvs].
    destruct (Str.contains nf v || Str.contains v nf); [|exact IHvs].
    apply in_or_app. left. exact Hm.
Qed.

(** X25: blank parent cells match every filename that has [nan] in it.
    In a row read from the sheet, the cells of a parent that are blank are
    [nan] values, which count as true and print as [nan]: the variation set
    of the row then holds ["nan"], so that every photo whose normalized stem
    contains [nan], or is a part of it, gets a candidate for that row, whoever
    the player is. *)
Theorem blank_parent_matches_nan (oc : Cells.CellOrder) (o : SetOrder)
    (photo_name : string) (before after : list Cells.Row)
    (row : Cells.Row)
    (Hrow : sheet_row row) (Hblank : blank_parent row = true)
    (Hfull : existsb Cells.full_name_fails (before ++ row :: after) = false)
    (Hnan : qualifies (normalize_name (path_stem photo_name)) "nan" = true) :
  (exists variations,
      Cells.generate_name_variations oc row = Return variations /\
      In "nan" variations) /\
  exists matches m,
    Cells.match_photo_to_player oc o photo_name (before ++ row :: after)
    = Return (Ok matches) /\
    In m matches /\ Cells.player m = row.
Proof.
  rewrite existsb_app in Hfull. apply orb_false_iff in Hfull.
  destruct Hfull as [Hbefore Hrest]. cbn [existsb] in Hrest.
  apply orb_false_iff in Hrest. destruct Hrest as [Hfull Hafter].
  split; [apply generate_name_variations_nan; assumption|].
  unfold Cells.match_photo_to_player, Cells.collect_matches. cbv zeta.
  change (Cells.normalize_name (Cells.Text (path_stem photo_name)))
    with (normalize_name (path_stem photo_name)).
  set (nf := normalize_name (path_stem photo_name)) in *. clearbody nf.
  rewrite fold_left_app.
  pose proof (cells_collect_fold oc o nf before [] (Forall_nil _)) as Hb.
  rewrite Hbefore in Hb. destruct Hb as (collected & -> & Hcollected).
  cbn [fold_left try_bind].
  destruct (cells_match_player_step_nan oc o nf collected row Hrow Hblank
              Hfull Hnan) as (m & -> & Hm & Hmc).
  assert (Hconsistent : Forall Cells.consistent (collected ++ [m])%list).
  { apply Forall_app. split; [exact Hcollected|].
    constructor; [exact Hmc|constructor]. }
  pose proof (cells_collect_fold oc o nf after (collected ++ [m])%list
                Hconsistent) as Ha.
  rewrite Hafter in Ha. destruct Ha as (all & Hall & Hallc).
  destruct (cells_collect_keeps oc o nf after (collected ++ [m])%list m
              Hafter) as (all' & Hall' & Hin).
  { apply in_or_app. right. left. reflexivity. }
  rewrite Hall in Hall'. injection Hall' as <-.
  rewrite Hall. cbn [try_bind].
  destruct (cells_sort_ok all Hallc) as (sorted & -> & Hperm).
  exists sorted, m. split; [reflexivity|]. split; [|exact Hm].
  eapply Permutation_in; [apply Permutation_sym, Hperm|exact Hin].
Qed.

Lemma blank_parent_matches_nan_witness :
  (exists variations,
      Cells.generate_name_variations Cells.insertion_order one_parent_row
      = Return variations /\
      In "nan" variations) /\
  exists matches m,
    Cells.match_photo_to_player Cells.insertion_order insertion_order
      "Fernando.jpg" ([] ++ one_parent_row :: [])
    = Return (Ok matches) /\
    In m matches /\ Cells.player m = one_parent_row.
Proof.
  apply (blank_parent_matches_nan Cells.insertion_order insertion_order
           "Fernando.jpg" [] [] one_parent_row).
  - repeat constructor.
  - reflexivity.
  - reflexivity.
  - vm_compute. reflexivity.
Defined.
